(** * ClassicSudoku: the solving engine of src/app/Sudoku.ts

    The engine works on a 9x9 grid of [Cell] objects.  Cells are mutable
    objects that are shared by reference between the grid, the row, column
    and square ranges handed to the validator and the strategies, and the
    snapshots kept on the hypothesis stack.  The embedding therefore keeps an
    explicit object store: a cell reference is an index into the store, the
    grid is a list of lists of references, and every method of the engine is
    a function on the engine record, which carries the store along. *)

From Stdlib Require Import ZArith Lia.
From stdpp Require Import base decidable option numbers list sorting.

Open Scope Z_scope.
Open Scope nat_scope.

(** ** Cell *)

Module Cell.

(** Modelled from the spec: the class [Cell] of src/app/Cell.ts is not part
    of the sources at hand; this record follows the data model (position,
    optional assigned value, remaining candidates, validity flag with
    default true) and the capability contract ([hasValue], [getValue],
    [setValue], [getPossibleValues], [setPossibleValues], [fill] = assign
    and clear the candidates, [isValid], [setIsValid], [getRowIndex],
    [getColumnIndex]).  The absent value is [None]; it stands for the
    constant [DEFAULT_CELL_VALUE].  A candidate array is only ever
    replaced as a whole by the engine, never updated in place, so it is a
    plain value of the cell here; the identity of the array, which shows
    in [clone()], is made explicit in the module [Shared] further down. *)
Record t : Type := mk {
  rowIndex : nat;
  columnIndex : nat;
  value : option Z;
  possibleValues : list Z;
  valid : bool
}.

Definition DEFAULT_CELL_VALUE : option Z := None.

(** [new Cell(rowIndex, columnIndex)] *)
Definition new (r c : nat) : t :=
  mk r c DEFAULT_CELL_VALUE [] true.

Definition getRowIndex (c : t) : nat := rowIndex c.
Definition getColumnIndex (c : t) : nat := columnIndex c.
Definition getValue (c : t) : option Z := value c.
Definition getPossibleValues (c : t) : list Z := possibleValues c.
Definition isValid (c : t) : bool := valid c.

Definition hasValue (c : t) : bool :=
  match value c with Some _ => true | None => false end.

Definition setValue (v : option Z) (c : t) : t :=
  mk (rowIndex c) (columnIndex c) v (possibleValues c) (valid c).

Definition setPossibleValues (vs : list Z) (c : t) : t :=
  mk (rowIndex c) (columnIndex c) (value c) vs (valid c).

Definition fill (v : Z) (c : t) : t :=
  mk (rowIndex c) (columnIndex c) (Some v) [] (valid c).

Definition setIsValid (b : bool) (c : t) : t :=
  mk (rowIndex c) (columnIndex c) (value c) (possibleValues c) b.

(** What validation must not touch: everything but the flag. *)
Definition content (c : t) : nat * nat * option Z * list Z :=
  (rowIndex c, columnIndex c, value c, possibleValues c).

End Cell.

Global Instance Cell_inhabited : Inhabited Cell.t :=
  populate (Cell.new 0 0).

(** ** The object store *)

(** A reference to a [Cell] object. *)
Abbreviation loc := nat.

(** The store holds every [Cell] object ever created; objects are never
    freed, [alloc] appends. *)
Abbreviation Store := (list Cell.t).

Definition deref (h : Store) (l : loc) : Cell.t := h !!! l.

(** A method call [cell.m(...)] on the object behind [l]. *)
Definition update (f : Cell.t → Cell.t) (l : loc) (h : Store) : Store :=
  alter f l h.

Definition alloc (c : Cell.t) (h : Store) : loc * Store :=
  (length h, h ++ [c]).

(** [xs.forEach(x => body)], where the body mutates objects of the store. *)
Definition forEach {A : Type} (body : A → Store → Store) (xs : list A)
    (h : Store) : Store :=
  foldl (λ h x, body x h) h xs.

(** ** The engine state *)

Inductive Severity : Type := Info | Warn | Error.

Inductive Message : Type :=
  | MsgInvalidField        (* 'Sudoku field data is not valid' *)
  | MsgSolved              (* 'Sudoku solved!' *)
  | MsgMistakes            (* 'There are some mistakes' *)
  | MsgNotSolved           (* "Couldn't solve this sudoku" *)
  | MsgSuggest (row col : nat) (v : Z)
  | MsgRestore.            (* 'Restore field from last snapshot' *)

(** The object returned by [clone()]: a [ClassicSudoku] fresh from its
    constructor (not running, not paused, empty stack), of which only the
    grid and [timeoutMs] are ever read. *)
Record Snapshot : Type := mkSnapshot {
  snap_cells : list (list loc);
  snap_timeoutMs : Z
}.

Record Suggestion : Type := mkSuggestion {
  snapshot : Snapshot;
  row : nat;
  col : nat;
  number : Z
}.

(** The fields of the class, together with the two pieces of environment
    its methods act on: the object store and the messages handed to the
    [Notification] singleton (most recent first). *)
Record ClassicSudoku : Type := mkSudoku {
  heap : Store;
  cells : list (list loc);
  timeoutMs : Z;
  running : bool;
  paused : bool;
  suggestions : list Suggestion;          (* a stack, most recent first *)
  notifications : list (Severity * Message)
}.

Definition with_heap (h : Store) (s : ClassicSudoku) : ClassicSudoku :=
  mkSudoku h (cells s) (timeoutMs s) (running s) (paused s)
           (suggestions s) (notifications s).

Definition with_cells (g : list (list loc)) (s : ClassicSudoku) : ClassicSudoku :=
  mkSudoku (heap s) g (timeoutMs s) (running s) (paused s)
           (suggestions s) (notifications s).

Definition with_running (b : bool) (s : ClassicSudoku) : ClassicSudoku :=
  mkSudoku (heap s) (cells s) (timeoutMs s) b (paused s)
           (suggestions s) (notifications s).

Definition with_paused (b : bool) (s : ClassicSudoku) : ClassicSudoku :=
  mkSudoku (heap s) (cells s) (timeoutMs s) (running s) b
           (suggestions s) (notifications s).

Definition with_suggestions (ss : list Suggestion) (s : ClassicSudoku) : ClassicSudoku :=
  mkSudoku (heap s) (cells s) (timeoutMs s) (running s) (paused s)
           ss (notifications s).

Definition with_timeoutMs (ms : Z) (s : ClassicSudoku) : ClassicSudoku :=
  mkSudoku (heap s) (cells s) ms (running s) (paused s)
           (suggestions s) (notifications s).

Definition notify (sev : Severity) (m : Message) (s : ClassicSudoku) : ClassicSudoku :=
  mkSudoku (heap s) (cells s) (timeoutMs s) (running s) (paused s)
           (suggestions s) ((sev, m) :: notifications s).

(** ** Lifecycle and accessors *)

Definition spec_length : nat := 9.

Definition stop (s : ClassicSudoku) : ClassicSudoku := with_running false s.
Definition pause (s : ClassicSudoku) : ClassicSudoku := with_paused true s.
Definition continue (s : ClassicSudoku) : ClassicSudoku := with_paused false s.
Definition isRunning (s : ClassicSudoku) : bool := running s.
Definition isPaused (s : ClassicSudoku) : bool := paused s.
Definition setTimeoutMs (ms : Z) (s : ClassicSudoku) : ClassicSudoku := with_timeoutMs ms s.
Definition getTimeoutMs (s : ClassicSudoku) : Z := timeoutMs s.
Definition getCells (s : ClassicSudoku) : list (list loc) := cells s.

(** [grid[rowIndex][cellIndex]]; the grid is 9x9 throughout (see [wf_grid]),
    the default is never reached on it. *)
Definition cellAt (g : list (list loc)) (rowIndex cellIndex : nat) : loc :=
  (g !!! rowIndex) !!! cellIndex.

Definition getCell (s : ClassicSudoku) (rowIndex cellIndex : nat) : loc :=
  cellAt (cells s) rowIndex cellIndex.

(** [xs.slice(start, end)] of JavaScript, negative indices included. *)
Definition slice {A : Type} (start end_ : Z) (xs : list A) : list A :=
  let len := Z.of_nat (length xs) in
  let from := if (start <? 0)%Z then Z.max (len + start) 0 else Z.min start len in
  let to := if (end_ <? 0)%Z then Z.max (len + end_) 0 else Z.min end_ len in
  take (Z.to_nat (to - from)) (drop (Z.to_nat from) xs).

Definition getSquareIndexes (index : nat) : Z * Z :=
  if bool_decide (index ∈ [0; 1; 2]) then (0, 2)%Z
  else if bool_decide (index ∈ [3; 4; 5]) then (3, 5)%Z
  else if bool_decide (index ∈ [6; 7; 8]) then (6, 8)%Z
  else (-1, -1)%Z.

Definition getSquare (g : list (list loc)) (rowIndex columnIndex : nat)
    : list (list loc) :=
  let rowRange := getSquareIndexes rowIndex in
  let colRange := getSquareIndexes columnIndex in
  let rows := slice (fst rowRange) (snd rowRange + 1) g in
  (λ row, slice (fst colRange) (snd colRange + 1) row) <$> rows.

(** [getSquare(r, c).flatMap(x => x)] *)
Definition squareOf (g : list (list loc)) (rowIndex columnIndex : nat) : list loc :=
  mjoin (getSquare g rowIndex columnIndex).

Definition getSquares (g : list (list loc)) : list (list loc) :=
  [ squareOf g 0 0; squareOf g 0 3; squareOf g 0 6;
    squareOf g 3 0; squareOf g 3 3; squareOf g 3 6;
    squareOf g 6 0; squareOf g 6 3; squareOf g 6 6 ].

Definition getColumns (g : list (list loc)) : list (list loc) :=
  (λ i, (λ row, row !!! i) <$> g) <$> seq 0 spec_length.

(** [this.cells.flatMap(c => c)] *)
Definition allCells (g : list (list loc)) : list loc := mjoin g.

Definition solved (s : ClassicSudoku) : bool :=
  bool_decide
    (length (filter (λ c, Cell.hasValue (deref (heap s) c) = false)
                    (allCells (cells s))) = 0).

(** ** Validation *)

Definition isDuplicated (h : Store) (cell : loc) (range : list loc) : bool :=
  bool_decide
    (1 < length (filter (λ c, Cell.getValue (deref h c) = Cell.getValue (deref h cell))
                        range)).

Definition validateCell (range : list loc) (cell : loc) (h : Store) : Store :=
  if bool_decide (Cell.getValue (deref h cell) = Cell.DEFAULT_CELL_VALUE)
     || negb (Cell.isValid (deref h cell))
  then h
  else update (Cell.setIsValid (negb (isDuplicated h cell range))) cell h.

Definition validateRanges (ranges : list (list loc)) (h : Store) : Store :=
  forEach (λ range, forEach (validateCell range) range) ranges h.

Definition resetValidity (g : list (list loc)) (h : Store) : Store :=
  forEach (λ row, forEach (update (Cell.setIsValid true)) row) g h.

Definition validateStore (g : list (list loc)) (h : Store) : Store :=
  let h := resetValidity g h in
  let rows := g in
  let columns := getColumns g in
  let squares := getSquares g in
  let h := validateRanges rows h in
  let h := validateRanges columns h in
  validateRanges squares h.

Definition validate (s : ClassicSudoku) : ClassicSudoku :=
  with_heap (validateStore (cells s) (heap s)) s.

Definition isValid (s : ClassicSudoku) : bool :=
  bool_decide
    (length (filter (λ c, Cell.isValid (deref (heap s) c) = false)
                    (allCells (cells s))) = 0).

(** ** Cloning *)

(** [xs.forEach((x, index) => body)] *)
Definition forEachi {A : Type} (body : nat → A → Store → Store) (xs : list A)
    (h : Store) : Store :=
  forEach (λ ix, body (fst ix) (snd ix)) (imap pair xs) h.

(** One row of [emptyField]: nine fresh cells, pushed left to right. *)
Definition emptyRow (rowIndex : nat) (h : Store) : list loc * Store :=
  foldl (λ acc columnIndex,
           let '(cell, h) := alloc (Cell.new rowIndex columnIndex) (snd acc) in
           (fst acc ++ [cell], h))
        ([], h) (seq 0 spec_length).

Definition emptyField (h : Store) : list (list loc) * Store :=
  foldl (λ acc rowIndex,
           let '(row, h) := emptyRow rowIndex (snd acc) in
           (fst acc ++ [row], h))
        ([], h) (seq 0 spec_length).

Definition copyCell (field : list (list loc)) (rowIndex cellIndex : nat)
    (cell : loc) (h : Store) : Store :=
  let cellClone := cellAt field rowIndex cellIndex in
  let h := update (Cell.setValue (Cell.getValue (deref h cell))) cellClone h in
  update (Cell.setPossibleValues (Cell.getPossibleValues (deref h cell))) cellClone h.

(** [clone()]: the new object and the store after its construction. *)
Definition clone (s : ClassicSudoku) : Snapshot * Store :=
  let '(field, h) := emptyField (heap s) in
  let h := forEachi (λ rowIndex row, forEachi (copyCell field rowIndex) row)
                    (cells s) h in
  (mkSnapshot field (timeoutMs s), h).

(** [isValid()] called on a snapshot. *)
Definition snapshotIsValid (h : Store) (snap : Snapshot) : bool :=
  bool_decide
    (length (filter (λ c, Cell.isValid (deref h c) = false)
                    (allCells (snap_cells snap))) = 0).

(** ** The solving loop *)

(** The loop is asynchronous: it is suspended at every [await
    onCellUpdated()] and at every [sleep].  Neither the callback of the host
    nor a delay writes to the engine.  What does go on while the loop is
    suspended are the calls of [removeFromPossibleValues] that the loop
    starts without awaiting them (lines 119-121); they are kept in the state
    of the run, see [Run].  [stop], [pause] and [continue], which the host
    may call while the loop is suspended, are functions of their own on the
    engine record.

    How a run can fail to return: it is parked in the pause poll (nobody
    flips [paused] or [running] inside the engine), it guesses on an empty
    candidate list ([getPossibleValues()[0]] is then [undefined], which is
    outside the contract of [Cell.fill]), it reduces an empty array, or the
    fuel of the loop is used up. *)
Inductive Halt : Type := Parked | UndefinedGuess | ReduceOfEmpty | OutOfFuel.

Inductive Result (A : Type) : Type :=
  | Ok (a : A)
  | Stuck (why : Halt).
Arguments Ok {A} a.
Arguments Stuck {A} why.

Definition bindR {A B : Type} (m : Result A) (k : A → Result B) : Result B :=
  match m with
  | Ok a => k a
  | Stuck w => Stuck w
  end.

Notation "x ←R m ; k" := (bindR m (λ x, k))
  (at level 20, m at level 100, k at level 200, only parsing).

(** [strategy.solve(cell, row, column, square)]: the strategy classes are
    not part of the sources at hand, the engine only relies on their
    interface: they act on the objects passed and answer whether the cell
    was updated. *)
Definition SolveStrategy : Type :=
  loc → list loc → list loc → list loc → Store → bool * Store.

(** [strategies.map(s => s.solve(...)).some(u => u)]: every strategy runs,
    in order. *)
Definition applyStrategies (strategies : list SolveStrategy)
    (cell : loc) (row column square : list loc) (h : Store) : bool * Store :=
  foldl (λ acc (strategy : SolveStrategy),
           let '(updated, h) := strategy cell row column square (snd acc) in
           (fst acc || updated, h))
        (false, h) strategies.

(** The effect of one elimination of [removeFromPossibleValues] on a cell. *)
Definition eliminate (value : Z) (cell : Cell.t) : Cell.t :=
  let possibleValues := Cell.getPossibleValues cell in
  if bool_decide (value ∈ possibleValues) then
    let filtered := filter (λ v, v ≠ value) possibleValues in
    match filtered with
    | [v] => Cell.fill v cell
    | _ => Cell.setPossibleValues filtered cell
    end
  else cell.

(** [removeFromPossibleValues(onCellUpdated, value, range)], taken with the
    whole of its effect: what a caller that awaits the call finds when
    nothing else has written to the cells in between.  The cell loop does
    not await its calls; what it gets of a call is [startRemoval] below. *)
Definition removeFromPossibleValues (value : Z) (range : list loc)
    (h : Store) : Store :=
  let cellsToCheck := filter (λ c, Cell.hasValue (deref h c) = false) range in
  forEach (update (eliminate value)) cellsToCheck h.

(** *** Calls that are not awaited *)

(** A call of [removeFromPossibleValues] that is suspended at the awaits of
    lines 199-200: the value it removes and the cells of [cellsToCheck] it
    has not come to yet. *)
Record Call : Type := mkCall {
  call_value : Z;
  call_rest : list loc
}.

(** The loop of lines 193-201 from some index on, as far as the next
    [await]: a cell whose candidates do not hold the value is passed over;
    at the first cell that holds it the elimination is carried out and the
    call is suspended (the awaits of lines 199 and 200 follow each other
    with nothing of the engine read or written in between, they are taken
    as one suspension); past the last cell the call returns. *)
Fixpoint eliminateNext (value : Z) (cellsToCheck : list loc) (h : Store)
    : option Call * Store :=
  match cellsToCheck with
  | [] => (None, h)
  | cell :: rest =>
      if bool_decide (value ∈ Cell.getPossibleValues (deref h cell))
      then (Some (mkCall value rest), update (eliminate value) cell h)
      else eliminateNext value rest h
  end.

(** The call as the cell loop makes it, without [await]: [cellsToCheck] is
    computed and the loop runs until the call is first suspended; the caller
    goes on from there. *)
Definition startRemoval (value : Z) (range : list loc) (h : Store)
    : option Call * Store :=
  let cellsToCheck := filter (λ c, Cell.hasValue (deref h c) = false) range in
  eliminateNext value cellsToCheck h.

(** A suspended call goes on, until it is suspended again or returns. *)
Definition resume (call : Call) (h : Store) : option Call * Store :=
  eliminateNext (call_value call) (call_rest call) h.

(** Lines 118-122: propagation from a cell that has a value.  The three
    calls are started one after the other; those that did not return at
    once are left suspended. *)
Definition propagate (cell : loc) (row column square : list loc)
    (h : Store) : list Call * Store :=
  match Cell.getValue (deref h cell) with
  | Some v =>
      let '(forRow, h) := startRemoval v row h in
      let '(forColumn, h) := startRemoval v column h in
      let '(forSquare, h) := startRemoval v square h in
      (option_list forRow ++ option_list forColumn ++ option_list forSquare, h)
  | None => ([], h)
  end.

(** Lines 106-111: a cell with a single candidate is filled on the spot. *)
Definition autoFill (cell : loc) (h : Store) : bool * Store :=
  match Cell.getPossibleValues (deref h cell) with
  | [cellValue] => (true, update (Cell.fill cellValue) cell h)
  | _ => (false, h)
  end.

(** *** The state of a run *)

(** The engine, the calls of [removeFromPossibleValues] that are suspended,
    in the order in which they were started, and the schedule: for every
    [await] of the loop still to come, the suspended calls that go on while
    the loop waits there, each named by its index in the list of suspended
    calls at that moment.  Which calls go on at which [await] is decided by
    the promises the callback of the host returns and by the timers, neither
    of which is part of the engine; every schedule is possible, and what is
    proved of runs is proved for every schedule.  When the schedule is used
    up no suspended call goes on any more. *)
Record Run : Type := mkRun {
  engine : ClassicSudoku;
  suspended : list Call;
  schedule : list (list nat)
}.

Definition setEngine (s : ClassicSudoku) (r : Run) : Run :=
  mkRun s (suspended r) (schedule r).

(** The [i]-th suspended call goes on: it carries out its next elimination
    and is suspended again, or it returns and is gone. *)
Definition resumeAt (i : nat) (calls : list Call) (h : Store)
    : list Call * Store :=
  match calls !! i with
  | Some call =>
      let '(next, h) := resume call h in
      (match next with
       | Some call => <[i := call]> calls
       | None => delete i calls
       end, h)
  | None => (calls, h)
  end.

Definition resumeAll (order : list nat) (calls : list Call) (h : Store)
    : list Call * Store :=
  foldl (λ acc i, resumeAt i (fst acc) (snd acc)) (calls, h) order.

(** One [await] of the loop. *)
Definition yield (r : Run) : Run :=
  match schedule r with
  | order :: later =>
      let '(calls, h) := resumeAll order (suspended r) (heap (engine r)) in
      mkRun (with_heap h (engine r)) calls later
  | [] => r
  end.

Section Engine.

(** The field [strategies] of the class and the strategy of the fallback
    pass ([new BySquareIntersectionStrategy()]). *)
Variable strategies : list SolveStrategy.
Variable squareIntersection : SolveStrategy.

(** Lines 102-127: the body of the cell loop for a cell without a value,
    past the pause and stop checks.  The cell is filled on the spot when it
    has a single candidate (and the loop awaits the callback); every
    strategy is applied to it; if it has a value now, the three elimination
    calls are started and not awaited; if a strategy reported an update the
    loop awaits the callback and the delay. *)
Definition visitCell (columns : list (list loc)) (rowIndex columnIndex : nat)
    (r : Run) (hasChanges : bool) : Run * bool :=
  let cell := cellAt (cells (engine r)) rowIndex columnIndex in
  let '(filled, h) := autoFill cell (heap (engine r)) in
  let r := if filled then yield (setEngine (with_heap h (engine r)) r) else r in
  let hasChanges := hasChanges || filled in
  let s := engine r in
  let row := cells s !!! rowIndex in
  let column := columns !!! columnIndex in
  let square := squareOf (cells s) rowIndex columnIndex in
  let '(cellUpdated, h) := applyStrategies strategies cell row column square (heap s) in
  let '(calls, h) := if Cell.hasValue (deref h cell)
                     then propagate cell row column square h else ([], h) in
  let r := mkRun (with_heap h s) (suspended r ++ calls) (schedule r) in
  let r := if cellUpdated then yield (yield r) else r in
  (r, hasChanges || cellUpdated).

(** The inner [for] over the columns of one row; [break] leaves it. *)
Fixpoint rowLoop (columns : list (list loc)) (rowIndex : nat)
    (columnIndexes : list nat) (r : Run) (hasChanges : bool)
    : Result (Run * bool) :=
  match columnIndexes with
  | [] => Ok (r, hasChanges)
  | columnIndex :: rest =>
      let s := engine r in
      if paused s && running s then Stuck Parked
      else if negb (running s) then Ok (r, hasChanges)
      else if Cell.hasValue (deref (heap s) (cellAt (cells s) rowIndex columnIndex))
      then rowLoop columns rowIndex rest r hasChanges
      else
        let '(r, hasChanges) := visitCell columns rowIndex columnIndex r hasChanges in
        rowLoop columns rowIndex rest r hasChanges
  end.

Fixpoint gridLoop (columns : list (list loc)) (rowIndexes : list nat)
    (r : Run) (hasChanges : bool) : Result (Run * bool) :=
  match rowIndexes with
  | [] => Ok (r, hasChanges)
  | rowIndex :: rest =>
      x ←R rowLoop columns rowIndex (seq 0 spec_length) r hasChanges;
      gridLoop columns rest (fst x) (snd x)
  end.

(** Lines 131-148: the fallback pass over every cell without a value. *)
Definition fallbackCell (columns : list (list loc)) (rc : nat * nat)
    (acc : Run * bool) : Run * bool :=
  let r := fst acc in
  let s := engine r in
  let cell := cellAt (cells s) (fst rc) (snd rc) in
  if Cell.hasValue (deref (heap s) cell) then acc
  else
    let row := cells s !!! fst rc in
    let column := columns !!! snd rc in
    let square := squareOf (cells s) (fst rc) (snd rc) in
    let '(cellUpdated, h) := squareIntersection cell row column square (heap s) in
    let r := setEngine (with_heap h s) r in
    let r := if cellUpdated then yield (yield r) else r in
    (r, snd acc || cellUpdated).

Definition positions : list (nat * nat) :=
  rowIndex ← seq 0 spec_length; (λ columnIndex, (rowIndex, columnIndex)) <$> seq 0 spec_length.

Definition fallback (columns : list (list loc)) (r : Run)
    (hasChanges : bool) : Run * bool :=
  if negb hasChanges && negb (solved (engine r))
  then foldl (λ acc rc, fallbackCell columns rc acc) (r, hasChanges) positions
  else (r, hasChanges).

(** Lines 151-154: the cell to guess on. *)
Definition fewer (h : Store) (a b : loc) : loc :=
  if bool_decide (length (Cell.getPossibleValues (deref h a))
                  < length (Cell.getPossibleValues (deref h b)))
  then a else b.

Definition suggestionCandidate (s : ClassicSudoku) : option loc :=
  match filter (λ c, Cell.hasValue (deref (heap s) c) = false)
               (allCells (cells s)) with
  | [] => None
  | first :: rest => Some (foldl (fewer (heap s)) first rest)
  end.

(** Lines 150-169, but for the [await] of line 167 (see [guessBlock]). *)
Definition guess (s : ClassicSudoku) (hasChanges : bool)
    : Result (ClassicSudoku * bool) :=
  if negb hasChanges && negb (solved s) then
    match suggestionCandidate s with
    | None => Stuck ReduceOfEmpty
    | Some candidate =>
        match Cell.getPossibleValues (deref (heap s) candidate) with
        | [] => Stuck UndefinedGuess
        | suggestion :: _ =>
            let row := Cell.getRowIndex (deref (heap s) candidate) in
            let col := Cell.getColumnIndex (deref (heap s) candidate) in
            let s := notify Info (MsgSuggest row col suggestion) s in
            let '(snap, h) := clone s in
            let s := with_suggestions
                       (mkSuggestion snap row col suggestion :: suggestions s)
                       (with_heap h s) in
            let s := with_heap (update (Cell.fill suggestion) candidate (heap s)) s in
            Ok (s, true)
        end
    end
  else Ok (s, hasChanges).

(** Lines 170-183, but for the [await] of line 181 (see [rollbackBlock]). *)
Definition rollback (s : ClassicSudoku) : ClassicSudoku :=
  if bool_decide (0 < length (suggestions s)) then
    let s := validate s in
    if negb (isValid s) then
      match suggestions s with
      | suggestion :: rest =>
          let s := notify Info MsgRestore s in
          let s := with_suggestions rest s in
          let snapshot := snapshot suggestion in
          let suggestedNumber := number suggestion in
          let s := with_cells (snap_cells snapshot) s in
          let cell := getCell s (row suggestion) (col suggestion) in
          let possibleValues :=
            filter (λ v, v ≠ suggestedNumber)
                   (Cell.getPossibleValues (deref (heap s) cell)) in
          with_heap (update (Cell.setPossibleValues possibleValues) cell (heap s)) s
      | [] => s
      end
    else s
  else s.

(** The guess within a run: when it is taken, the loop awaits the callback
    (line 167). *)
Definition guessBlock (r : Run) (hasChanges : bool) : Result (Run * bool) :=
  if negb hasChanges && negb (solved (engine r)) then
    x ←R guess (engine r) hasChanges;
    Ok (yield (setEngine (fst x) r), snd x)
  else Ok (r, hasChanges).

(** The rollback check within a run: when the board is restored, the loop
    awaits the callback (line 181). *)
Definition rollbackBlock (r : Run) : Run :=
  let s := engine r in
  if bool_decide (0 < length (suggestions s)) && negb (isValid (validate s))
  then yield (setEngine (rollback s) r)
  else setEngine (rollback s) r.

(** One turn of the [do ... while]. *)
Definition pass (r : Run) : Result (Run * bool) :=
  let hasChanges := false in
  let columns := getColumns (cells (engine r)) in
  x ←R gridLoop columns (seq 0 spec_length) r hasChanges;
  let x := fallback columns (fst x) (snd x) in
  x ←R guessBlock (fst x) (snd x);
  Ok (rollbackBlock (fst x), snd x).

Definition loopCondition (s : ClassicSudoku) (hasChanges : bool) : bool :=
  running s && negb (solved s) && hasChanges.

Fixpoint solveAsPossible (fuel : nat) (r : Run) : Result Run :=
  match fuel with
  | 0 => Stuck OutOfFuel
  | S fuel =>
      x ←R pass r;
      if loopCondition (engine (fst x)) (snd x) then solveAsPossible fuel (fst x)
      else Ok (fst x)
  end.

(** The promise returned by [solve]. *)
Inductive Promise : Type := Resolved | Pending.

(** [solve]: past the loop, it awaits the promise of [solveAsPossible]
    (line 73) and, after the validation, the callback (line 75). *)
Definition solve (fuel : nat) (r : Run) : Result (Run * Promise) :=
  let s := with_running true (engine r) in
  let s := validate s in
  if negb (isValid s) then
    Ok (setEngine (notify Error MsgInvalidField s) r, Pending)
  else
    r ←R solveAsPossible fuel (setEngine s r);
    let r := yield r in
    let r := setEngine (validate (engine r)) r in
    let r := yield r in
    let s := engine r in
    let s := if solved s then notify Info MsgSolved s
             else if negb (isValid s) then notify Error MsgMistakes s
             else notify Warn MsgNotSolved s in
    Ok (setEngine (with_running false s) r, Resolved).

End Engine.

(** ** Well-formed states

    The grid of an engine comes from [emptyField] (constructor) or from a
    snapshot, which was itself built by the constructor: nine rows of nine
    references to distinct cell objects. *)

Definition wf_grid (g : list (list loc)) : Prop :=
  length g = 9 ∧ Forall (λ row, length row = 9) g ∧ NoDup (mjoin g).

(** Every cell of the grid is an object of the store. *)
Definition allocated (h : Store) (g : list (list loc)) : Prop :=
  Forall (λ l, l < length h) (mjoin g).

(** Every cell of the grid knows its own position. *)
Definition indexed (h : Store) (g : list (list loc)) : Prop :=
  ∀ r c, r < 9 → c < 9 →
    Cell.getRowIndex (deref h (cellAt g r c)) = r
    ∧ Cell.getColumnIndex (deref h (cellAt g r c)) = c.

(** A nested loop is a loop over the pairs (outer item, inner item). *)
Definition items {A B} (inner : A → list B) (xs : list A) : list (A * B) :=
  x ← xs; pair x <$> inner x.

(** ** Auxiliary notions for the proofs *)

(** What [validateRanges] does to one cell, given whether its value is
    duplicated in the range under inspection. *)
Definition judge (duplicated : bool) (c : Cell.t) : Cell.t :=
  if bool_decide (Cell.getValue c = Cell.DEFAULT_CELL_VALUE) || negb (Cell.isValid c)
  then c
  else Cell.setIsValid (negb duplicated) c.

(** Two stores that differ at most in validity flags. *)
Definition same_content (h h' : Store) : Prop :=
  length h = length h' ∧ ∀ l, Cell.content (deref h l) = Cell.content (deref h' l).

(** The grid the constructor builds on an empty store, [81] cells numbered
    in row-major order; the orders in which [getColumns] and [getSquares]
    enumerate its cells. *)
Definition indexGrid : list (list loc) :=
  Eval vm_compute in fst (emptyField []).

Definition columnOrder : list nat :=
  Eval vm_compute in mjoin (getColumns indexGrid).

Definition squareOrder : list nat :=
  Eval vm_compute in mjoin (getSquares indexGrid).

(** What [validate] leaves in a cell, given the three duplicate checks. *)
Definition verdict (inRow inColumn inSquare : bool) (c : Cell.t) : Cell.t :=
  Cell.setIsValid (negb (Cell.hasValue c && (inRow || inColumn || inSquare))) c.

(** The grid [emptyField] builds in a store of [n] objects, and the cells it
    appends. *)
Definition fieldAt (n : nat) : list (list loc) :=
  (λ r, (λ c, n + 9 * r + c) <$> seq 0 9) <$> seq 0 9.

Definition freshCells : list Cell.t :=
  r ← seq 0 9; Cell.new r <$> seq 0 9.

(** The calls of the copy loop of [clone()], in order: source row with its
    index, source cell with its index. *)
Definition cloneItems (g : list (list loc)) : list ((nat * list loc) * (nat * loc)) :=
  items (λ ix, imap pair (snd ix)) (imap pair g).

(** What the copy loop does to the fresh cell at the position of [src]. *)
Definition copyOf (src : Cell.t) (fresh : Cell.t) : Cell.t :=
  Cell.setPossibleValues (Cell.getPossibleValues src)
    (Cell.setValue (Cell.getValue src) fresh).

(** Two stores that agree on the first [n] objects. *)
Definition agree_below (n : nat) (h h' : Store) : Prop :=
  ∀ l, l < n → h !! l = h' !! l.

(** ** Boards used as concrete inputs *)

(** [new ClassicSudoku()] in an empty store. *)
Definition newSudoku : ClassicSudoku :=
  let '(field, h) := emptyField [] in
  mkSudoku h field 0%Z false false [] [].

(** The host sets a board up through [getCell(r, c)]. *)
Definition given (r c : nat) (v : Z) (s : ClassicSudoku) : ClassicSudoku :=
  with_heap (update (Cell.setValue (Some v)) (getCell s r c) (heap s)) s.

(** Two cells of row 0 both hold 5; a third cell holds 7. *)
Definition twoFives : ClassicSudoku :=
  given 4 4 7%Z (given 0 1 5%Z (given 0 0 5%Z newSudoku)).

(** A complete, valid grid. *)
Definition solution : list (list Z) :=
  [ [2; 4; 9; 3; 6; 8; 7; 1; 5];
    [3; 5; 6; 9; 7; 1; 8; 2; 4];
    [7; 8; 1; 5; 4; 2; 6; 3; 9];
    [5; 1; 2; 7; 8; 3; 4; 9; 6];
    [8; 7; 4; 6; 2; 9; 1; 5; 3];
    [6; 9; 3; 1; 5; 4; 2; 7; 8];
    [9; 6; 7; 4; 1; 5; 3; 8; 2];
    [4; 2; 5; 8; 3; 7; 9; 6; 1];
    [1; 3; 8; 2; 9; 6; 5; 4; 7] ]%Z.

Definition fillIn (values : list (list Z)) (s : ClassicSudoku) : ClassicSudoku :=
  foldl (λ s rc, given (fst rc) (snd rc) ((values !!! fst rc) !!! snd rc) s)
        s positions.

(** The host empties a cell again and leaves it with candidates [vs]. *)
Definition blank (r c : nat) (vs : list Z) (s : ClassicSudoku) : ClassicSudoku :=
  with_heap (update (Cell.setPossibleValues vs) (getCell s r c)
               (update (Cell.setValue Cell.DEFAULT_CELL_VALUE) (getCell s r c) (heap s))) s.

(** [solution] with four cells taken out: (0,1), (0,8), (1,1) and (1,8)
    hold 4 and 5 crosswise, so each of them is left with the candidates 4
    and 5 and no deduction tells them apart. *)
Definition rectangle : ClassicSudoku :=
  blank 1 8 [4; 5]%Z (blank 1 1 [4; 5]%Z (blank 0 8 [4; 5]%Z (blank 0 1 [4; 5]%Z
    (fillIn solution newSudoku)))).

(** ** The guess, as the code computes it and as the specification words it *)

Definition candidateCount (h : Store) (l : loc) : nat :=
  length (Cell.getPossibleValues (deref h l)).

(** The cells without a value, in row-major order. *)
Definition unfilledCells (s : ClassicSudoku) : list loc :=
  filter (λ c, Cell.hasValue (deref (heap s) c) = false) (allCells (cells s)).

(** The specification's choice: the first cell, in encounter order, whose
    candidate count is minimal. *)
Definition firstMinimal (h : Store) (ls : list loc) : option loc :=
  head (filter (λ l, Forall (λ l', candidateCount h l ≤ candidateCount h l') ls) ls).

(** A board with a single unfilled cell, (0,1), whose candidate list still
    holds a value of its row: 2 stands at (0,0). *)
Definition stale : ClassicSudoku :=
  blank 0 1 [2; 4]%Z (fillIn solution newSudoku).

(** The engine after the guess on [stale] (the value 2 at (0,1)), and the
    hypothesis this guess pushes. *)
Definition wrongGuess : ClassicSudoku :=
  match guess stale false with
  | Ok (s, _) => s
  | Stuck _ => stale
  end.

Definition wrongGuessTop : Suggestion :=
  mkSuggestion (mkSnapshot (fieldAt 81) 0%Z) 0 1 2%Z.

(** Modelled from the spec: the class [BySinglePossibleValueStrategy] is not
    part of the sources at hand; by the specification it assigns the single
    member of the candidate set of an unfilled cell, and reports whether it
    changed the cell. *)
Definition bySinglePossibleValue : SolveStrategy :=
  λ cell _ _ _ h,
    if Cell.hasValue (deref h cell) then (false, h)
    else match Cell.getPossibleValues (deref h cell) with
         | [v] => (true, update (Cell.fill v) cell h)
         | _ => (false, h)
         end.

(** The offsets of the nine cells of a square, in the order of
    [getSquare(r, c).flatMap(x => x)]. *)
Definition squareOffsets : list (nat * nat) :=
  i ← seq 0 3; pair i <$> seq 0 3.

(** Two positions of the board that constrain each other: distinct, and in
    the same row, the same column or the same square. *)
Definition peers (p q : nat * nat) : Prop :=
  p ≠ q
  ∧ (fst p = fst q ∨ snd p = snd q
     ∨ (fst p / 3 = fst q / 3 ∧ snd p / 3 = snd q / 3)).

Definition onBoard (p : nat * nat) : Prop := fst p < 9 ∧ snd p < 9.

(** The value held at a position. *)
Definition valueAt (s : ClassicSudoku) (p : nat * nat) : option Z :=
  Cell.getValue (deref (heap s) (getCell s (fst p) (snd p))).

(** How an elimination may change a cell: position and flag stay, the
    candidates can only shrink, and the value stays unless the cell had none
    and receives one of its former candidates. *)
Definition narrows (c c' : Cell.t) : Prop :=
  Cell.getRowIndex c' = Cell.getRowIndex c
  ∧ Cell.getColumnIndex c' = Cell.getColumnIndex c
  ∧ Cell.isValid c' = Cell.isValid c
  ∧ Cell.getPossibleValues c' ⊆ Cell.getPossibleValues c
  ∧ (Cell.getValue c' = Cell.getValue c
     ∨ (Cell.getValue c = None
        ∧ ∃ w, Cell.getValue c' = Some w ∧ w ∈ Cell.getPossibleValues c)).

(** [solution] with the cell (0,1) taken out and left without candidates. *)
Definition exhausted : ClassicSudoku :=
  blank 0 1 [] (fillIn solution newSudoku).

(** [solution], filled in completely. *)
Definition complete : ClassicSudoku := fillIn solution newSudoku.

(** ** The invariant of the engine *)

(** A later store as seen from an earlier one: no object is lost and the
    objects of the earlier store keep their position fields (which the
    [Cell] contract never writes). *)
Definition extends (h h' : Store) : Prop :=
  length h ≤ length h'
  ∧ ∀ l, l < length h →
         Cell.getRowIndex (deref h' l) = Cell.getRowIndex (deref h l)
         ∧ Cell.getColumnIndex (deref h' l) = Cell.getColumnIndex (deref h l).

(** What the engine needs of a strategy here: it creates or drops no cell
    object and leaves the position fields alone. *)
Definition keeps_objects (strategy : SolveStrategy) : Prop :=
  ∀ cell row column square h,
    length (snd (strategy cell row column square h)) = length h
    ∧ extends h (snd (strategy cell row column square h)).

(** The live grid followed by the grids of the snapshots on the stack. *)
Definition boards (s : ClassicSudoku) : list (list (list loc)) :=
  cells s :: ((λ g, snap_cells (snapshot g)) <$> suggestions s).

Definition board_ok (h : Store) (g : list (list loc)) : Prop :=
  wf_grid g ∧ allocated h g ∧ indexed h g.

(** Every board of the engine is a 9x9 grid of allocated cells that know
    their position, no cell object belongs to two boards, and every
    hypothesis on the stack records a position of the board. *)
Definition invariant (s : ClassicSudoku) : Prop :=
  Forall (board_ok (heap s)) (boards s)
  ∧ NoDup (boards s ≫= mjoin)
  ∧ Forall (λ g, row g < 9 ∧ col g < 9) (suggestions s).

(** A step of the engine that writes to cell objects only: grid, stack,
    flags of the run and messages are as before, no object is created. *)
Definition rewrites_store (s s' : ClassicSudoku) : Prop :=
  s' = with_heap (heap s') s
  ∧ length (heap s') = length (heap s)
  ∧ extends (heap s) (heap s').

(** [solution] with three cells of row 0 taken out: (0,1) is left with the
    single candidate 4; (0,4) and (0,8) both still hold 4 among their
    candidates. *)
Definition twoPeers : ClassicSudoku :=
  blank 0 8 [4; 5; 9]%Z (blank 0 4 [4; 6; 7]%Z (blank 0 1 [4]%Z
    (fillIn solution newSudoku))).

(** The store of [twoPeers] once (0,1) has been filled on the spot. *)
Definition twoPeersFilled : Store :=
  snd (autoFill (getCell twoPeers 0 1) (heap twoPeers)).

(** The cell loop of one turn on [twoPeers], with a schedule that lets the
    first suspended call go on at each of the first three awaits. *)
Definition twoPeersLoop : Run * bool :=
  match gridLoop [bySinglePossibleValue] (getColumns (cells twoPeers))
          (seq 0 spec_length) (mkRun twoPeers [] [[0]; [0]; [0]]) false with
  | Ok x => x
  | Stuck _ => (mkRun twoPeers [] [], false)
  end.

(** ** Candidate arrays as objects

    In the store above the candidates of a cell are a value held by the
    cell.  That is how the engine uses them: no code of Sudoku.ts writes to
    a candidate array in place, it builds a new array ([filter]) and hands
    it to the cell.  In JavaScript the array is an object of its own, and
    the one method in which its identity shows is [clone()], which hands
    the array of the source cell to the cell of the copy (line 245).  For
    this method the store is refined here: a cell holds a reference to its
    candidate array, and the arrays live in a store of their own. *)

Module Shared.

(** Modelled from the spec: the class [Cell] of src/app/Cell.ts is not part
    of the sources at hand.  As in [Cell.t] above, but the candidates are a
    reference to an array: [getPossibleValues()] answers the array the cell
    holds and [setPossibleValues(a)] makes the cell hold the array it is
    handed, as a getter and a setter of a field do; neither copies.
    [new Cell(r, c)] creates its own, empty array. *)
Record cell : Type := mkCell {
  rowIndex : nat;
  columnIndex : nat;
  value : option Z;
  possibleValues : nat;
  valid : bool
}.

Record store : Type := mkStore {
  objects : list cell;
  arrays : list (list Z)
}.

Global Instance cell_inhabited : Inhabited cell :=
  populate (mkCell 0 0 Cell.DEFAULT_CELL_VALUE 0 true).

Definition at_ (m : store) (l : loc) : cell := objects m !!! l.

(** [new Cell(rowIndex, columnIndex)] *)
Definition new (r c : nat) (m : store) : loc * store :=
  (length (objects m),
   mkStore (objects m ++ [mkCell r c Cell.DEFAULT_CELL_VALUE (length (arrays m)) true])
           (arrays m ++ [[]])).

Definition getValue (l : loc) (m : store) : option Z := value (at_ m l).
Definition getPossibleValues (l : loc) (m : store) : nat := possibleValues (at_ m l).
Definition isValid (l : loc) (m : store) : bool := valid (at_ m l).

Definition setValue (v : option Z) (l : loc) (m : store) : store :=
  mkStore (alter (λ x, mkCell (rowIndex x) (columnIndex x) v (possibleValues x) (valid x))
                 l (objects m))
          (arrays m).

Definition setPossibleValues (a : nat) (l : loc) (m : store) : store :=
  mkStore (alter (λ x, mkCell (rowIndex x) (columnIndex x) (value x) a (valid x))
                 l (objects m))
          (arrays m).

Definition setIsValid (b : bool) (l : loc) (m : store) : store :=
  mkStore (alter (λ x, mkCell (rowIndex x) (columnIndex x) (value x) (possibleValues x) b)
                 l (objects m))
          (arrays m).



Definition emptyRow (rowIndex : nat) (m : store) : list loc * store :=
  foldl (λ acc columnIndex,
           let '(cell, m) := new rowIndex columnIndex (snd acc) in
           (fst acc ++ [cell], m))
        ([], m) (seq 0 spec_length).

Definition emptyField (m : store) : list (list loc) * store :=
  foldl (λ acc rowIndex,
           let '(row, m) := emptyRow rowIndex (snd acc) in
           (fst acc ++ [row], m))
        ([], m) (seq 0 spec_length).

(** Lines 242-246. *)
Definition copyCell (field : list (list loc)) (rowIndex cellIndex : nat)
    (cell : loc) (m : store) : store :=
  let cellClone := cellAt field rowIndex cellIndex in
  let m := setValue (getValue cell m) cellClone m in
  setPossibleValues (getPossibleValues cell m) cellClone m.

(** [clone()] of an engine with grid [g] and delay [timeoutMs]. *)
Definition clone (g : list (list loc)) (timeoutMs : Z) (m : store)
    : Snapshot * store :=
  let '(field, m) := emptyField m in
  let m := foldl (λ m ir,
                    foldl (λ m jc, copyCell field (fst ir) (fst jc) (snd jc) m)
                          m (imap pair (snd ir)))
                 m (imap pair g) in
  (mkSnapshot field timeoutMs, m).

(** The store of the sections above that a store with arrays stands for:
    every cell with the content of its array. *)
Definition contents (m : store) : Store :=
  (λ x, Cell.mk (rowIndex x) (columnIndex x) (value x)
                (arrays m !!! possibleValues x) (valid x))
  <$> objects m.

(** What the copy loop of [clone()] does to the fresh cell at the position
    of [src]. *)
Definition copyOf (src fresh : cell) : cell :=
  mkCell (rowIndex fresh) (columnIndex fresh) (value src) (possibleValues src)
         (valid fresh).

(** The cells [emptyField] appends when [k] arrays exist. *)
Definition freshCells (k : nat) : list cell :=
  r ← seq 0 9; (λ c, mkCell r c Cell.DEFAULT_CELL_VALUE (k + (9 * r + c)) true) <$> seq 0 9.


End Shared.



(** * Properties *)

(** ** Loops of method calls on distinct objects *)

Lemma forEach_nil {A} (body : A → Store → Store) h : forEach body [] h = h.
Proof. reflexivity. Qed.

Lemma forEach_cons {A} (body : A → Store → Store) x xs h :
  forEach body (x :: xs) h = forEach body xs (body x h).
Proof. reflexivity. Qed.

Lemma forEach_app {A} (body : A → Store → Store) xs ys h :
  forEach body (xs ++ ys) h = forEach body ys (forEach body xs h).
Proof. unfold forEach. apply foldl_app. Qed.

Lemma forEach_fmap {A B} (g : A → B) (body : B → Store → Store) xs h :
  forEach body (g <$> xs) h = forEach (λ x, body (g x)) xs h.
Proof. unfold forEach. apply foldl_fmap. Qed.

Lemma forEach_ext {A} (body body' : A → Store → Store) xs h :
  (∀ x h, x ∈ xs → body x h = body' x h) →
  forEach body xs h = forEach body' xs h.
Proof.
  revert h. induction xs as [|x xs IH]; intros h Hb; [done|].
  rewrite !forEach_cons, Hb by left.
  apply IH. intros y h' Hy. apply Hb. by right.
Qed.

Lemma forEach_nested {A B} (inner : A → list B) (body : A → B → Store → Store) xs h :
  forEach (λ x, forEach (body x) (inner x)) xs h
  = forEach (λ p, body (fst p) (snd p)) (items inner xs) h.
Proof.
  revert h. induction xs as [|x xs IH]; intros h; [done|].
  unfold items in *. rewrite forEach_cons, IH. simpl.
  by rewrite forEach_app, forEach_fmap.
Qed.

Lemma items_snd {A B} (inner : A → list B) xs :
  snd <$> items inner xs = xs ≫= inner.
Proof.
  unfold items. induction xs as [|x xs IH]; [done|].
  rewrite !bind_cons, fmap_app, IH. f_equal.
  rewrite <- list_fmap_compose. apply list_fmap_id.
Qed.

Lemma elem_of_items {A B} (inner : A → list B) xs x y :
  (x, y) ∈ items inner xs ↔ x ∈ xs ∧ y ∈ inner x.
Proof.
  unfold items. rewrite list_elem_of_bind. split.
  - intros (x' & Hin & Hx'). apply list_elem_of_fmap in Hin as (y' & Heq & Hy').
    by simplify_eq.
  - intros [Hx Hy]. exists x. split; [|done]. by apply list_elem_of_fmap_2.
Qed.

Lemma update_length f l (h : Store) : length (update f l h) = length h.
Proof. apply length_alter. Qed.

Lemma update_lookup_ne f l l' (h : Store) : l ≠ l' → update f l h !! l' = h !! l'.
Proof. apply list_lookup_alter_ne. Qed.

Lemma update_lookup_eq f l (h : Store) : update f l h !! l = f <$> h !! l.
Proof. apply list_lookup_alter_eq. Qed.

Lemma update_fixed f l (h : Store) : f (deref h l) = deref h l → l < length h → update f l h = h.
Proof.
  intros Hf Hl. apply list_eq. intros i.
  destruct (decide (l = i)) as [<-|Hne].
  - rewrite update_lookup_eq. unfold deref in Hf.
    destruct (lookup_lt_is_Some_2 h l Hl) as [c Hc].
    rewrite (list_lookup_total_correct _ _ _ Hc) in Hf.
    rewrite Hc. simpl. by rewrite Hf.
  - by apply update_lookup_ne.
Qed.

Lemma update_beyond f l (h : Store) : length h ≤ l → update f l h = h.
Proof.
  intros Hl. apply list_eq. intros i. destruct (decide (l = i)) as [<-|Hne].
  - rewrite update_lookup_eq. by rewrite (lookup_ge_None_2 h l).
  - by apply update_lookup_ne.
Qed.

Lemma deref_update f l l' (h : Store) :
  l < length h →
  deref (update f l h) l' = if decide (l = l') then f (deref h l') else deref h l'.
Proof.
  intros Hl. unfold deref, update. case_decide as Heq.
  - subst. by apply list_lookup_total_alter_eq.
  - by apply list_lookup_total_alter_ne.
Qed.

Lemma deref_update_ne f l l' (h : Store) : l ≠ l' → deref (update f l h) l' = deref h l'.
Proof. intros. unfold deref, update. by apply list_lookup_total_alter_ne. Qed.

Lemma deref_lookup (h h' : Store) l : h !! l = h' !! l → deref h l = deref h' l.
Proof. unfold deref. rewrite !list_lookup_total_alt. by intros ->. Qed.

Section ForEachUpdate.

Context {A : Type}.
(** Each item [x] stands for a call on the object [tgt x]; what the call
    does may depend on the store through [f], as long as it only reads
    what the loop leaves alone (stores related by [R]). *)
Variable tgt : A → loc.
Variable f : A → Store → Cell.t → Cell.t.
Variable R : Store → Store → Prop.

Lemma forEach_update_lookup (xs : list A) (h : Store) :
  NoDup (tgt <$> xs) →
  (∀ x h, x ∈ xs → R h (update (f x h) (tgt x) h)) →
  (∀ x h h', x ∈ xs → R h h' → f x h = f x h') →
  (∀ l, l ∉ tgt <$> xs →
        forEach (λ x h, update (f x h) (tgt x) h) xs h !! l = h !! l)
  ∧ (∀ x, x ∈ xs →
        forEach (λ x h, update (f x h) (tgt x) h) xs h !! tgt x
        = f x h <$> h !! tgt x).
Proof.
  revert h. induction xs as [|x xs IH]; intros h Hnd HR Hf.
  { split; [done|]. intros x Hx. by apply elem_of_nil in Hx. }
  rewrite fmap_cons in Hnd. apply NoDup_cons in Hnd as [Hx Hnd].
  destruct (IH (update (f x h) (tgt x) h) Hnd) as [IH1 IH2].
  { intros y h' Hy. apply HR. by right. }
  { intros y h1 h2 Hy. apply Hf. by right. }
  split.
  - intros l Hl. rewrite forEach_cons, IH1.
    + apply update_lookup_ne. intros Heq. apply Hl. rewrite <- Heq. by left.
    + intros Hin. apply Hl. by right.
  - intros y Hy. rewrite forEach_cons.
    apply elem_of_cons in Hy as [->|Hy].
    + rewrite IH1 by done. apply update_lookup_eq.
    + rewrite IH2 by done.
      rewrite update_lookup_ne.
      * f_equal. symmetry. apply Hf; [by right|]. apply HR. by left.
      * intros Heq. apply Hx. rewrite Heq. by apply list_elem_of_fmap_2.
Qed.

Lemma forEach_update_length (xs : list A) (h : Store) :
  length (forEach (λ x h, update (f x h) (tgt x) h) xs h) = length h.
Proof.
  revert h. induction xs as [|x xs IH]; intros h; [done|].
  by rewrite forEach_cons, IH, update_length.
Qed.

End ForEachUpdate.

(** ** Validation *)

Lemma bind_id_join {A} (xss : list (list A)) : xss ≫= id = mjoin xss.
Proof. induction xss as [|xs xss IH]; [done|]. rewrite bind_cons, IH. done. Qed.

Lemma validateCell_update range cell h :
  validateCell range cell h = update (judge (isDuplicated h cell range)) cell h.
Proof.
  unfold validateCell.
  destruct (decide (cell < length h)) as [Hlt|Hge].
  - destruct (bool_decide _ || negb _) eqn:Hskip.
    + symmetry. apply update_fixed; [|done]. unfold judge. by rewrite Hskip.
    + apply list_eq. intros i. destruct (decide (cell = i)) as [<-|Hne].
      * rewrite !update_lookup_eq. unfold deref in Hskip.
        destruct (lookup_lt_is_Some_2 h cell Hlt) as [c Hc].
        rewrite (list_lookup_total_correct _ _ _ Hc) in Hskip.
        rewrite Hc. simpl. unfold judge. by rewrite Hskip.
      * by rewrite !update_lookup_ne.
  - rewrite !update_beyond by lia. by destruct (_ || _).
Qed.

Lemma judge_content d c : Cell.content (judge d c) = Cell.content c.
Proof. unfold judge. by destruct (_ || _). Qed.

Lemma judge_value d c : Cell.getValue (judge d c) = Cell.getValue c.
Proof. unfold judge. by destruct (_ || _). Qed.

Lemma same_content_refl h : same_content h h.
Proof. done. Qed.

Lemma same_content_trans h1 h2 h3 :
  same_content h1 h2 → same_content h2 h3 → same_content h1 h3.
Proof.
  intros [Hl1 H1] [Hl2 H2]. split; [congruence|].
  intros l. by rewrite H1, H2.
Qed.

Lemma same_content_update f l h :
  (∀ c, Cell.content (f c) = Cell.content c) → same_content h (update f l h).
Proof.
  intros Hf. split; [by rewrite update_length|]. intros l'.
  destruct (decide (l < length h)) as [Hlt|Hge].
  - rewrite deref_update by done. case_decide; [by rewrite Hf|done].
  - by rewrite update_beyond by lia.
Qed.

Lemma same_content_value h h' l :
  same_content h h' → Cell.getValue (deref h l) = Cell.getValue (deref h' l).
Proof.
  intros [_ H]. specialize (H l). unfold Cell.content in H.
  unfold Cell.getValue. congruence.
Qed.

Lemma isDuplicated_same_content h h' cell range :
  same_content h h' → isDuplicated h cell range = isDuplicated h' cell range.
Proof.
  intros Hs. unfold isDuplicated.
  rewrite (list_filter_iff _ (λ c, Cell.getValue (deref h' c) = Cell.getValue (deref h' cell)));
    [done|]. intros c.
  by rewrite !(same_content_value h h' _ Hs).
Qed.

Lemma forEach_same_content {A} (tgt : A → loc) (f : A → Store → Cell.t → Cell.t) xs h :
  (∀ x h c, Cell.content (f x h c) = Cell.content c) →
  same_content h (forEach (λ x h, update (f x h) (tgt x) h) xs h).
Proof.
  intros Hf. revert h. induction xs as [|x xs IH]; intros h; [done|].
  rewrite forEach_cons. eapply same_content_trans; [|apply IH].
  apply same_content_update. intros c. apply Hf.
Qed.

Lemma validateRanges_flat ranges h :
  validateRanges ranges h
  = forEach (λ p h, update (judge (isDuplicated h (snd p) (fst p))) (snd p) h)
            (items id ranges) h.
Proof.
  unfold validateRanges.
  rewrite (forEach_nested id (λ range cell, validateCell range cell)).
  apply forEach_ext. intros [range cell] h' _. apply validateCell_update.
Qed.

Lemma validateRanges_same_content ranges h :
  same_content h (validateRanges ranges h).
Proof.
  rewrite validateRanges_flat.
  apply (forEach_same_content snd (λ p h, judge (isDuplicated h (snd p) (fst p)))).
  intros. apply judge_content.
Qed.

(** One family of ranges: a cell outside is left alone, a cell of a range is
    judged against that range. *)
Lemma validateRanges_lookup ranges h :
  NoDup (mjoin ranges) →
  (∀ l, l ∉ mjoin ranges → validateRanges ranges h !! l = h !! l)
  ∧ (∀ range l, range ∈ ranges → l ∈ range →
        validateRanges ranges h !! l = judge (isDuplicated h l range) <$> h !! l).
Proof.
  intros Hnd. rewrite validateRanges_flat.
  destruct (forEach_update_lookup snd
              (λ p h, judge (isDuplicated h (snd p) (fst p)))
              same_content (items id ranges) h) as [H1 H2].
  - by rewrite items_snd, bind_id_join.
  - intros p h' _. apply same_content_update. intros c. apply judge_content.
  - intros p h1 h2 _ Hs. by rewrite (isDuplicated_same_content h1 h2).
  - rewrite items_snd, bind_id_join in H1. split; [done|].
    intros range l Hr Hl. apply (H2 (range, l)). by apply elem_of_items.
Qed.

Lemma resetValidity_flat g h :
  resetValidity g h = forEach (λ l h, update (Cell.setIsValid true) l h) (mjoin g) h.
Proof.
  unfold resetValidity.
  rewrite (forEach_nested id (λ _ l, update (Cell.setIsValid true) l)).
  rewrite <- (bind_id_join g), <- (items_snd id g).
  by rewrite forEach_fmap.
Qed.

Lemma resetValidity_same_content g h : same_content h (resetValidity g h).
Proof.
  rewrite resetValidity_flat.
  by apply (forEach_same_content id (λ _ _, Cell.setIsValid true)).
Qed.

Lemma resetValidity_lookup g h l :
  resetValidity g h !! l
  = if decide (l ∈ mjoin g) then Cell.setIsValid true <$> h !! l else h !! l.
Proof.
  rewrite resetValidity_flat. revert h.
  induction (mjoin g) as [|x xs IH]; intros h; [done|].
  rewrite forEach_cons, IH.
  destruct (decide (x = l)) as [->|Hne].
  - rewrite update_lookup_eq.
    destruct (decide (l ∈ l :: xs)) as [_|Hn]; [|exfalso; apply Hn; left].
    case_decide; [|done]. by destruct (h !! l).
  - rewrite update_lookup_ne by done.
    destruct (decide (l ∈ xs)) as [Hin|Hout].
    + destruct (decide (l ∈ x :: xs)) as [_|Hn]; [done|]. exfalso. apply Hn. by right.
    + destruct (decide (l ∈ x :: xs)) as [[?|?]%elem_of_cons|_]; [congruence|done|done].
Qed.

(** ** Shape of the grid and of its ranges *)

Ltac explode_list l H :=
  lazymatch type of H with
  | length l = 0 => destruct l; [clear H | discriminate H]
  | length l = S _ =>
      let t := fresh "t" in
      destruct l as [|? t]; [discriminate H|];
      simpl in H; apply Nat.succ_inj in H; explode_list t H
  end.

Ltac explode_rows :=
  repeat match goal with
         | H : Forall _ (_ :: _) |- _ =>
             let Hrow := fresh "Hrow" in
             apply Forall_cons in H as [Hrow H]
         | H : Forall _ [] |- _ => clear H
         end;
  repeat match goal with
         | H : length ?row = 9 |- _ => explode_list row H
         end.

Ltac explode_grid g Hwf :=
  let Hlen := fresh "Hlen" in
  let Hrows := fresh "Hrows" in
  let Hnd := fresh "Hnd" in
  destruct Hwf as (Hlen & Hrows & Hnd);
  explode_list g Hlen; explode_rows.

Ltac cases_below r n :=
  lazymatch n with
  | 0 => exfalso; lia
  | S ?m => let r' := fresh "i" in destruct r as [|r']; [|cases_below r' m]
  end.

Ltac each_index r Hr := cases_below r 9; try clear Hr.

Ltac find_elem :=
  vm_compute; repeat first [apply list_elem_of_here | apply list_elem_of_further].

Lemma reindex_seq {A} `{Inhabited A} (flat : list A) :
  (λ i, flat !!! i) <$> seq 0 (length flat) = flat.
Proof.
  apply list_eq. intros i. rewrite list_lookup_fmap.
  destruct (decide (i < length flat)) as [Hlt|Hge].
  - rewrite lookup_seq_lt by done. simpl.
    destruct (lookup_lt_is_Some_2 flat i Hlt) as [x Hx].
    by rewrite Hx, (list_lookup_total_correct _ _ _ Hx).
  - rewrite lookup_seq_ge by lia. by rewrite lookup_ge_None_2 by lia.
Qed.

Lemma reindex_perm {A} `{Inhabited A} (flat : list A) (order : list nat) :
  order ≡ₚ seq 0 (length flat) → (λ i, flat !!! i) <$> order ≡ₚ flat.
Proof. intros ->. by rewrite reindex_seq. Qed.

Lemma decide_perm (l k : list nat) :
  bool_decide (NoDup l ∧ NoDup k ∧ Forall (λ x, x ∈ k) l ∧ Forall (λ x, x ∈ l) k) = true →
  l ≡ₚ k.
Proof.
  intros (Hl & Hk & Hlk & Hkl)%bool_decide_eq_true.
  apply NoDup_Permutation; [done..|]. intros x.
  rewrite Forall_forall in Hlk, Hkl. naive_solver.
Qed.

Lemma columnOrder_perm : columnOrder ≡ₚ seq 0 81.
Proof. apply decide_perm. by vm_compute. Qed.

Lemma squareOrder_perm : squareOrder ≡ₚ seq 0 81.
Proof. apply decide_perm. by vm_compute. Qed.

Lemma wf_grid_length g : wf_grid g → length (mjoin g) = 81.
Proof. intros Hwf. explode_grid g Hwf. reflexivity. Qed.

Lemma getColumns_perm g : wf_grid g → mjoin (getColumns g) ≡ₚ mjoin g.
Proof.
  intros Hwf.
  assert (mjoin (getColumns g) = (λ i, mjoin g !!! i) <$> columnOrder) as ->.
  { explode_grid g Hwf. reflexivity. }
  apply reindex_perm. rewrite (wf_grid_length g Hwf). apply columnOrder_perm.
Qed.

Lemma getSquares_perm g : wf_grid g → mjoin (getSquares g) ≡ₚ mjoin g.
Proof.
  intros Hwf.
  assert (mjoin (getSquares g) = (λ i, mjoin g !!! i) <$> squareOrder) as ->.
  { explode_grid g Hwf. reflexivity. }
  apply reindex_perm. rewrite (wf_grid_length g Hwf). apply squareOrder_perm.
Qed.

Lemma wf_grid_NoDup g : wf_grid g → NoDup (mjoin g).
Proof. by intros (_ & _ & ?). Qed.

Lemma getColumns_NoDup g : wf_grid g → NoDup (mjoin (getColumns g)).
Proof. intros Hwf. rewrite (getColumns_perm g Hwf). by apply wf_grid_NoDup. Qed.

Lemma getSquares_NoDup g : wf_grid g → NoDup (mjoin (getSquares g)).
Proof. intros Hwf. rewrite (getSquares_perm g Hwf). by apply wf_grid_NoDup. Qed.

(** The cell at [(r, c)] lies in row [r], in column [c] and in the square
    around [(r, c)], and these are ranges of the three families. *)
Lemma cell_in_grid g r c :
  wf_grid g → r < 9 → c < 9 → cellAt g r c ∈ mjoin g.
Proof.
  intros Hwf Hr Hc. explode_grid g Hwf.
  each_index r Hr; each_index c Hc; find_elem.
Qed.

Lemma cell_in_row g r c :
  wf_grid g → r < 9 → c < 9 → g !!! r ∈ g ∧ cellAt g r c ∈ g !!! r.
Proof.
  intros Hwf Hr Hc. explode_grid g Hwf.
  each_index r Hr; each_index c Hc; split; find_elem.
Qed.

Lemma cell_in_column g r c :
  wf_grid g → r < 9 → c < 9 →
  getColumns g !!! c ∈ getColumns g ∧ cellAt g r c ∈ getColumns g !!! c.
Proof.
  intros Hwf Hr Hc. explode_grid g Hwf.
  each_index r Hr; each_index c Hc; split; find_elem.
Qed.

Lemma cell_in_square g r c :
  wf_grid g → r < 9 → c < 9 →
  squareOf g r c ∈ getSquares g ∧ cellAt g r c ∈ squareOf g r c.
Proof.
  intros Hwf Hr Hc. explode_grid g Hwf.
  each_index r Hr; each_index c Hc; split; find_elem.
Qed.

Lemma grid_flat_index g i :
  wf_grid g → i < 81 → mjoin g !! i = Some (cellAt g (i / 9) (i mod 9)).
Proof.
  intros Hwf Hi. explode_grid g Hwf.
  cases_below i 81; reflexivity.
Qed.

Lemma grid_positions g l :
  wf_grid g → l ∈ mjoin g → ∃ r c, r < 9 ∧ c < 9 ∧ l = cellAt g r c.
Proof.
  intros Hwf Hl. apply list_elem_of_lookup in Hl as [i Hi].
  assert (i < 81) as Hlt.
  { rewrite <- (wf_grid_length g Hwf). by eapply lookup_lt_Some. }
  rewrite (grid_flat_index g i Hwf Hlt) in Hi.
  exists (i / 9), (i mod 9). split; [|split].
  - apply Nat.Div0.div_lt_upper_bound. lia.
  - apply Nat.mod_upper_bound. lia.
  - congruence.
Qed.

(** ** What validation computes *)

Lemma validateStore_same_content g h : same_content h (validateStore g h).
Proof.
  unfold validateStore.
  eapply same_content_trans; [apply resetValidity_same_content|].
  eapply same_content_trans; [apply validateRanges_same_content|].
  eapply same_content_trans; [apply validateRanges_same_content|].
  apply validateRanges_same_content.
Qed.

Lemma validateStore_frame g h l :
  wf_grid g → l ∉ mjoin g → validateStore g h !! l = h !! l.
Proof.
  intros Hwf Hl. unfold validateStore.
  destruct (validateRanges_lookup (getSquares g)
              (validateRanges (getColumns g) (validateRanges g (resetValidity g h)))
              (getSquares_NoDup g Hwf)) as [-> _];
    [|by rewrite (getSquares_perm g Hwf)].
  destruct (validateRanges_lookup (getColumns g)
              (validateRanges g (resetValidity g h))
              (getColumns_NoDup g Hwf)) as [-> _];
    [|by rewrite (getColumns_perm g Hwf)].
  destruct (validateRanges_lookup g (resetValidity g h)
              (wf_grid_NoDup g Hwf)) as [-> _]; [|done].
  rewrite resetValidity_lookup. by rewrite decide_False.
Qed.

Lemma judge_chain d1 d2 d3 c :
  judge d3 (judge d2 (judge d1 (Cell.setIsValid true c))) = verdict d1 d2 d3 c.
Proof.
  destruct c as [r k [v|] p f]; [|done].
  by destruct d1, d2, d3.
Qed.

Lemma validateStore_lookup g h r c :
  wf_grid g → r < 9 → c < 9 →
  validateStore g h !! cellAt g r c
  = verdict (isDuplicated h (cellAt g r c) (g !!! r))
            (isDuplicated h (cellAt g r c) (getColumns g !!! c))
            (isDuplicated h (cellAt g r c) (squareOf g r c))
    <$> h !! cellAt g r c.
Proof.
  intros Hwf Hr Hc. unfold validateStore.
  set (h0 := resetValidity g h).
  set (h1 := validateRanges g h0).
  set (h2 := validateRanges (getColumns g) h1).
  assert (same_content h h0) as S0 by apply resetValidity_same_content.
  assert (same_content h0 h1) as S1 by apply validateRanges_same_content.
  assert (same_content h1 h2) as S2 by apply validateRanges_same_content.
  destruct (cell_in_row g r c Hwf Hr Hc) as [Rr Rc].
  destruct (cell_in_column g r c Hwf Hr Hc) as [Cr Cc].
  destruct (cell_in_square g r c Hwf Hr Hc) as [Sr Sc].
  destruct (validateRanges_lookup (getSquares g) h2 (getSquares_NoDup g Hwf)) as [_ H3].
  destruct (validateRanges_lookup (getColumns g) h1 (getColumns_NoDup g Hwf)) as [_ H2].
  destruct (validateRanges_lookup g h0 (wf_grid_NoDup g Hwf)) as [_ H1].
  assert (h2 !! cellAt g r c
          = judge (isDuplicated h1 (cellAt g r c) (getColumns g !!! c))
              <$> h1 !! cellAt g r c) as E2 by apply (H2 _ _ Cr Cc).
  assert (h1 !! cellAt g r c
          = judge (isDuplicated h0 (cellAt g r c) (g !!! r))
              <$> h0 !! cellAt g r c) as E1 by apply (H1 _ _ Rr Rc).
  rewrite (H3 _ _ Sr Sc), E2, E1.
  clear H1 H2 H3 E1 E2.
  rewrite <- (isDuplicated_same_content h h0 _ (g !!! r)) by done.
  rewrite <- (isDuplicated_same_content h h1 _ (getColumns g !!! c))
    by (eapply same_content_trans; done).
  rewrite <- (isDuplicated_same_content h h2 _ (squareOf g r c))
    by (eapply same_content_trans; [|done]; eapply same_content_trans; done).
  subst h0. rewrite resetValidity_lookup.
  rewrite decide_True by by apply cell_in_grid.
  destruct (h !! cellAt g r c) as [c0|]; [|done].
  simpl. f_equal. apply judge_chain.
Qed.

Lemma no_flagged_iff (h : Store) (ls : list loc) :
  length (filter (λ c, Cell.isValid (deref h c) = false) ls) = 0
  ↔ ∀ l, l ∈ ls → Cell.isValid (deref h l) = true.
Proof.
  induction ls as [|x ls IH].
  - split; [|done]. intros _ l Hl. by apply elem_of_nil in Hl.
  - rewrite filter_cons. destruct (decide _) as [Hx|Hx].
    + split; [done|]. intros Hall. specialize (Hall x (list_elem_of_here _ _)). congruence.
    + rewrite IH. split.
      * intros Hall l [->|Hl]%elem_of_cons; [by destruct (Cell.isValid _)|by apply Hall].
      * intros Hall l Hl. apply Hall. by right.
Qed.

Lemma isValid_iff s :
  isValid s = true
  ↔ ∀ l, l ∈ allCells (cells s) → Cell.isValid (deref (heap s) l) = true.
Proof. unfold isValid. rewrite bool_decide_eq_true. apply no_flagged_iff. Qed.

Lemma verdict_idem a b c x : verdict a b c (verdict a b c x) = verdict a b c x.
Proof. by destruct x as [? ? [?|] ? ?]. Qed.

Lemma validateStore_idem g h :
  wf_grid g → validateStore g (validateStore g h) = validateStore g h.
Proof.
  intros Hwf. apply list_eq. intros l.
  destruct (decide (l ∈ mjoin g)) as [Hin|Hout].
  - destruct (grid_positions g l Hwf Hin) as (r & c & Hr & Hc & ->).
    rewrite !validateStore_lookup by done.
    pose proof (validateStore_same_content g h) as Hs.
    rewrite <- !(isDuplicated_same_content h (validateStore g h)) by done.
    destruct (h !! cellAt g r c) as [c0|]; [|done].
    cbn [fmap option_fmap option_map]. by rewrite verdict_idem.
  - by rewrite !validateStore_frame.
Qed.

Lemma deref_fmap (h h' : Store) l f :
  h' !! l = f <$> h !! l → f inhabitant = inhabitant → deref h' l = f (deref h l).
Proof.
  intros Hl Hf. unfold deref. rewrite !list_lookup_total_alt, Hl.
  by destruct (h !! l).
Qed.

Lemma judge_cases d c :
  judge d c
  = if Cell.hasValue c && Cell.isValid c && d then Cell.setIsValid false c else c.
Proof. destruct c as [r k [v|] p [|]]; destruct d; reflexivity. Qed.

Lemma wf_grid_decide g :
  bool_decide (length g = 9 ∧ Forall (λ row, length row = 9) g ∧ NoDup (mjoin g)) = true →
  wf_grid g.
Proof. apply bool_decide_eq_true_1. Qed.

(** C8: [validate()] is idempotent: a second call in succession leaves the
    engine, and so the validity flag of every cell, as the first call left
    it. *)
Theorem validate_idempotent (s : ClassicSudoku) :
  wf_grid (cells s) → validate (validate s) = validate s.
Proof.
  intros Hwf. unfold validate, with_heap. simpl.
  by rewrite validateStore_idem.
Qed.

Lemma validate_idempotent_witness :
  validate (validate twoFives) = validate twoFives.
Proof.
  apply (validate_idempotent twoFives).
  apply wf_grid_decide. vm_compute. reflexivity.
Defined.

(** C9: [validate()] leaves the assigned value and the candidate set of
    every cell object as they were (and its position); the grid and the other
    fields of the engine are not written either: only validity flags
    change. *)
Theorem validate_only_writes_flags (s : ClassicSudoku) :
  (∀ l, Cell.getValue (deref (heap (validate s)) l) = Cell.getValue (deref (heap s) l)
        ∧ Cell.getPossibleValues (deref (heap (validate s)) l)
          = Cell.getPossibleValues (deref (heap s) l)
        ∧ Cell.getRowIndex (deref (heap (validate s)) l) = Cell.getRowIndex (deref (heap s) l)
        ∧ Cell.getColumnIndex (deref (heap (validate s)) l)
          = Cell.getColumnIndex (deref (heap s) l))
  ∧ length (heap (validate s)) = length (heap s)
  ∧ cells (validate s) = cells s
  ∧ timeoutMs (validate s) = timeoutMs s
  ∧ running (validate s) = running s
  ∧ paused (validate s) = paused s
  ∧ suggestions (validate s) = suggestions s
  ∧ notifications (validate s) = notifications s.
Proof.
  destruct (validateStore_same_content (cells s) (heap s)) as [Hlen Hc].
  split; [|by repeat split].
  intros l. specialize (Hc l). unfold Cell.content in Hc. simpl.
  unfold Cell.getValue, Cell.getPossibleValues, Cell.getRowIndex, Cell.getColumnIndex.
  by simplify_eq.
Qed.

(** ** Cloning *)

Lemma emptyRow_spec r h :
  emptyRow r h = ((λ c, length h + c) <$> seq 0 9, h ++ (Cell.new r <$> seq 0 9)).
Proof.
  unfold emptyRow, spec_length. generalize 9 as n.
  induction n as [|n IH].
  - simpl. by rewrite app_nil_r.
  - rewrite seq_S, foldl_app, IH. simpl.
    rewrite !fmap_app, length_app, length_fmap, length_seq. simpl.
    by rewrite app_assoc.
Qed.

Lemma length_freshRows n :
  length (seq 0 n ≫= λ r, Cell.new r <$> seq 0 9) = 9 * n.
Proof.
  induction n as [|n IH]; [done|].
  rewrite (seq_S n 0), bind_app, length_app, IH. simpl. lia.
Qed.

Lemma emptyField_fold n h :
  foldl (λ acc rowIndex,
           let '(row, h) := emptyRow rowIndex (snd acc) in
           (fst acc ++ [row], h))
        ([], h) (seq 0 n)
  = ((λ r, (λ c, length h + 9 * r + c) <$> seq 0 9) <$> seq 0 n,
     h ++ (seq 0 n ≫= λ r, Cell.new r <$> seq 0 9)).
Proof.
  induction n as [|n IH].
  - simpl. by rewrite app_nil_r.
  - rewrite (seq_S n 0), foldl_app, IH.
    cbn [foldl fst snd]. rewrite emptyRow_spec, length_app, length_freshRows.
    rewrite !fmap_app, bind_app.
    cbn [fmap list_fmap mbind list_bind].
    rewrite app_nil_r, app_assoc. by rewrite Nat.add_0_l.
Qed.

Lemma emptyField_spec h :
  emptyField h = (fieldAt (length h), h ++ freshCells).
Proof. apply emptyField_fold. Qed.

Lemma fieldAt_flat n : mjoin (fieldAt n) = (λ i, n + i) <$> seq 0 81.
Proof.
  apply list_eq. intros i. rewrite list_lookup_fmap.
  destruct (decide (i < 81)) as [Hlt|Hge].
  - rewrite lookup_seq_lt by done. cases_below i 81; cbn; f_equal; lia.
  - rewrite lookup_seq_ge by lia. apply lookup_ge_None_2. cbn. lia.
Qed.

Lemma fieldAt_wf n : wf_grid (fieldAt n).
Proof.
  split; [done|]. split.
  - unfold fieldAt. cbn.
    repeat (apply Forall_cons; split; [reflexivity|]). apply Forall_nil_2.
  - rewrite fieldAt_flat. apply NoDup_fmap_2; [|apply NoDup_seq].
    intros i j. lia.
Qed.

Lemma cellAt_fieldAt n r c :
  r < 9 → c < 9 → cellAt (fieldAt n) r c = n + (9 * r + c).
Proof. intros Hr Hc. each_index r Hr; each_index c Hc; cbn; lia. Qed.

Lemma fieldAt_fresh n l : l ∈ mjoin (fieldAt n) → n ≤ l < n + 81.
Proof.
  rewrite fieldAt_flat. intros (i & -> & Hi)%list_elem_of_fmap.
  apply elem_of_seq in Hi. lia.
Qed.

Lemma freshCells_lookup r c :
  r < 9 → c < 9 → freshCells !! (9 * r + c) = Some (Cell.new r c).
Proof. intros Hr Hc. each_index r Hr; each_index c Hc; reflexivity. Qed.

Lemma cloneItems_targets g n :
  wf_grid g →
  (λ p, cellAt (fieldAt n) (fst (fst p)) (fst (snd p))) <$> cloneItems g
  = mjoin (fieldAt n).
Proof. intros Hwf. explode_grid g Hwf. reflexivity. Qed.

Lemma cloneItems_elem g r c :
  wf_grid g → r < 9 → c < 9 →
  ((r, g !!! r), (c, cellAt g r c)) ∈ cloneItems g.
Proof.
  intros Hwf Hr Hc. explode_grid g Hwf.
  each_index r Hr; each_index c Hc; find_elem.
Qed.

Lemma cloneItems_sources g p :
  wf_grid g → p ∈ cloneItems g →
  snd (snd p) ∈ mjoin g ∧ fst (fst p) < 9 ∧ fst (snd p) < 9.
Proof.
  intros Hwf Hp. unfold cloneItems in Hp.
  destruct p as [[r row] [c l]]. apply elem_of_items in Hp as [Hrow Hl].
  apply list_elem_of_lookup in Hrow as [i Hi].
  apply list_lookup_imap_Some in Hi as (row' & Hrow' & [= -> ->]).
  apply list_elem_of_lookup in Hl as [j Hj]. simpl in Hj.
  apply list_lookup_imap_Some in Hj as (l' & Hl' & [= -> ->]).
  destruct Hwf as (Hlen & Hrows & _). simpl.
  pose proof (lookup_lt_Some _ _ _ Hrow') as Hr.
  pose proof (lookup_lt_Some _ _ _ Hl') as Hc.
  rewrite Forall_forall in Hrows.
  rewrite (Hrows row') in Hc by (by eapply list_elem_of_lookup_2).
  split; [|lia].
  apply list_elem_of_join. exists row'. split; by eapply list_elem_of_lookup_2.
Qed.

Lemma forEachi_flat {A} (body : nat → A → Store → Store) xs h :
  forEachi body xs h = forEach (λ ix, body (fst ix) (snd ix)) (imap pair xs) h.
Proof. reflexivity. Qed.

Lemma clone_unfold s :
  clone s
  = (mkSnapshot (fieldAt (length (heap s))) (timeoutMs s),
     forEach (λ p h, copyCell (fieldAt (length (heap s)))
                       (fst (fst p)) (fst (snd p)) (snd (snd p)) h)
             (cloneItems (cells s)) (heap s ++ freshCells)).
Proof.
  unfold clone. rewrite emptyField_spec. f_equal.
  unfold forEachi at 1.
  rewrite (forEach_nested (λ ix, imap pair (snd ix))
             (λ ix jy, copyCell (fieldAt (length (heap s))) (fst ix) (fst jy) (snd jy))).
  reflexivity.
Qed.

Lemma copyCell_update field r c src h :
  src ≠ cellAt field r c →
  copyCell field r c src h = update (copyOf (deref h src)) (cellAt field r c) h.
Proof.
  intros Hne. unfold copyCell, copyOf, update.
  rewrite list_alter_alter_eq. unfold update in *.
  by rewrite (deref_update_ne _ (cellAt field r c) src h).
Qed.

Lemma agree_below_deref n h h' l : agree_below n h h' → l < n → deref h l = deref h' l.
Proof. intros Ha Hl. apply deref_lookup. by apply Ha. Qed.

(** The store [clone()] leaves: old objects untouched, 81 new ones. *)
Lemma clone_store s :
  wf_grid (cells s) → allocated (heap s) (cells s) →
  length (snd (clone s)) = length (heap s) + 81
  ∧ (∀ l, l < length (heap s) → snd (clone s) !! l = heap s !! l)
  ∧ (∀ r c, r < 9 → c < 9 →
       snd (clone s) !! cellAt (snap_cells (fst (clone s))) r c
       = Some (copyOf (deref (heap s) (cellAt (cells s) r c)) (Cell.new r c))).
Proof.
  intros Hwf Halloc. rewrite clone_unfold. simpl.
  set (n := length (heap s)).
  set (tgt := λ p : (nat * list loc) * (nat * loc),
                cellAt (fieldAt n) (fst (fst p)) (fst (snd p))).
  set (f := λ (p : (nat * list loc) * (nat * loc)) (h : Store),
              copyOf (deref h (snd (snd p)))).
  assert (∀ p, p ∈ cloneItems (cells s) → snd (snd p) < n ∧ n ≤ tgt p) as Hitems.
  { intros p Hp. destruct (cloneItems_sources _ _ Hwf Hp) as (Hsrc & Hr & Hc).
    unfold allocated in Halloc. rewrite Forall_forall in Halloc.
    split; [by apply Halloc|]. unfold tgt. rewrite cellAt_fieldAt by done. lia. }
  rewrite (forEach_ext _ (λ p h, update (f p h) (tgt p) h)).
  2:{ intros p h Hp. destruct (Hitems p Hp). apply copyCell_update. unfold tgt in *. lia. }
  destruct (forEach_update_lookup tgt f (agree_below n)
              (cloneItems (cells s)) (heap s ++ freshCells)) as [Hout Hin].
  { unfold tgt. rewrite cloneItems_targets by done. by destruct (fieldAt_wf n) as (_ & _ & ?). }
  { intros p h Hp l Hl. destruct (Hitems p Hp). symmetry. apply update_lookup_ne. lia. }
  { intros p h h' Hp Ha. destruct (Hitems p Hp). unfold f.
    by rewrite (agree_below_deref n h h'). }
  split; [|split].
  - rewrite forEach_update_length, length_app. reflexivity.
  - intros l Hl. rewrite Hout.
    + by apply lookup_app_l.
    + unfold tgt. rewrite cloneItems_targets by done.
      intros Hin'%fieldAt_fresh. lia.
  - intros r c Hr Hc.
    pose proof (Hin _ (cloneItems_elem _ r c Hwf Hr Hc)) as Hrc.
    etrans; [exact Hrc|]. unfold tgt, f. cbn [fst snd].
    rewrite cellAt_fieldAt by done.
    rewrite lookup_app_r by (unfold n; lia).
    replace (n + (9 * r + c) - length (heap s)) with (9 * r + c) by (unfold n; lia).
    rewrite freshCells_lookup by done. simpl. f_equal. f_equal.
    unfold deref. apply lookup_total_app_l.
    unfold allocated in Halloc. rewrite Forall_forall in Halloc.
    apply Halloc. by apply cell_in_grid.
Qed.

Lemma allocated_decide h g :
  bool_decide (Forall (λ l, l < length h) (mjoin g)) = true → allocated h g.
Proof. apply bool_decide_eq_true_1. Qed.

Lemma clone_result s snap h' :
  wf_grid (cells s) → allocated (heap s) (cells s) → clone s = (snap, h') →
  snap = mkSnapshot (fieldAt (length (heap s))) (timeoutMs s)
  ∧ length h' = length (heap s) + 81
  ∧ (∀ l, l < length (heap s) → h' !! l = heap s !! l)
  ∧ (∀ r c, r < 9 → c < 9 →
       deref h' (cellAt (snap_cells snap) r c)
       = copyOf (deref (heap s) (cellAt (cells s) r c)) (Cell.new r c)).
Proof.
  intros Hwf Ha E.
  pose proof (clone_store s Hwf Ha) as (Hlen & Hold & Hnew).
  rewrite E in Hlen, Hold, Hnew. cbn [fst snd] in *.
  rewrite clone_unfold in E. injection E as <- <-.
  split; [done|]. split; [done|]. split; [done|].
  intros r c Hr Hc. unfold deref at 1.
  by apply list_lookup_total_correct, Hnew.
Qed.

(** C10: whatever the flags of the source, every cell of the board returned
    by [clone()] is flagged valid, so [isValid()] holds on a fresh clone. *)
Theorem clone_flags_valid (s : ClassicSudoku) (copy : Snapshot) (h' : Store) :
  wf_grid (cells s) → allocated (heap s) (cells s) →
  clone s = (copy, h') →
  (∀ l, l ∈ allCells (snap_cells copy) → Cell.isValid (deref h' l) = true)
  ∧ snapshotIsValid h' copy = true.
Proof.
  intros Hwf Ha E.
  destruct (clone_result s copy h' Hwf Ha E) as (Hcopy & Hlen & Hold & Hnew).
  assert (∀ l, l ∈ allCells (snap_cells copy) →
               Cell.isValid (deref h' l) = true) as Hall.
  { intros l Hl.
    assert (wf_grid (snap_cells copy)) as Hwf' by (subst copy; apply fieldAt_wf).
    destruct (grid_positions _ l Hwf' Hl) as (r & c & Hr & Hc & ->).
    by rewrite Hnew. }
  split; [exact Hall|].
  unfold snapshotIsValid. apply bool_decide_eq_true_2. by apply no_flagged_iff.
Qed.

Lemma clone_flags_valid_witness :
  isValid (validate twoFives) = false
  ∧ snapshotIsValid (snd (clone (validate twoFives)))
                    (fst (clone (validate twoFives))) = true.
Proof.
  split; [vm_compute; reflexivity|].
  apply (clone_flags_valid (validate twoFives)
           (fst (clone (validate twoFives))) (snd (clone (validate twoFives)))).
  - apply wf_grid_decide. vm_compute. reflexivity.
  - apply allocated_decide. vm_compute. reflexivity.
  - apply surjective_pairing.
Defined.

(** ** Cloning, with the candidate arrays as objects *)

Section FoldAlter.

Context {A T : Type}.
Variable tgt : A → nat.
Variable f : A → list T → T → T.
Variable R : list T → list T → Prop.

Lemma foldl_alter_lookup (xs : list A) (h : list T) :
  NoDup (tgt <$> xs) →
  (∀ x h, x ∈ xs → R h (alter (f x h) (tgt x) h)) →
  (∀ x h h', x ∈ xs → R h h' → f x h = f x h') →
  (∀ l, l ∉ tgt <$> xs →
        foldl (λ h x, alter (f x h) (tgt x) h) h xs !! l = h !! l)
  ∧ (∀ x, x ∈ xs →
        foldl (λ h x, alter (f x h) (tgt x) h) h xs !! tgt x
        = f x h <$> h !! tgt x).
Proof.
  revert h. induction xs as [|x xs IH]; intros h Hnd HR Hf.
  { split; [done|]. intros x Hx. by apply elem_of_nil in Hx. }
  rewrite fmap_cons in Hnd. apply NoDup_cons in Hnd as [Hx Hnd].
  destruct (IH (alter (f x h) (tgt x) h) Hnd) as [IH1 IH2].
  { intros y h' Hy. apply HR. by right. }
  { intros y h1 h2 Hy. apply Hf. by right. }
  split.
  - intros l Hl. cbn [foldl]. rewrite IH1.
    + apply list_lookup_alter_ne. intros Heq. apply Hl. rewrite <- Heq. by left.
    + intros Hin. apply Hl. by right.
  - intros y Hy. cbn [foldl].
    apply elem_of_cons in Hy as [->|Hy].
    + rewrite IH1 by done. apply list_lookup_alter_eq.
    + rewrite IH2 by done.
      rewrite list_lookup_alter_ne.
      * f_equal. symmetry. apply Hf; [by right|]. apply HR. by left.
      * intros Heq. apply Hx. rewrite Heq. by apply list_elem_of_fmap_2.
Qed.

Lemma foldl_alter_length (xs : list A) (h : list T) :
  length (foldl (λ h x, alter (f x h) (tgt x) h) h xs) = length h.
Proof.
  revert h. induction xs as [|x xs IH]; intros h; [done|].
  cbn [foldl]. by rewrite IH, length_alter.
Qed.

End FoldAlter.

Lemma foldl_nested {A B M} (inner : A → list B) (body : A → B → M → M) xs (m : M) :
  foldl (λ m x, foldl (λ m y, body x y m) m (inner x)) m xs
  = foldl (λ m p, body (fst p) (snd p) m) m (items inner xs).
Proof.
  revert m. induction xs as [|x xs IH]; intros m; [done|].
  unfold items in *. cbn [foldl]. rewrite IH, bind_cons, foldl_app.
  f_equal. by rewrite foldl_fmap.
Qed.

Lemma shared_emptyRow_spec r m :
  Shared.emptyRow r m
  = ((λ c, length (Shared.objects m) + c) <$> seq 0 9,
     Shared.mkStore
       (Shared.objects m
        ++ ((λ c, Shared.mkCell r c Cell.DEFAULT_CELL_VALUE
                    (length (Shared.arrays m) + c) true) <$> seq 0 9))
       (Shared.arrays m ++ replicate 9 [])).
Proof.
  unfold Shared.emptyRow, spec_length. generalize 9 as n.
  induction n as [|n IH].
  - simpl. rewrite !app_nil_r. by destruct m.
  - rewrite seq_S, foldl_app, IH. cbn [foldl fst snd Shared.new Shared.objects Shared.arrays].
    rewrite !fmap_app, !length_app, !length_fmap, length_seq, length_replicate.
    cbn [fmap list_fmap]. rewrite <- !app_assoc. f_equal. f_equal. f_equal.
    by rewrite replicate_S_end.
Qed.

Lemma length_sharedRows k n :
  length (seq 0 n ≫= λ r, (λ c, Shared.mkCell r c Cell.DEFAULT_CELL_VALUE
                                  (k + (9 * r + c)) true) <$> seq 0 9) = 9 * n.
Proof.
  induction n as [|n IH]; [done|].
  rewrite (seq_S n 0), bind_app, length_app, IH. simpl. lia.
Qed.

Lemma shared_emptyField_fold n m :
  foldl (λ acc rowIndex,
           let '(row, m) := Shared.emptyRow rowIndex (snd acc) in
           (fst acc ++ [row], m))
        ([], m) (seq 0 n)
  = ((λ r, (λ c, length (Shared.objects m) + 9 * r + c) <$> seq 0 9) <$> seq 0 n,
     Shared.mkStore
       (Shared.objects m
        ++ (seq 0 n ≫= λ r, (λ c, Shared.mkCell r c Cell.DEFAULT_CELL_VALUE
                                    (length (Shared.arrays m) + (9 * r + c)) true)
                            <$> seq 0 9))
       (Shared.arrays m ++ replicate (9 * n) [])).
Proof.
  induction n as [|n IH].
  - simpl. rewrite !app_nil_r. by destruct m.
  - rewrite (seq_S n 0), foldl_app, IH.
    cbn [foldl fst snd]. rewrite shared_emptyRow_spec.
    cbn [Shared.objects Shared.arrays].
    rewrite !length_app, length_sharedRows, length_replicate.
    rewrite !fmap_app, bind_app.
    cbn [fmap list_fmap mbind list_bind].
    rewrite app_nil_r, <- !app_assoc, Nat.add_0_l.
    f_equal. f_equal.
    + f_equal. f_equal. apply list_fmap_ext. intros _ c _. f_equal. lia.
    + f_equal. replace (9 * S n) with (9 * n + 9) by lia.
      by rewrite replicate_add.
Qed.

Lemma shared_emptyField_spec m :
  Shared.emptyField m
  = (fieldAt (length (Shared.objects m)),
     Shared.mkStore (Shared.objects m ++ Shared.freshCells (length (Shared.arrays m)))
                    (Shared.arrays m ++ replicate 81 [])).
Proof. apply shared_emptyField_fold. Qed.

Lemma shared_freshCells_lookup k r c :
  r < 9 → c < 9 →
  Shared.freshCells k !! (9 * r + c)
  = Some (Shared.mkCell r c Cell.DEFAULT_CELL_VALUE (k + (9 * r + c)) true).
Proof. intros Hr Hc. each_index r Hr; each_index c Hc; reflexivity. Qed.

Lemma shared_clone_unfold g t m :
  Shared.clone g t m
  = (mkSnapshot (fieldAt (length (Shared.objects m))) t,
     foldl (λ m0 p, Shared.copyCell (fieldAt (length (Shared.objects m)))
                      (fst (fst p)) (fst (snd p)) (snd (snd p)) m0)
           (Shared.mkStore
              (Shared.objects m ++ Shared.freshCells (length (Shared.arrays m)))
              (Shared.arrays m ++ replicate 81 []))
           (cloneItems g)).
Proof.
  unfold Shared.clone. rewrite shared_emptyField_spec. f_equal.
  apply (foldl_nested (λ ix : nat * list loc, imap pair (snd ix))
           (λ ix jy, Shared.copyCell (fieldAt (length (Shared.objects m)))
                       (fst ix) (fst jy) (snd jy))).
Qed.

Lemma shared_copyCell_alter field r c src m :
  src ≠ cellAt field r c →
  Shared.copyCell field r c src m
  = Shared.mkStore
      (alter (Shared.copyOf (Shared.objects m !!! src)) (cellAt field r c)
             (Shared.objects m))
      (Shared.arrays m).
Proof.
  intros Hne. unfold Shared.copyCell, Shared.setPossibleValues, Shared.setValue,
    Shared.getPossibleValues, Shared.getValue, Shared.at_, Shared.copyOf.
  cbn [Shared.objects Shared.arrays]. f_equal.
  rewrite list_alter_alter_eq.
  rewrite (list_lookup_total_alter_ne _ _ (cellAt field r c) src) by done.
  reflexivity.
Qed.

Lemma shared_copy_loop field (ps : list ((nat * list loc) * (nat * loc))) m :
  (∀ p, p ∈ ps → snd (snd p) ≠ cellAt field (fst (fst p)) (fst (snd p))) →
  foldl (λ m p, Shared.copyCell field (fst (fst p)) (fst (snd p)) (snd (snd p)) m) m ps
  = Shared.mkStore
      (foldl (λ o p, alter (Shared.copyOf (o !!! snd (snd p)))
                           (cellAt field (fst (fst p)) (fst (snd p))) o)
             (Shared.objects m) ps)
      (Shared.arrays m).
Proof.
  revert m. induction ps as [|p ps IH]; intros m Hne; [by destruct m|].
  cbn [foldl]. rewrite shared_copyCell_alter by (apply Hne; left).
  rewrite IH; [done|]. intros q Hq. apply Hne. by right.
Qed.

(** The store [clone()] leaves: the arrays and the existing cells as they
    were, 81 new arrays that no cell of the copy keeps, and 81 new cells,
    each with the value and with the array of the source cell at its
    position. *)
Lemma shared_clone_result g t m copy m' :
  wf_grid g → Forall (λ l, l < length (Shared.objects m)) (mjoin g) →
  Shared.clone g t m = (copy, m') →
  copy = mkSnapshot (fieldAt (length (Shared.objects m))) t
  ∧ length (Shared.objects m') = length (Shared.objects m) + 81
  ∧ Shared.arrays m' = Shared.arrays m ++ replicate 81 []
  ∧ (∀ l, l < length (Shared.objects m) → Shared.objects m' !! l = Shared.objects m !! l)
  ∧ (∀ r c, r < 9 → c < 9 →
       Shared.objects m' !!! cellAt (fieldAt (length (Shared.objects m))) r c
       = Shared.copyOf (Shared.objects m !!! cellAt g r c)
           (Shared.mkCell r c Cell.DEFAULT_CELL_VALUE
              (length (Shared.arrays m) + (9 * r + c)) true)).
Proof.
  intros Hwf Halloc. rewrite shared_clone_unfold.
  set (n := length (Shared.objects m)).
  set (tgt := λ p : (nat * list loc) * (nat * loc),
                cellAt (fieldAt n) (fst (fst p)) (fst (snd p))).
  set (f := λ (p : (nat * list loc) * (nat * loc)) (o : list Shared.cell),
              Shared.copyOf (o !!! snd (snd p))).
  assert (∀ p, p ∈ cloneItems g → snd (snd p) < n ∧ n ≤ tgt p) as Hitems.
  { intros p Hp. destruct (cloneItems_sources _ _ Hwf Hp) as (Hsrc & Hr & Hc).
    rewrite Forall_forall in Halloc.
    split; [by apply Halloc|]. unfold tgt. rewrite cellAt_fieldAt by done. lia. }
  rewrite shared_copy_loop
    by (intros p [? ?]%Hitems; unfold tgt in *; lia).
  cbn [Shared.objects Shared.arrays].
  destruct (foldl_alter_lookup tgt f (λ h h', ∀ l, l < n → h !! l = h' !! l)
              (cloneItems g)
              (Shared.objects m ++ Shared.freshCells (length (Shared.arrays m))))
    as [Hout Hin].
  { unfold tgt. rewrite cloneItems_targets by done. by destruct (fieldAt_wf n) as (_ & _ & ?). }
  { intros p h Hp l Hl. destruct (Hitems p Hp). symmetry.
    apply list_lookup_alter_ne. lia. }
  { intros p h h' Hp Ha. destruct (Hitems p Hp). unfold f.
    by rewrite !list_lookup_total_alt, Ha. }
  intros [= <- <-]. cbn [Shared.objects Shared.arrays].
  split; [done|]. split; [|split; [done|split]].
  - rewrite (foldl_alter_length tgt f), length_app.
    by f_equal.
  - intros l Hl. fold n in Hl. rewrite Hout.
    + by apply lookup_app_l.
    + unfold tgt. rewrite cloneItems_targets by done.
      intros Hin'%fieldAt_fresh. lia.
  - intros r c Hr Hc.
    pose proof (Hin _ (cloneItems_elem _ r c Hwf Hr Hc)) as Hrc.
    apply list_lookup_total_correct. etrans; [exact Hrc|].
    unfold tgt, f. cbn [fst snd].
    rewrite cellAt_fieldAt by done.
    rewrite lookup_app_r by (unfold n; lia).
    replace (n + (9 * r + c) - length (Shared.objects m)) with (9 * r + c)
      by (unfold n; lia).
    rewrite shared_freshCells_lookup by done. simpl. f_equal. f_equal.
    apply lookup_total_app_l.
    rewrite Forall_forall in Halloc. apply Halloc. by apply cell_in_grid.
Qed.

Lemma shared_arrays_kept (arrays : list (list Z)) n a :
  (arrays ++ replicate n []) !!! a = arrays !!! a.
Proof.
  destruct (decide (a < length arrays)) as [Hlt|Hge].
  - by apply lookup_total_app_l.
  - rewrite lookup_total_app_r by lia.
    rewrite (list_lookup_total_alt arrays), (lookup_ge_None_2 arrays) by lia.
    rewrite list_lookup_total_alt.
    destruct (replicate n [] !! (a - length arrays)) as [x|] eqn:Hx; [|done].
    by apply lookup_replicate in Hx as [-> _].
Qed.




(** Read through [Shared.contents], [Shared.clone] is the [clone] of the
    sections above. *)
Lemma shared_clone_contents s m copy m' :
  heap s = Shared.contents m →
  wf_grid (cells s) → allocated (heap s) (cells s) →
  Shared.clone (cells s) (timeoutMs s) m = (copy, m') →
  clone s = (copy, Shared.contents m').
Proof.
  intros Hheap Hwf Ha E.
  assert (length (heap s) = length (Shared.objects m)) as Hn
    by (rewrite Hheap; apply length_fmap).
  assert (Forall (λ l, l < length (Shared.objects m)) (mjoin (cells s))) as Ha'
    by (unfold allocated in Ha; by rewrite <- Hn).
  destruct (shared_clone_result _ _ _ _ _ Hwf Ha' E) as (-> & Hlen & Harr & Hold & Hnew).
  destruct (clone_result s (fst (clone s)) (snd (clone s)) Hwf Ha)
    as (Hsnap & Hlen' & Hold' & Hnew'); [apply surjective_pairing|].
  rewrite (surjective_pairing (clone s)). f_equal; [by rewrite Hsnap, Hn|].
  assert (∀ x : Shared.cell,
            Cell.mk (Shared.rowIndex x) (Shared.columnIndex x) (Shared.value x)
                    (Shared.arrays m' !!! Shared.possibleValues x) (Shared.valid x)
            = Cell.mk (Shared.rowIndex x) (Shared.columnIndex x) (Shared.value x)
                      (Shared.arrays m !!! Shared.possibleValues x) (Shared.valid x))
    as Hview by (intros x; by rewrite Harr, shared_arrays_kept).
  apply list_eq. intros l. unfold Shared.contents. rewrite list_lookup_fmap.
  destruct (decide (l < length (heap s))) as [Hlt|Hge].
  - rewrite Hold', Hold, Hheap by lia. unfold Shared.contents.
    rewrite list_lookup_fmap. destruct (Shared.objects m !! l) as [x|]; [|done].
    simpl. f_equal. symmetry. apply Hview.
  - destruct (decide (l < length (heap s) + 81)) as [Hlt|Hge'].
    + assert (∃ r c, r < 9 ∧ c < 9 ∧ l = cellAt (fieldAt (length (heap s))) r c)
        as (r & c & Hr & Hc & ->).
      { exists ((l - length (heap s)) / 9), ((l - length (heap s)) mod 9).
        assert ((l - length (heap s)) / 9 < 9) by (apply Nat.Div0.div_lt_upper_bound; lia).
        assert ((l - length (heap s)) mod 9 < 9) by (apply Nat.mod_upper_bound; lia).
        split; [done|]. split; [done|]. rewrite cellAt_fieldAt by done.
        pose proof (Nat.div_mod_eq (l - length (heap s)) 9). lia. }
      assert (cellAt (fieldAt (length (heap s))) r c < length (snd (clone s))) as Hin
        by (rewrite Hlen', cellAt_fieldAt by done; lia).
      rewrite (list_lookup_lookup_total_lt _ _ Hin).
      rewrite Hsnap in Hnew'. cbn [snap_cells] in Hnew'.
      unfold deref in Hnew'. rewrite (Hnew' r c Hr Hc).
      rewrite Hn in *. 
      assert (cellAt (fieldAt (length (Shared.objects m))) r c
              < length (Shared.objects m')) as Hin'
        by (rewrite Hlen, cellAt_fieldAt by done; lia).
      rewrite (list_lookup_lookup_total_lt _ _ Hin'), (Hnew r c Hr Hc).
      simpl. f_equal. unfold copyOf, Shared.copyOf, Cell.new. simpl.
      rewrite Hheap. unfold Shared.contents.
      assert (cellAt (cells s) r c < length (Shared.objects m)) as Hsrc.
      { rewrite Forall_forall in Ha'. apply Ha'. by apply cell_in_grid. }
      rewrite (list_lookup_total_fmap _ _ _ Hsrc) || idtac.
      unfold Cell.setPossibleValues, Cell.setValue, Cell.getPossibleValues, Cell.getValue.
      simpl. by rewrite Harr, shared_arrays_kept.
    + rewrite !lookup_ge_None_2; [done|lia..].
Qed.

(** ** The guess *)

Lemma solved_false_unfilled s : solved s = false → unfilledCells s ≠ [].
Proof.
  unfold solved, unfilledCells. intros Hs%bool_decide_eq_false Hnil.
  apply Hs. by rewrite Hnil.
Qed.

Lemma fewer_fold h first rest :
  ∃ before after,
    first :: rest = before ++ foldl (fewer h) first rest :: after
    ∧ (∀ l, l ∈ before →
            candidateCount h (foldl (fewer h) first rest) ≤ candidateCount h l)
    ∧ (∀ l, l ∈ after →
            candidateCount h (foldl (fewer h) first rest) < candidateCount h l).
Proof.
  induction rest as [|x rest IH] using rev_ind.
  - exists [], []. simpl. split; [done|]. split; intros l Hl; by apply elem_of_nil in Hl.
  - destruct IH as (before & after & Heq & Hb & Ha).
    rewrite foldl_app. simpl. set (m := foldl (fewer h) first rest) in *.
    assert (fewer h m x
            = if bool_decide (candidateCount h m < candidateCount h x) then m else x)
      as -> by done.
    case_bool_decide as Hlt.
    + exists before, (after ++ [x]). split; [|split].
      * by rewrite app_comm_cons, Heq, <- app_assoc.
      * done.
      * intros l [Hl| ->%list_elem_of_singleton]%elem_of_app; [by apply Ha|done].
    + exists (first :: rest), []. split; [|split].
      * by rewrite app_comm_cons.
      * intros l Hl. rewrite Heq in Hl.
        apply elem_of_app in Hl as [Hl|[->|Hl]%elem_of_cons].
        -- specialize (Hb l Hl). lia.
        -- lia.
        -- specialize (Ha l Hl). lia.
      * intros l Hl. by apply elem_of_nil in Hl.
Qed.

Lemma clone_notify sev m s : clone (notify sev m s) = clone s.
Proof. reflexivity. Qed.

Lemma sorted_head_least (v : Z) (vs : list Z) :
  StronglySorted Z.le (v :: vs) → ∀ w, w ∈ v :: vs → (v ≤ w)%Z.
Proof.
  intros Hs w [->|Hw]%elem_of_cons; [lia|].
  apply StronglySorted_inv in Hs as [_ Hall].
  rewrite Forall_forall in Hall. by apply Hall.
Qed.

Lemma suggestionCandidate_unfold s first rest :
  unfilledCells s = first :: rest →
  suggestionCandidate s = Some (foldl (fewer (heap s)) first rest).
Proof. unfold unfilledCells, suggestionCandidate. by intros ->. Qed.

Lemma guess_unfold s candidate suggestion others copy h' :
  solved s = false →
  suggestionCandidate s = Some candidate →
  Cell.getPossibleValues (deref (heap s) candidate) = suggestion :: others →
  clone s = (copy, h') →
  guess s false
  = Ok (mkSudoku (update (Cell.fill suggestion) candidate h')
          (cells s) (timeoutMs s) (running s) (paused s)
          (mkSuggestion copy (Cell.getRowIndex (deref (heap s) candidate))
             (Cell.getColumnIndex (deref (heap s) candidate)) suggestion
           :: suggestions s)
          ((Info, MsgSuggest (Cell.getRowIndex (deref (heap s) candidate))
                    (Cell.getColumnIndex (deref (heap s) candidate)) suggestion)
           :: notifications s),
        true).
Proof.
  intros Hs Hc Hp E. unfold guess. rewrite Hs, Hc, Hp. cbn [negb andb].
  rewrite clone_notify, E. reflexivity.
Qed.

(** C3 (as amended): when a pass produced no change and the board is not
    solved, the guess goes to the LAST cell, in row-major order, among the
    unfilled cells with the least number of candidates (no cell before it
    has fewer candidates, every cell after it has strictly more); the guessed
    value is the first element of its candidate list, which is its smallest
    candidate when the list is in ascending order; a hypothesis made of a
    clone of the board before the guess, the position of the cell and the
    value is pushed on the stack; then the cell is filled with the value, no
    other cell of the board being touched. *)
Theorem guess_takes_last_minimal (s : ClassicSudoku) (copy : Snapshot) (h' : Store) :
  wf_grid (cells s) → allocated (heap s) (cells s) → indexed (heap s) (cells s) →
  solved s = false →
  clone s = (copy, h') →
  ∃ candidate before after,
    suggestionCandidate s = Some candidate
    ∧ unfilledCells s = before ++ candidate :: after
    ∧ (∀ l, l ∈ before →
            candidateCount (heap s) candidate ≤ candidateCount (heap s) l)
    ∧ (∀ l, l ∈ after →
            candidateCount (heap s) candidate < candidateCount (heap s) l)
    ∧ ∀ suggestion others,
        Cell.getPossibleValues (deref (heap s) candidate) = suggestion :: others →
        (StronglySorted Z.le (suggestion :: others) →
         ∀ v, v ∈ suggestion :: others → (suggestion ≤ v)%Z)
        ∧ ∃ row col,
            row < 9 ∧ col < 9 ∧ candidate = getCell s row col
            ∧ guess s false
              = Ok (mkSudoku (update (Cell.fill suggestion) candidate h')
                      (cells s) (timeoutMs s) (running s) (paused s)
                      (mkSuggestion copy row col suggestion :: suggestions s)
                      ((Info, MsgSuggest row col suggestion) :: notifications s),
                    true)
            ∧ (∀ r c, r < 9 → c < 9 →
                 Cell.content (deref (update (Cell.fill suggestion) candidate h')
                                     (cellAt (snap_cells copy) r c))
                 = Cell.content (deref (heap s) (getCell s r c)))
            ∧ deref (update (Cell.fill suggestion) candidate h') candidate
              = Cell.fill suggestion (deref (heap s) candidate)
            ∧ (∀ l, l ∈ allCells (cells s) → l ≠ candidate →
                 deref (update (Cell.fill suggestion) candidate h') l
                 = deref (heap s) l).
Proof.
  intros Hwf Ha Hidx Hs E.
  destruct (unfilledCells s) as [|first rest] eqn:Hun;
    [by apply solved_false_unfilled in Hs|].
  destruct (fewer_fold (heap s) first rest) as (before & after & Heq & Hb & Hafter).
  set (candidate := foldl (fewer (heap s)) first rest) in *.
  exists candidate, before, after.
  split; [by apply suggestionCandidate_unfold|].
  split; [done|]. split; [done|]. split; [done|].
  intros suggestion others Hp.
  split; [apply sorted_head_least|].
  assert (candidate ∈ allCells (cells s)) as Hin.
  { assert (candidate ∈ unfilledCells s) as Hc.
    { rewrite Hun, Heq. apply elem_of_app. right. left. }
    unfold unfilledCells in Hc. by apply list_elem_of_filter in Hc as [_ ?]. }
  destruct (grid_positions _ _ Hwf Hin) as (r & c & Hr & Hc & Hrc).
  destruct (Hidx r c Hr Hc) as [Hrow Hcol]. rewrite <- Hrc in Hrow, Hcol.
  destruct (clone_result s copy h' Hwf Ha E) as (Hcopy & Hlen & Hold & Hnew).
  assert (candidate < length (heap s)) as Hlt.
  { unfold allocated in Ha. rewrite Forall_forall in Ha. by apply Ha. }
  exists r, c. split; [done|]. split; [done|]. split; [done|].
  split; [|split; [|split]].
  - rewrite (guess_unfold s candidate suggestion others copy h' Hs
               (suggestionCandidate_unfold s first rest Hun) Hp E).
    by rewrite Hrow, Hcol.
  - intros r' c' Hr' Hc'. rewrite deref_update_ne.
    + rewrite Hnew by done. destruct (Hidx r' c' Hr' Hc') as [Hrow' Hcol'].
      unfold Cell.content, copyOf, getCell. simpl.
      unfold Cell.getRowIndex, Cell.getColumnIndex in Hrow', Hcol'.
      by rewrite Hrow', Hcol'.
    + assert (cellAt (snap_cells copy) r' c' ∈ mjoin (snap_cells copy)) as Hfresh.
      { apply cell_in_grid; [|done..]. subst copy. apply fieldAt_wf. }
      subst copy. apply fieldAt_fresh in Hfresh. lia.
  - rewrite deref_update by lia. rewrite decide_True by done.
    f_equal. apply deref_lookup. by apply Hold.
  - intros l Hl Hne. rewrite deref_update_ne by done.
    apply deref_lookup, Hold.
    unfold allocated in Ha. rewrite Forall_forall in Ha. by apply Ha.
Qed.

Lemma positions_elem r c : r < 9 → c < 9 → (r, c) ∈ positions.
Proof. intros Hr Hc. each_index r Hr; each_index c Hc; find_elem. Qed.

Lemma indexed_decide h g :
  bool_decide
    (Forall (λ rc, Cell.getRowIndex (deref h (cellAt g (fst rc) (snd rc))) = fst rc
                   ∧ Cell.getColumnIndex (deref h (cellAt g (fst rc) (snd rc))) = snd rc)
            positions) = true →
  indexed h g.
Proof.
  intros Hall%bool_decide_eq_true_1 r c Hr Hc.
  rewrite Forall_forall in Hall. apply (Hall (r, c)). by apply positions_elem.
Qed.

Lemma guess_takes_last_minimal_witness :
  ∃ candidate before after,
    suggestionCandidate rectangle = Some candidate
    ∧ unfilledCells rectangle = before ++ candidate :: after
    ∧ (∀ l, l ∈ before →
            candidateCount (heap rectangle) candidate ≤ candidateCount (heap rectangle) l)
    ∧ (∀ l, l ∈ after →
            candidateCount (heap rectangle) candidate < candidateCount (heap rectangle) l).
Proof.
  destruct (guess_takes_last_minimal rectangle
              (fst (clone rectangle)) (snd (clone rectangle)))
    as (candidate & before & after & H1 & H2 & H3 & H4 & _).
  - apply wf_grid_decide. vm_compute. reflexivity.
  - apply allocated_decide. vm_compute. reflexivity.
  - apply indexed_decide. vm_compute. reflexivity.
  - vm_compute. reflexivity.
  - apply surjective_pairing.
  - exists candidate, before, after. repeat split; assumption.
Defined.

(** C3, as stated, fails: on the board [rectangle] the four unfilled cells
    (0,1), (0,8), (1,1), (1,8) all have two candidates; the first of them in
    row-major order is (0,1), the engine guesses on (1,8). *)
Lemma guess_not_first_minimal :
  solved rectangle = false
  ∧ firstMinimal (heap rectangle) (unfilledCells rectangle)
    = Some (getCell rectangle 0 1)
  ∧ suggestionCandidate rectangle = Some (getCell rectangle 1 8)
  ∧ match guess rectangle false with
    | Ok (s', _) => (λ g, (row g, col g, number g)) <$> head (suggestions s')
    | Stuck _ => None
    end = Some (1, 8, 4%Z)
  ∧ suggestionCandidate rectangle
    ≠ firstMinimal (heap rectangle) (unfilledCells rectangle).
Proof. vm_compute. repeat split; congruence. Qed.

(** The guess leaves the engine in a state that meets the conditions under
    which the rollback is characterised below: the snapshot it pushes is a
    9x9 grid of allocated cells, none of which is a cell of the live board,
    and the position it records is that of a cell of the board that had no
    value. *)
Lemma guess_prepares_rollback s s' hasChanges' :
  wf_grid (cells s) → allocated (heap s) (cells s) → indexed (heap s) (cells s) →
  solved s = false →
  guess s false = Ok (s', hasChanges') →
  ∃ g, suggestions s' = g :: suggestions s
       ∧ cells s' = cells s
       ∧ wf_grid (snap_cells (snapshot g))
       ∧ allocated (heap s') (snap_cells (snapshot g))
       ∧ (∀ l, l ∈ allCells (snap_cells (snapshot g)) → l ∉ allCells (cells s'))
       ∧ row g < 9 ∧ col g < 9
       ∧ getCell s' (row g) (col g) ∈ unfilledCells s.
Proof.
  intros Hwf Ha Hidx Hs Hg.
  destruct (unfilledCells s) as [|first rest] eqn:Hun;
    [by apply solved_false_unfilled in Hs|].
  pose proof (suggestionCandidate_unfold s first rest Hun) as Hcand.
  set (candidate := foldl (fewer (heap s)) first rest) in *.
  assert (candidate ∈ unfilledCells s) as Hin.
  { destruct (fewer_fold (heap s) first rest) as (before & after & Heq & _).
    rewrite Hun, Heq. apply elem_of_app. right. left. }
  assert (candidate ∈ allCells (cells s)) as Hgrid.
  { unfold unfilledCells in Hin. by apply list_elem_of_filter in Hin as [_ ?]. }
  destruct (grid_positions _ _ Hwf Hgrid) as (r & c & Hr & Hc & Hrc).
  destruct (Hidx r c Hr Hc) as [Hrow Hcol]. rewrite <- Hrc in Hrow, Hcol.
  destruct (Cell.getPossibleValues (deref (heap s) candidate))
    as [|suggestion others] eqn:Hp.
  { unfold guess in Hg. rewrite Hs, Hcand, Hp in Hg. done. }
  destruct (clone s) as [copy h'] eqn:E.
  rewrite (guess_unfold s candidate suggestion others copy h' Hs Hcand Hp E) in Hg.
  injection Hg as <- <-.
  destruct (clone_result s copy h' Hwf Ha E) as (Hcopy & Hlen & _ & _).
  eexists. split; [reflexivity|]. cbn [snapshot row col cells heap].
  split; [done|].
  assert (wf_grid (snap_cells copy)) as Hwfc by (subst copy; apply fieldAt_wf).
  assert (∀ l, l ∈ allCells (snap_cells copy) →
               length (heap s) ≤ l < length (heap s) + 81) as Hfresh.
  { intros l Hl. subst copy. by apply fieldAt_fresh. }
  split; [done|]. split; [|split; [|split; [|split]]].
  - unfold allocated. apply Forall_forall. intros l Hl%Hfresh.
    rewrite update_length. lia.
  - intros l Hl%Hfresh Hlive.
    unfold allocated in Ha. rewrite Forall_forall in Ha. apply Ha in Hlive. lia.
  - by rewrite Hrow.
  - by rewrite Hcol.
  - unfold getCell. cbn [cells]. rewrite Hrow, Hcol, <- Hrc. by rewrite Hun in Hin.
Qed.

(** ** Rollback *)

Lemma rollback_unfold s g rest :
  suggestions s = g :: rest →
  isValid (validate s) = false →
  rollback s
  = mkSudoku
      (update (Cell.setPossibleValues
                 (filter (λ v, v ≠ number g)
                    (Cell.getPossibleValues
                       (deref (heap (validate s))
                          (cellAt (snap_cells (snapshot g)) (row g) (col g))))))
              (cellAt (snap_cells (snapshot g)) (row g) (col g))
              (heap (validate s)))
      (snap_cells (snapshot g)) (timeoutMs s) (running s) (paused s) rest
      ((Info, MsgRestore) :: notifications s).
Proof.
  intros Hstack Hinvalid. unfold rollback.
  rewrite Hstack. cbn [length]. rewrite bool_decide_eq_true_2 by lia.
  rewrite Hinvalid. cbn [negb].
  assert (suggestions (validate s) = g :: rest) as -> by done.
  reflexivity.
Qed.

Lemma validate_frame_deref s l :
  wf_grid (cells s) → l ∉ allCells (cells s) →
  deref (heap (validate s)) l = deref (heap s) l.
Proof. intros Hwf Hl. apply deref_lookup. by apply validateStore_frame. Qed.

Lemma cellAt_inj g r c r' c' :
  wf_grid g → r < 9 → c < 9 → r' < 9 → c' < 9 →
  cellAt g r c = cellAt g r' c' → r = r' ∧ c = c'.
Proof.
  intros Hwf Hr Hc Hr' Hc' Heq.
  assert (9 * r + c < 81) as H1 by lia.
  assert (9 * r' + c' < 81) as H2 by lia.
  pose proof (grid_flat_index g _ Hwf H1) as E1.
  pose proof (grid_flat_index g _ Hwf H2) as E2.
  replace ((9 * r + c) / 9) with r in E1 by (apply Nat.div_unique with c; lia).
  replace ((9 * r + c) mod 9) with c in E1 by (apply Nat.mod_unique with r; lia).
  replace ((9 * r' + c') / 9) with r' in E2 by (apply Nat.div_unique with c'; lia).
  replace ((9 * r' + c') mod 9) with c' in E2 by (apply Nat.mod_unique with r'; lia).
  rewrite <- Heq in E2.
  pose proof (NoDup_lookup _ _ _ _ (wf_grid_NoDup g Hwf) E1 E2). lia.
Qed.

(** C1: when the board is invalid after a pass and the stack is not empty,
    the engine pops the most recent hypothesis; afterwards the live grid is
    the grid of the snapshot of that hypothesis, every cell of it is as the
    snapshot holds it, except that the guessed value has been filtered out
    of the candidates of the cell at the guessed position. *)
Theorem rollback_restores_snapshot (s : ClassicSudoku) (g : Suggestion)
    (rest : list Suggestion) :
  wf_grid (cells s) →
  wf_grid (snap_cells (snapshot g)) →
  allocated (heap s) (snap_cells (snapshot g)) →
  (∀ l, l ∈ allCells (snap_cells (snapshot g)) → l ∉ allCells (cells s)) →
  row g < 9 → col g < 9 →
  suggestions s = g :: rest →
  isValid (validate s) = false →
  suggestions (rollback s) = rest
  ∧ cells (rollback s) = snap_cells (snapshot g)
  ∧ (∀ r c, r < 9 → c < 9 → (r, c) ≠ (row g, col g) →
       deref (heap (rollback s)) (getCell (rollback s) r c)
       = deref (heap s) (cellAt (snap_cells (snapshot g)) r c))
  ∧ deref (heap (rollback s)) (getCell (rollback s) (row g) (col g))
    = Cell.setPossibleValues
        (filter (λ v, v ≠ number g)
           (Cell.getPossibleValues
              (deref (heap s) (cellAt (snap_cells (snapshot g)) (row g) (col g)))))
        (deref (heap s) (cellAt (snap_cells (snapshot g)) (row g) (col g)))
  ∧ (number g ∉ Cell.getPossibleValues
                  (deref (heap (rollback s)) (getCell (rollback s) (row g) (col g))))
  ∧ notifications (rollback s) = (Info, MsgRestore) :: notifications s
  ∧ timeoutMs (rollback s) = timeoutMs s
  ∧ running (rollback s) = running s
  ∧ paused (rollback s) = paused s.
Proof.
  intros Hwf Hwfs Ha Hsep Hr Hc Hstack Hinvalid.
  rewrite (rollback_unfold s g rest Hstack Hinvalid).
  unfold getCell. cbn [heap cells suggestions notifications timeoutMs running paused].
  set (target := cellAt (snap_cells (snapshot g)) (row g) (col g)).
  assert (∀ r c, r < 9 → c < 9 →
            deref (heap (validate s)) (cellAt (snap_cells (snapshot g)) r c)
            = deref (heap s) (cellAt (snap_cells (snapshot g)) r c)) as Hkept.
  { intros r c Hr' Hc'. apply validate_frame_deref; [done|].
    apply Hsep. by apply cell_in_grid. }
  assert (target < length (heap (validate s))) as Hlt.
  { change (heap (validate s)) with (validateStore (cells s) (heap s)).
    destruct (validateStore_same_content (cells s) (heap s)) as [<- _].
    unfold allocated in Ha. rewrite Forall_forall in Ha.
    apply Ha. by apply cell_in_grid. }
  assert (deref (update (Cell.setPossibleValues
                   (filter (λ v, v ≠ number g)
                      (Cell.getPossibleValues (deref (heap (validate s)) target))))
                 target (heap (validate s))) target
          = Cell.setPossibleValues
              (filter (λ v, v ≠ number g)
                 (Cell.getPossibleValues (deref (heap s) target)))
              (deref (heap s) target)) as Htarget.
  { rewrite deref_update by done. rewrite decide_True by done.
    unfold target. by rewrite Hkept. }
  split; [done|]. split; [done|]. split; [|split; [|split]].
  - intros r c Hr' Hc' Hne. rewrite deref_update_ne.
    + by apply Hkept.
    + intros Heq. apply Hne.
      destruct (cellAt_inj _ _ _ _ _ Hwfs Hr Hc Hr' Hc' Heq). congruence.
  - exact Htarget.
  - rewrite Htarget. simpl. intros Hin%list_elem_of_filter. by destruct Hin.
  - done.
Qed.

Lemma separate_decide (ls ks : list loc) :
  bool_decide (Forall (λ l, l ∉ ks) ls) = true → ∀ l, l ∈ ls → l ∉ ks.
Proof. intros Hall%bool_decide_eq_true_1. by rewrite Forall_forall in Hall. Qed.

Lemma rollback_restores_snapshot_witness :
  suggestions (rollback wrongGuess) = []
  ∧ cells (rollback wrongGuess) = snap_cells (snapshot wrongGuessTop)
  ∧ (2%Z ∉ Cell.getPossibleValues
             (deref (heap (rollback wrongGuess)) (getCell (rollback wrongGuess) 0 1))).
Proof.
  destruct (rollback_restores_snapshot wrongGuess wrongGuessTop [])
    as (H1 & H2 & _ & _ & H5 & _).
  - apply wf_grid_decide. vm_compute. reflexivity.
  - apply wf_grid_decide. vm_compute. reflexivity.
  - apply allocated_decide. vm_compute. reflexivity.
  - apply separate_decide. vm_compute. reflexivity.
  - vm_compute. lia.
  - vm_compute. lia.
  - vm_compute. reflexivity.
  - vm_compute. reflexivity.
  - split; [exact H1|]. split; [exact H2|exact H5].
Defined.

(** The round trip on [stale]: the guess 2 at (0,1) clashes with (0,0); after
    the rollback every cell has the content it had before the guess, but for
    the candidates of (0,1), from which 2 is gone. *)
Example rollback_round_trip :
  Forall (λ rc,
            Cell.content (deref (heap (rollback wrongGuess))
                                (getCell (rollback wrongGuess) (fst rc) (snd rc)))
            = Cell.content
                ((if bool_decide (rc = (0, 1)) then Cell.setPossibleValues [4%Z] else id)
                   (deref (heap stale) (getCell stale (fst rc) (snd rc)))))
         positions.
Proof. apply (bool_decide_unpack _). vm_compute. exact I. Qed.

(** ** Propagation *)

Lemma eliminate_absent v c : v ∉ Cell.getPossibleValues (eliminate v c).
Proof.
  unfold eliminate. case_bool_decide as Hin; [|done].
  destruct (filter _ _) as [|w [|w' ws]] eqn:Hf.
  - simpl. apply not_elem_of_nil.
  - simpl. apply not_elem_of_nil.
  - simpl. rewrite <- Hf. intros Hv%list_elem_of_filter. by destruct Hv.
Qed.

Lemma eliminate_idem v c : eliminate v (eliminate v c) = eliminate v c.
Proof.
  unfold eliminate at 1. rewrite bool_decide_eq_false_2; [done|].
  apply eliminate_absent.
Qed.

Lemma eliminate_keeps_filled v c :
  Cell.hasValue c = true → Cell.hasValue (eliminate v c) = true.
Proof.
  intros Hc. unfold eliminate. case_bool_decide; [|done].
  by destruct (filter _ _) as [|w [|w' ws]].
Qed.

Lemma NoDup_join_elem {A} (xss : list (list A)) xs :
  NoDup (mjoin xss) → xs ∈ xss → NoDup xs.
Proof.
  induction xss as [|ys xss IH]; intros Hnd Hin; [by apply elem_of_nil in Hin|].
  simpl in Hnd. apply NoDup_app in Hnd as (Hys & _ & Hrest).
  apply elem_of_cons in Hin as [->|Hin]; [done|by apply IH].
Qed.

Lemma eliminate_default v : eliminate v inhabitant = inhabitant.
Proof.
  unfold eliminate. rewrite bool_decide_eq_false_2; [done|]. apply not_elem_of_nil.
Qed.

(** The loop of eliminations, whatever the list of cells: a cell of the
    list undergoes the elimination (once is as good as twice), any other
    cell is left alone. *)
Lemma eliminations_deref v (xs : list loc) (h : Store) l :
  deref (forEach (update (eliminate v)) xs h) l
  = if decide (l ∈ xs) then eliminate v (deref h l) else deref h l.
Proof.
  revert h. induction xs as [|x xs IH]; intros h.
  - rewrite forEach_nil. by rewrite decide_False by apply not_elem_of_nil.
  - rewrite forEach_cons, IH.
    assert (deref (update (eliminate v) x h) l
            = if decide (x = l) then eliminate v (deref h l) else deref h l) as ->.
    { destruct (decide (x < length h)) as [Hlt|Hge]; [apply deref_update; exact Hlt|].
      rewrite update_beyond by lia. destruct (decide (x = l)) as [Heq|?]; [|done]. subst x.
      unfold deref. rewrite (list_lookup_total_alt h l), lookup_ge_None_2 by lia.
      simpl. by rewrite eliminate_default. }
    destruct (decide (x = l)) as [->|Hne].
    + rewrite (decide_True (P := l ∈ l :: xs)) by left.
      case_decide; by rewrite ?eliminate_idem.
    + destruct (decide (l ∈ xs)) as [Hin|Hout].
      * by rewrite decide_True by (by right).
      * rewrite decide_False; [done|]. intros [?|?]%elem_of_cons; congruence.
Qed.

Lemma removeFromPossibleValues_cell v range h l :
  deref (removeFromPossibleValues v range h) l
  = if decide (l ∈ range ∧ Cell.hasValue (deref h l) = false)
    then eliminate v (deref h l) else deref h l.
Proof.
  unfold removeFromPossibleValues. rewrite eliminations_deref.
  destruct (decide (l ∈ range ∧ Cell.hasValue (deref h l) = false)) as [[H1 H2]|Hn].
  - rewrite decide_True; [done|]. by apply list_elem_of_filter.
  - rewrite decide_False; [done|]. intros [? ?]%list_elem_of_filter. by apply Hn.
Qed.

Lemma removeFromPossibleValues_length v range h :
  length (removeFromPossibleValues v range h) = length h.
Proof.
  unfold removeFromPossibleValues.
  apply (forEach_update_length id (λ _ _, eliminate v)).
Qed.

Lemma store_ext (h h' : Store) :
  length h = length h' → (∀ l, deref h l = deref h' l) → h = h'.
Proof.
  intros Hlen Hall. apply list_eq. intros i.
  destruct (decide (i < length h)) as [Hlt|Hge].
  - rewrite !list_lookup_lookup_total_lt by lia. f_equal. apply Hall.
  - by rewrite !lookup_ge_None_2 by lia.
Qed.

Lemma applyStrategies_snoc strategies strategy cell row column square h :
  applyStrategies (strategies ++ [strategy]) cell row column square h
  = (fst (applyStrategies strategies cell row column square h)
     || fst (strategy cell row column square
               (snd (applyStrategies strategies cell row column square h))),
     snd (strategy cell row column square
            (snd (applyStrategies strategies cell row column square h)))).
Proof.
  unfold applyStrategies. rewrite foldl_app. simpl.
  by destruct (strategy cell row column square _).
Qed.

(** *** Calls that are carried out one elimination at a time *)

Lemma update_eliminate_skip v c (h : Store) :
  v ∉ Cell.getPossibleValues (deref h c) → update (eliminate v) c h = h.
Proof.
  intros Hv. destruct (decide (c < length h)) as [Hlt|Hge].
  - apply update_fixed; [|done]. unfold eliminate. by rewrite bool_decide_eq_false_2.
  - apply update_beyond. lia.
Qed.

(** Where a step of a call stops: at the first cell still to come whose
    candidates hold the value; the cells before it are passed over. *)
Lemma eliminateNext_spec v cells h next h' :
  eliminateNext v cells h = (next, h') →
  (next = None ∧ h' = h
   ∧ Forall (λ c, v ∉ Cell.getPossibleValues (deref h c)) cells)
  ∨ (∃ before c after,
       cells = before ++ c :: after
       ∧ Forall (λ c, v ∉ Cell.getPossibleValues (deref h c)) before
       ∧ v ∈ Cell.getPossibleValues (deref h c)
       ∧ next = Some (mkCall v after)
       ∧ h' = update (eliminate v) c h).
Proof.
  induction cells as [|c cells IH]; cbn [eliminateNext].
  - intros [= <- <-]. left. by split_and!.
  - case_bool_decide as Hc.
    + intros [= <- <-]. right. exists [], c, cells. by split_and!.
    + intros Hrest. destruct (IH Hrest) as [(-> & -> & Hall)|(before & d & after & -> & Hb & Hd & -> & ->)].
      * left. split_and!; [done..|]. by apply Forall_cons.
      * right. exists (c :: before), d, after. split_and!; [done| |done..].
        by apply Forall_cons.
Qed.

(** A step does not change what the eliminations still to come amount to. *)
Lemma eliminateNext_rest v cells h next h' :
  eliminateNext v cells h = (next, h') →
  forEach (update (eliminate v)) (from_option call_rest [] next) h'
  = forEach (update (eliminate v)) cells h.
Proof.
  revert h. induction cells as [|c cells IH]; intros h; cbn [eliminateNext].
  - by intros [= <- <-].
  - case_bool_decide as Hc.
    + by intros [= <- <-].
    + intros Hrest. rewrite forEach_cons, update_eliminate_skip by done. by apply IH.
Qed.

(** A call that is started and then carried through, with nothing else
    written in between, has the whole effect of the call. *)
Lemma startRemoval_whole v range h next h' :
  startRemoval v range h = (next, h') →
  forEach (update (eliminate v)) (from_option call_rest [] next) h'
  = removeFromPossibleValues v range h.
Proof. apply eliminateNext_rest. Qed.

Lemma eliminate_unfilled v c :
  Cell.hasValue (eliminate v c) = false → Cell.hasValue c = false.
Proof.
  intros H. destruct (Cell.hasValue c) eqn:Hc; [|done].
  by rewrite eliminate_keeps_filled in H.
Qed.

Lemma eliminate_candidates v c :
  Cell.getPossibleValues (eliminate v c) ⊆ Cell.getPossibleValues c.
Proof.
  unfold eliminate. case_bool_decide; [|done].
  destruct (filter _ _) as [|w [|w' ws]] eqn:Hf; simpl.
  - apply list_subseteq_nil.
  - apply list_subseteq_nil.
  - rewrite <- Hf. intros x Hx%list_elem_of_filter. by destruct Hx.
Qed.

Lemma eliminations_length v xs (h : Store) :
  length (forEach (update (eliminate v)) xs h) = length h.
Proof. apply (forEach_update_length id (λ _ _, eliminate v)). Qed.

(** What a call does before the caller goes on: at most one cell, a cell of
    the range without a value, undergoes the elimination; the cells left to
    the suspended call are cells of the range without a value too; and a
    cell of the range without a value that holds the value as a candidate is
    the cell dealt with or is left to the suspended call. *)
Lemma startRemoval_spec v range h next h' :
  startRemoval v range h = (next, h') →
  ∃ touched,
    length touched ≤ 1
    ∧ h' = forEach (update (eliminate v)) touched h
    ∧ Forall (λ call, call_value call = v) (option_list next)
    ∧ (∀ l, l ∈ touched ++ from_option call_rest [] next →
            l ∈ range ∧ Cell.hasValue (deref h l) = false)
    ∧ (∀ l, l ∈ range → Cell.hasValue (deref h l) = false →
            v ∈ Cell.getPossibleValues (deref h l) →
            l ∈ touched ++ from_option call_rest [] next).
Proof.
  unfold startRemoval. intros Hstep.
  destruct (eliminateNext_spec _ _ _ _ _ Hstep)
    as [(-> & -> & Hall)|(before & c & after & Hcells & Hb & Hc & -> & ->)].
  - exists []. split; [simpl; lia|]. split; [done|]. split; [apply Forall_nil_2|].
    split; [intros l Hl; by apply elem_of_nil in Hl|].
    intros l Hl Hun Hv. rewrite Forall_forall in Hall.
    destruct (Hall l); [by apply list_elem_of_filter|done].
  - exists [c]. split; [simpl; lia|]. split; [done|].
    split; [by apply Forall_singleton|]. split.
    + intros l Hl.
      assert (l ∈ filter (λ c, Cell.hasValue (deref h c) = false) range) as Hin.
      { rewrite Hcells. simpl in Hl. apply elem_of_app. right. exact Hl. }
      apply list_elem_of_filter in Hin as [? ?]. by split.
    + intros l Hl Hun Hv.
      assert (l ∈ before ++ c :: after) as Hin
        by (rewrite <- Hcells; by apply list_elem_of_filter).
      apply elem_of_app in Hin as [Hin|Hin]; [|exact Hin].
      rewrite Forall_forall in Hb. by destruct (Hb l Hin).
Qed.

(** The three awaited calls, cell by cell. *)
Lemma three_calls_deref v row column square h l :
  deref (removeFromPossibleValues v square
           (removeFromPossibleValues v column (removeFromPossibleValues v row h))) l
  = if decide ((l ∈ row ∨ l ∈ column ∨ l ∈ square)
               ∧ Cell.hasValue (deref h l) = false)
    then eliminate v (deref h l) else deref h l.
Proof.
  rewrite !removeFromPossibleValues_cell.
  destruct (Cell.hasValue (deref h l)) eqn:Hl.
  - rewrite (decide_False (P := (l ∈ row ∧ true = false))) by (intuition congruence).
    rewrite Hl.
    rewrite (decide_False (P := (l ∈ column ∧ true = false))) by (intuition congruence).
    rewrite Hl.
    rewrite (decide_False (P := (l ∈ square ∧ true = false))) by (intuition congruence).
    by rewrite decide_False by (intuition congruence).
  - destruct (decide (l ∈ row)) as [Hrow|Hrow].
    + rewrite (decide_True (P := (l ∈ row ∧ false = false))) by done.
      rewrite (decide_True (P := ((l ∈ row ∨ l ∈ column ∨ l ∈ square) ∧ false = false)))
        by (intuition congruence).
      repeat case_decide; by rewrite ?eliminate_idem.
    + rewrite (decide_False (P := (l ∈ row ∧ false = false))) by (intuition congruence).
      rewrite Hl.
      destruct (decide (l ∈ column)) as [Hcol|Hcol].
      * rewrite (decide_True (P := (l ∈ column ∧ false = false))) by done.
        rewrite (decide_True (P := ((l ∈ row ∨ l ∈ column ∨ l ∈ square) ∧ false = false)))
          by (intuition congruence).
        repeat case_decide; by rewrite ?eliminate_idem.
      * rewrite (decide_False (P := (l ∈ column ∧ false = false))) by (intuition congruence).
        rewrite Hl.
        destruct (decide (l ∈ square)) as [Hsq|Hsq].
        -- rewrite (decide_True (P := (l ∈ square ∧ false = false))) by done.
           by rewrite decide_True by (intuition congruence).
        -- rewrite (decide_False (P := (l ∈ square ∧ false = false))) by (intuition congruence).
           by rewrite decide_False by (intuition congruence).
Qed.

(** Carrying the suspended calls through, one after the other. *)
Lemma carry_through v (calls : list Call) (h : Store) :
  foldl (λ h call, forEach (update (eliminate v)) (call_rest call) h) h calls
  = forEach (update (eliminate v)) (calls ≫= call_rest) h.
Proof.
  revert h. induction calls as [|call calls IH]; intros h; [done|].
  cbn [foldl]. rewrite IH, bind_cons. by rewrite forEach_app.
Qed.

Lemma option_list_rest (next : option Call) :
  option_list next ≫= call_rest = from_option call_rest [] next.
Proof. destruct next; simpl; [by rewrite app_nil_r|done]. Qed.

Lemma eliminations_unfilled v xs (h : Store) l :
  Cell.hasValue (deref (forEach (update (eliminate v)) xs h) l) = false →
  Cell.hasValue (deref h l) = false.
Proof.
  rewrite eliminations_deref. case_decide; [apply eliminate_unfilled|done].
Qed.

(** Lines 119-121 together. *)
Lemma propagate_spec cell row column square h h' v calls :
  Cell.getValue (deref h cell) = Some v →
  propagate cell row column square h = (calls, h') →
  ∃ touched,
    length touched ≤ 3 ∧ length calls ≤ 3
    ∧ Forall (λ call, call_value call = v) calls
    ∧ h' = forEach (update (eliminate v)) touched h
    ∧ (∀ l, l ∈ touched ++ (calls ≫= call_rest) →
            (l ∈ row ∨ l ∈ column ∨ l ∈ square) ∧ Cell.hasValue (deref h l) = false)
    ∧ (∀ l, l ∈ row ∨ l ∈ column ∨ l ∈ square →
            Cell.hasValue (deref h l) = false →
            v ∈ Cell.getPossibleValues (deref h l) →
            l ∈ touched ++ (calls ≫= call_rest)).
Proof.
  intros Hv. unfold propagate. rewrite Hv.
  destruct (startRemoval v row h) as [o1 h1] eqn:E1.
  destruct (startRemoval v column h1) as [o2 h2] eqn:E2.
  destruct (startRemoval v square h2) as [o3 h3] eqn:E3.
  intros [= <- <-].
  destruct (startRemoval_spec _ _ _ _ _ E1) as (t1 & L1 & -> & V1 & S1 & C1).
  destruct (startRemoval_spec _ _ _ _ _ E2) as (t2 & L2 & -> & V2 & S2 & C2).
  destruct (startRemoval_spec _ _ _ _ _ E3) as (t3 & L3 & -> & V3 & S3 & C3).
  exists (t1 ++ t2 ++ t3).
  assert (∀ o : option Call, length (option_list o) ≤ 1) as Hopt
    by (intros [?|]; simpl; lia).
  rewrite !bind_app, !option_list_rest.
  split; [rewrite !length_app; lia|].
  split; [rewrite !length_app; pose proof (Hopt o1); pose proof (Hopt o2);
          pose proof (Hopt o3); lia|].
  split; [by rewrite !Forall_app|].
  split; [by rewrite !forEach_app|].
  split.
  - intros l Hl. rewrite !elem_of_app in Hl.
    destruct Hl as [[Hl|[Hl|Hl]]|[Hl|[Hl|Hl]]].
    + destruct (S1 l) as [? ?]; [apply elem_of_app; by left|]. by split; [left|].
    + destruct (S2 l) as [? Hun]; [apply elem_of_app; by left|].
      apply eliminations_unfilled in Hun. by split; [right; left|].
    + destruct (S3 l) as [? Hun]; [apply elem_of_app; by left|].
      do 2 apply eliminations_unfilled in Hun. by split; [right; right|].
    + destruct (S1 l) as [? ?]; [apply elem_of_app; by right|]. by split; [left|].
    + destruct (S2 l) as [? Hun]; [apply elem_of_app; by right|].
      apply eliminations_unfilled in Hun. by split; [right; left|].
    + destruct (S3 l) as [? Hun]; [apply elem_of_app; by right|].
      do 2 apply eliminations_unfilled in Hun. by split; [right; right|].
  - intros l Hl Hun Hcand. rewrite !elem_of_app.
    destruct (decide (l ∈ t1)) as [?|N1]; [by left; left|].
    destruct (decide (l ∈ t2)) as [?|N2]; [by left; right; left|].
    assert (deref (forEach (update (eliminate v)) t1 h) l = deref h l) as H1
      by (by rewrite eliminations_deref, decide_False).
    assert (deref (forEach (update (eliminate v)) t2
                     (forEach (update (eliminate v)) t1 h)) l = deref h l) as H2
      by (by rewrite eliminations_deref, decide_False).
    destruct Hl as [Hl|[Hl|Hl]].
    + apply C1, elem_of_app in Hl as [?|?]; [by left; left|by right; left|done..].
    + apply C2, elem_of_app in Hl as [?|?];
        [by left; right; left|by right; right; left|by rewrite H1..].
    + apply C3, elem_of_app in Hl as [?|?];
        [by left; right; right|by right; right; right|by rewrite H2..].
Qed.

Lemma autoFill_flag cell h :
  fst (autoFill cell h) = true
  ↔ length (Cell.getPossibleValues (deref h cell)) = 1.
Proof.
  unfold autoFill. destruct (Cell.getPossibleValues _) as [|v [|w vs]]; simpl; split; done.
Qed.

(** Lines 106-127: the flag an iteration of the cell loop hands on. *)
Lemma visitCell_flag strategies columns r c run hasChanges :
  ∃ h0, snd (visitCell strategies columns r c run hasChanges)
        = hasChanges
          || fst (autoFill (cellAt (cells (engine run)) r c) (heap (engine run)))
          || fst (applyStrategies strategies (cellAt (cells (engine run)) r c)
                    (cells (engine run) !!! r) (columns !!! c)
                    (squareOf (cells (engine run)) r c) h0).
Proof.
  unfold visitCell.
  destruct (autoFill _ _) as [filled h1].
  set (run1 := if filled then yield _ else run).
  assert (cells (engine run1) = cells (engine run)) as Hcells.
  { unfold run1. destruct filled; [|done]. unfold yield, setEngine. cbn [schedule].
    destruct (schedule run) as [|order later]; [done|].
    cbn [suspended engine heap with_heap]. by destruct (resumeAll _ _ _). }
  exists (heap (engine run1)). rewrite Hcells.
  destruct (applyStrategies _ _ _ _ _ _) as [cellUpdated h2].
  destruct (if Cell.hasValue _ then _ else _) as [calls h3].
  reflexivity.
Qed.

(** C4 (amended): for the cell under visit that has a value [v] after the
    auto-fill and the strategies, three elimination calls are started, for
    its row, its column and its square, and none is awaited.  When the loop
    goes on, at most three cells, each a cell of these ranges without a
    value, have undergone the elimination and every other cell is as it
    was; at most three calls are left suspended, each for [v] and each
    holding cells of these ranges without a value; a cell of the ranges that
    has no value and still holds [v] is left to one of them; and carried
    through, with nothing else written in between, the suspended calls
    leave the board as the three calls awaited one after the other would:
    [v] eliminated from every cell of the ranges that had no value.  The
    eliminations do not enter [hasChanges]: an iteration hands on a set
    flag only if the flag was set before, the cell was filled on the spot,
    or a strategy reported an update. *)
Theorem propagation_is_deferred (cell : loc) (row column square : list loc)
    (h h' : Store) (v : Z) (calls : list Call) :
  Cell.getValue (deref h cell) = Some v →
  propagate cell row column square h = (calls, h') →
  (∃ touched,
     length touched ≤ 3
     ∧ (∀ l, l ∈ touched →
             (l ∈ row ∨ l ∈ column ∨ l ∈ square)
             ∧ Cell.hasValue (deref h l) = false)
     ∧ h' = forEach (update (eliminate v)) touched h)
  ∧ length calls ≤ 3
  ∧ Forall (λ call, call_value call = v
                    ∧ ∀ l, l ∈ call_rest call →
                           (l ∈ row ∨ l ∈ column ∨ l ∈ square)
                           ∧ Cell.hasValue (deref h l) = false) calls
  ∧ (∀ l, l ∈ row ∨ l ∈ column ∨ l ∈ square →
          Cell.hasValue (deref h' l) = false →
          v ∈ Cell.getPossibleValues (deref h' l) →
          ∃ call, call ∈ calls ∧ l ∈ call_rest call)
  ∧ foldl (λ h call, forEach (update (eliminate v)) (call_rest call) h) h' calls
    = removeFromPossibleValues v square
        (removeFromPossibleValues v column (removeFromPossibleValues v row h))
  ∧ (∀ strategies columns r c run hasChanges,
       snd (visitCell strategies columns r c run hasChanges) = true →
       hasChanges = true
       ∨ length (Cell.getPossibleValues
                   (deref (heap (engine run)) (cellAt (cells (engine run)) r c))) = 1
       ∨ ∃ h0, fst (applyStrategies strategies (cellAt (cells (engine run)) r c)
                      (cells (engine run) !!! r) (columns !!! c)
                      (squareOf (cells (engine run)) r c) h0) = true).
Proof.
  intros Hv Hp.
  destruct (propagate_spec _ _ _ _ _ _ _ _ Hv Hp)
    as (touched & Lt & Lc & Vc & -> & Sound & Complete).
  split; [|split; [exact Lc|split; [|split; [|split]]]].
  - exists touched. split; [exact Lt|]. split; [|done].
    intros l Hl. apply Sound, elem_of_app. by left.
  - rewrite Forall_forall in Vc. apply Forall_forall. intros call Hcall.
    split; [by apply Vc|]. intros l Hl. apply Sound, elem_of_app. right.
    apply list_elem_of_bind. by exists call.
  - intros l Hl Hun Hcand.
    assert (l ∉ touched) as Hnot.
    { intros Hin. rewrite eliminations_deref, decide_True in Hcand by done.
      by apply eliminate_absent in Hcand. }
    rewrite eliminations_deref, decide_False in Hun, Hcand by done.
    pose proof (Complete l Hl Hun Hcand) as Hin.
    apply elem_of_app in Hin as [?|Hin]; [done|].
    apply list_elem_of_bind in Hin as (call & ? & ?). by exists call.
  - rewrite carry_through, <- forEach_app.
    apply store_ext.
    { by rewrite eliminations_length, !removeFromPossibleValues_length. }
    intros l. rewrite eliminations_deref, three_calls_deref.
    destruct (decide (l ∈ touched ++ (calls ≫= call_rest))) as [Hin|Hout].
    + by rewrite decide_True by (by apply Sound).
    + case_decide as Hl; [|done]. destruct Hl as [Hl Hun].
      unfold eliminate. rewrite bool_decide_eq_false_2; [done|].
      intros Hcand. apply Hout. by apply Complete.
  - intros strategies columns r c run hasChanges Hflag.
    destruct (visitCell_flag strategies columns r c run hasChanges) as [h0 Heq].
    rewrite Heq in Hflag.
    apply orb_true_iff in Hflag as [Hflag|Hflag]; [|right; right; by exists h0].
    apply orb_true_iff in Hflag as [Hflag|Hflag]; [by left|].
    right. left. by apply autoFill_flag.
Qed.

(** *** Runs without suspended calls *)

Lemma with_heap_heap s : with_heap (heap s) s = s.
Proof. by destruct s. Qed.

Lemma resumeAll_nil order h : resumeAll order [] h = ([], h).
Proof. unfold resumeAll. induction order as [|i order IH]; [done|]. exact IH. Qed.

(** With no call suspended an [await] only uses up its entry of the
    schedule. *)
Lemma yield_idle s sched : yield (mkRun s [] sched) = mkRun s [] (tail sched).
Proof.
  destruct sched as [|order later]; [done|].
  unfold yield. cbn [schedule suspended engine]. rewrite resumeAll_nil.
  by rewrite with_heap_heap.
Qed.

Lemma autoFill_silent cell h : fst (autoFill cell h) = false → snd (autoFill cell h) = h.
Proof.
  unfold autoFill. by destruct (Cell.getPossibleValues _) as [|v [|w vs]].
Qed.

Lemma visitCell_idle strategies columns r c s sched hasChanges :
  visitCell strategies columns r c (mkRun s [] sched) hasChanges
  = let cell := cellAt (cells s) r c in
    let filled := autoFill cell (heap s) in
    let updated := applyStrategies strategies cell (cells s !!! r) (columns !!! c)
                     (squareOf (cells s) r c) (snd filled) in
    let started := if Cell.hasValue (deref (snd updated) cell)
                   then propagate cell (cells s !!! r) (columns !!! c)
                          (squareOf (cells s) r c) (snd updated)
                   else ([], snd updated) in
    let run := mkRun (with_heap (snd started) s) (fst started)
                 (if fst filled then tail sched else sched) in
    (if fst updated then yield (yield run) else run,
     hasChanges || fst filled || fst updated).
Proof.
  unfold visitCell. cbn [engine suspended schedule].
  pose proof (autoFill_silent (cellAt (cells s) r c) (heap s)) as Hsilent.
  destruct (autoFill _ _) as [[|] h1]; cbn [fst snd] in *.
  - unfold setEngine. cbn [engine suspended schedule]. rewrite yield_idle.
    cbn [engine suspended schedule cells heap with_heap].
    destruct (applyStrategies _ _ _ _ _ _) as [u h2]. cbn [fst snd].
    destruct (if Cell.hasValue _ then _ else _) as [calls h3]. cbn [fst snd].
    by destruct s.
  - rewrite Hsilent by done.
    destruct (applyStrategies _ _ _ _ _ _) as [u h2]. cbn [fst snd].
    by destruct (if Cell.hasValue _ then _ else _) as [calls h3].
Qed.

(** C4, as stated, fails: on [twoPeers] the visit of (0,1) fills the cell
    with its single candidate 4 and starts the three elimination calls; when
    the iteration is over, whatever the schedule, (0,8), a cell of the same
    row without a value, still holds 4 as a candidate: the call for the row
    has dealt with (0,4) and is suspended before it comes to (0,8). *)
Lemma propagation_not_complete :
  Cell.hasValue (deref (heap twoPeers) (getCell twoPeers 0 1)) = false
  ∧ getCell twoPeers 0 8 ∈ cells twoPeers !!! 0
  ∧ ∀ sched,
      let after :=
        fst (visitCell [bySinglePossibleValue] (getColumns (cells twoPeers)) 0 1
               (mkRun twoPeers [] sched) false) in
      Cell.getValue (deref (heap (engine after)) (getCell twoPeers 0 1)) = Some 4%Z
      ∧ Cell.hasValue (deref (heap (engine after)) (getCell twoPeers 0 8)) = false
      ∧ 4%Z ∈ Cell.getPossibleValues (deref (heap (engine after)) (getCell twoPeers 0 8))
      ∧ suspended after = [mkCall 4 [getCell twoPeers 0 8]].
Proof.
  split; [vm_compute; reflexivity|]. split.
  { vm_compute. do 8 apply list_elem_of_further. apply list_elem_of_here. }
  intros sched after. unfold after. rewrite visitCell_idle.
  split; [vm_compute; reflexivity|]. split; [vm_compute; reflexivity|].
  split; [|vm_compute; reflexivity].
  vm_compute. apply list_elem_of_here.
Qed.

Lemma propagation_is_deferred_witness :
  foldl (λ h call, forEach (update (eliminate 4)) (call_rest call) h)
        (snd (propagate (getCell twoPeers 0 1) (cells twoPeers !!! 0)
                (getColumns (cells twoPeers) !!! 1) (squareOf (cells twoPeers) 0 1)
                twoPeersFilled))
        (fst (propagate (getCell twoPeers 0 1) (cells twoPeers !!! 0)
                (getColumns (cells twoPeers) !!! 1) (squareOf (cells twoPeers) 0 1)
                twoPeersFilled))
  = removeFromPossibleValues 4 (squareOf (cells twoPeers) 0 1)
      (removeFromPossibleValues 4 (getColumns (cells twoPeers) !!! 1)
         (removeFromPossibleValues 4 (cells twoPeers !!! 0) twoPeersFilled)).
Proof.
  destruct (propagation_is_deferred (getCell twoPeers 0 1) (cells twoPeers !!! 0)
              (getColumns (cells twoPeers) !!! 1) (squareOf (cells twoPeers) 0 1)
              twoPeersFilled
              (snd (propagate (getCell twoPeers 0 1) (cells twoPeers !!! 0)
                      (getColumns (cells twoPeers) !!! 1) (squareOf (cells twoPeers) 0 1)
                      twoPeersFilled))
              4%Z
              (fst (propagate (getCell twoPeers 0 1) (cells twoPeers !!! 0)
                      (getColumns (cells twoPeers) !!! 1) (squareOf (cells twoPeers) 0 1)
                      twoPeersFilled)))
    as (_ & _ & _ & _ & H & _).
  - vm_compute. reflexivity.
  - apply surjective_pairing.
  - exact H.
Defined.

(** On [twoPeers], after the visit of (0,1): the elimination of 4 has
    reached (0,4) but not (0,8); carried through, the suspended call leaves
    (0,8) with the candidates 5 and 9. *)
Example propagation_reaches_first_peer :
  Cell.getPossibleValues
    (deref (snd (propagate (getCell twoPeers 0 1) (cells twoPeers !!! 0)
                   (getColumns (cells twoPeers) !!! 1) (squareOf (cells twoPeers) 0 1)
                   twoPeersFilled))
           (getCell twoPeers 0 4)) = [6; 7]%Z
  ∧ Cell.getPossibleValues
      (deref (removeFromPossibleValues 4 (cells twoPeers !!! 0) twoPeersFilled)
             (getCell twoPeers 0 8)) = [5; 9]%Z.
Proof. vm_compute. split; reflexivity. Qed.

(** ** The run *)

Lemma solve_invalid strategies squareIntersection fuel r :
  isValid (validate (with_running true (engine r))) = false →
  solve strategies squareIntersection fuel r
  = Ok (setEngine (notify Error MsgInvalidField (validate (with_running true (engine r)))) r,
        Pending).
Proof. intros Hinvalid. unfold solve. by rewrite Hinvalid. Qed.

Lemma solve_invalid_outcome strategies squareIntersection fuel s calls sched :
  isValid (validate (with_running true s)) = false →
  ∃ s', solve strategies squareIntersection fuel (mkRun s calls sched)
        = Ok (mkRun s' calls sched, Pending)
        ∧ notifications s' = (Error, MsgInvalidField) :: notifications s
        ∧ (∀ l, Cell.content (deref (heap s') l) = Cell.content (deref (heap s) l))
        ∧ cells s' = cells s
        ∧ isRunning s' = true.
Proof.
  intros Hinvalid. eexists. split; [by apply solve_invalid|].
  split; [reflexivity|]. split; [|split; reflexivity].
  intros l. symmetry. apply (validateStore_same_content (cells s) (heap s)).
Qed.

(** C2 (the code departs from it): on [twoFives], whose row 0 holds 5
    twice, [solve] reports the error and writes no value and no candidate
    set, but it returns early: the promise stays pending and [running], set
    at the start of the run, is still true, whatever the strategies, the
    calls still suspended and the schedule. *)
Theorem solve_invalid_input_stays_running (strategies : list SolveStrategy)
    (squareIntersection : SolveStrategy) (fuel : nat)
    (calls : list Call) (sched : list (list nat)) :
  isRunning twoFives = false
  ∧ ∃ s', solve strategies squareIntersection fuel (mkRun twoFives calls sched)
          = Ok (mkRun s' calls sched, Pending)
          ∧ notifications s' = (Error, MsgInvalidField) :: notifications twoFives
          ∧ (∀ l, Cell.content (deref (heap s') l)
                  = Cell.content (deref (heap twoFives) l))
          ∧ cells s' = cells twoFives
          ∧ isRunning s' = true.
Proof.
  split; [vm_compute; reflexivity|].
  apply solve_invalid_outcome. vm_compute. reflexivity.
Qed.

Lemma solveAsPossible_step strategies squareIntersection fuel r :
  solveAsPossible strategies squareIntersection (S fuel) r
  = bindR (pass strategies squareIntersection r)
      (λ x, if loopCondition (engine (fst x)) (snd x)
            then solveAsPossible strategies squareIntersection fuel (fst x)
            else Ok (fst x)).
Proof. reflexivity. Qed.

(** The loop is left only when its condition fails: the engine was
    stopped, the board is solved, or the last turn produced no change. *)
Lemma solveAsPossible_exit strategies squareIntersection fuel r r' :
  solveAsPossible strategies squareIntersection fuel r = Ok r' →
  ∃ r0 hasChanges,
    pass strategies squareIntersection r0 = Ok (r', hasChanges)
    ∧ (running (engine r') = false ∨ solved (engine r') = true ∨ hasChanges = false).
Proof.
  revert r. induction fuel as [|fuel IH]; intros r; [done|].
  rewrite solveAsPossible_step.
  destruct (pass strategies squareIntersection r) as [[r1 hc]|] eqn:Hpass; [|done].
  cbn [bindR fst snd]. destruct (loopCondition (engine r1) hc) eqn:Hcond.
  - apply IH.
  - intros [= <-]. exists r, hc. split; [done|].
    unfold loopCondition in Hcond.
    destruct (running (engine r1)); [|by left].
    destruct (solved (engine r1)); [by right; left|].
    destruct hc; [done|by right; right].
Qed.

(** At the guess, a turn without change on an unsolved board always ends as
    a changed turn when the guess goes through. *)
Lemma guess_changes s hasChanges s' hasChanges' :
  guess s hasChanges = Ok (s', hasChanges') →
  hasChanges' = true ∨ (solved s = true ∧ s' = s).
Proof.
  unfold guess. destruct hasChanges; cbn [negb andb].
  - intros [= <- <-]. by left.
  - destruct (solved s); cbn [negb andb].
    + intros [= <- <-]. by right.
    + destruct (suggestionCandidate s) as [candidate|]; [|done].
      destruct (Cell.getPossibleValues _) as [|v vs]; [done|].
      destruct (clone _) as [snap h]. intros [= <- <-]. by left.
Qed.

(** ** Rows, columns and squares of the grid *)

Lemma getColumns_shape (g : list (list loc)) :
  length (getColumns g) = 9 ∧ Forall (λ column, length column = length g) (getColumns g).
Proof.
  unfold getColumns, spec_length. split; [by rewrite length_fmap, length_seq|].
  apply Forall_fmap, Forall_forall. intros i _. simpl. by rewrite length_fmap.
Qed.

(** X1: [getColumns()] always answers nine columns, each as long as the
    grid has rows; on the 9x9 grid it is the transposition: the cell at
    [(r, c)] is the [r]-th cell of column [c], the columns form a 9x9 grid
    of the same distinct cells, and taking the columns twice gives the grid
    back. *)
Theorem getColumns_transposes (g : list (list loc)) :
  wf_grid g →
  length (getColumns g) = 9
  ∧ Forall (λ column, length column = length g) (getColumns g)
  ∧ wf_grid (getColumns g)
  ∧ (∀ r c, r < 9 → c < 9 → cellAt (getColumns g) c r = cellAt g r c)
  ∧ getColumns (getColumns g) = g.
Proof.
  intros Hwf. destruct (getColumns_shape g) as [Hlen Hall].
  split; [done|]. split; [done|]. split; [|split].
  - split; [done|]. split; [|by apply getColumns_NoDup].
    destruct Hwf as (Hg & _ & _). by rewrite Hg in Hall.
  - intros r c Hr Hc. clear Hlen Hall. explode_grid g Hwf.
    each_index r Hr; each_index c Hc; reflexivity.
  - clear Hlen Hall. explode_grid g Hwf. reflexivity.
Qed.

Lemma getColumns_transposes_witness :
  getColumns (getColumns indexGrid) = indexGrid.
Proof.
  apply (getColumns_transposes indexGrid).
  apply wf_grid_decide. vm_compute. reflexivity.
Defined.

(** X2: on the 9x9 grid the square around [(r, c)] is made of the nine
    cells of the rows [3 * (r / 3) ..+2] and the columns [3 * (c / 3) ..+2],
    row by row; it is the entry [3 * (r / 3) + c / 3] of [getSquares()]; and
    the nine squares together hold every cell of the grid exactly once. *)
Theorem getSquares_partition (g : list (list loc)) :
  wf_grid g →
  (∀ r c, r < 9 → c < 9 →
     squareOf g r c
     = (λ ij, cellAt g (3 * (r / 3) + fst ij) (3 * (c / 3) + snd ij)) <$> squareOffsets)
  ∧ (∀ r c, r < 9 → c < 9 → getSquares g !!! (3 * (r / 3) + c / 3) = squareOf g r c)
  ∧ length (getSquares g) = 9
  ∧ mjoin (getSquares g) ≡ₚ mjoin g.
Proof.
  intros Hwf. split; [|split; [|split]].
  - intros r c Hr Hc. explode_grid g Hwf.
    each_index r Hr; each_index c Hc; reflexivity.
  - intros r c Hr Hc. explode_grid g Hwf.
    each_index r Hr; each_index c Hc; reflexivity.
  - reflexivity.
  - by apply getSquares_perm.
Qed.

Lemma getSquares_partition_witness :
  mjoin (getSquares indexGrid) ≡ₚ mjoin indexGrid.
Proof.
  apply (getSquares_partition indexGrid).
  apply wf_grid_decide. vm_compute. reflexivity.
Defined.

Lemma getSquareIndexes_outside index :
  9 ≤ index → getSquareIndexes index = ((-1)%Z, (-1)%Z).
Proof.
  intros Hi. unfold getSquareIndexes.
  rewrite !bool_decide_eq_false_2; [done|..];
    intros Hin; repeat (apply elem_of_cons in Hin as [->|Hin]; [lia|]);
    by apply elem_of_nil in Hin.
Qed.

Lemma slice_last_to_first {A} (xs : list A) : slice (-1) (-1 + 1) xs = [].
Proof.
  unfold slice. change (-1 + 1)%Z with 0%Z.
  change (-1 <? 0)%Z with true. change (0 <? 0)%Z with false. cbv iota.
  match goal with |- take ?n _ = _ => replace n with 0 by lia end.
  done.
Qed.

Lemma join_empties {A B} (xs : list A) : mjoin ((λ _, @nil B) <$> xs) = [].
Proof. induction xs as [|x xs IH]; [done|]. simpl. exact IH. Qed.

(** X3: for an index outside 0..8 [getSquareIndexes] answers [(-1, -1)],
    and the two [slice(-1, 0)] that follow are empty: the square around a
    position off the board has no cell, whatever the grid. *)
Theorem getSquare_off_board (g : list (list loc)) (r c : nat) :
  9 ≤ r ∨ 9 ≤ c → squareOf g r c = [].
Proof.
  intros Hout. unfold squareOf, getSquare.
  destruct (decide (9 ≤ r)) as [Hr|Hr].
  - rewrite (getSquareIndexes_outside r Hr). cbn [fst snd].
    by rewrite slice_last_to_first.
  - assert (9 ≤ c) as Hc by lia.
    rewrite (getSquareIndexes_outside c Hc). cbn [fst snd].
    rewrite (list_fmap_ext _ (λ _, [])); [apply join_empties|].
    intros i row _. apply slice_last_to_first.
Qed.

Lemma getSquare_off_board_witness : squareOf indexGrid 9 0 = [].
Proof. apply getSquare_off_board. left. lia. Defined.

(** X4: [emptyField()] appends 81 cells to the store and leaves the
    objects already there alone; the grid it answers is 9x9, made of these
    new, distinct cells in row-major order, and the cell at [(r, c)] is
    [new Cell(r, c)]: no value, valid, and aware of its position. *)
Theorem emptyField_fresh_grid (h : Store) :
  wf_grid (fst (emptyField h))
  ∧ length (snd (emptyField h)) = length h + 81
  ∧ (∀ l, l < length h → snd (emptyField h) !! l = h !! l)
  ∧ (∀ l, l ∈ allCells (fst (emptyField h)) → length h ≤ l < length h + 81)
  ∧ (∀ r c, r < 9 → c < 9 →
       cellAt (fst (emptyField h)) r c = length h + (9 * r + c)
       ∧ deref (snd (emptyField h)) (cellAt (fst (emptyField h)) r c) = Cell.new r c)
  ∧ indexed (snd (emptyField h)) (fst (emptyField h)).
Proof.
  rewrite emptyField_spec. cbn [fst snd].
  assert (∀ r c, r < 9 → c < 9 →
            deref (h ++ freshCells) (cellAt (fieldAt (length h)) r c) = Cell.new r c)
    as Hnew.
  { intros r c Hr Hc. rewrite cellAt_fieldAt by done.
    unfold deref. apply list_lookup_total_correct.
    rewrite lookup_app_r by lia.
    replace (length h + (9 * r + c) - length h) with (9 * r + c) by lia.
    by apply freshCells_lookup. }
  split; [apply fieldAt_wf|]. split; [by rewrite length_app|].
  split; [intros l Hl; by apply lookup_app_l|].
  split; [intros l Hl; by apply fieldAt_fresh|].
  split.
  - intros r c Hr Hc. split; [by apply cellAt_fieldAt|by apply Hnew].
  - intros r c Hr Hc. by rewrite Hnew.
Qed.

(** ** What validation detects *)

Lemma row_formula g r :
  wf_grid g → r < 9 → g !!! r = (λ c, cellAt g r c) <$> seq 0 9.
Proof. intros Hwf Hr. explode_grid g Hwf. each_index r Hr; reflexivity. Qed.

Lemma column_formula g c :
  wf_grid g → c < 9 → getColumns g !!! c = (λ r, cellAt g r c) <$> seq 0 9.
Proof. intros Hwf Hc. explode_grid g Hwf. each_index c Hc; reflexivity. Qed.

Lemma square_formula g r c :
  wf_grid g → r < 9 → c < 9 →
  squareOf g r c
  = (λ ij, cellAt g (3 * (r / 3) + fst ij) (3 * (c / 3) + snd ij)) <$> squareOffsets.
Proof.
  intros Hwf Hr Hc. explode_grid g Hwf.
  each_index r Hr; each_index c Hc; reflexivity.
Qed.

Lemma squareOffsets_elem i j : (i, j) ∈ squareOffsets ↔ i < 3 ∧ j < 3.
Proof.
  unfold squareOffsets. rewrite list_elem_of_bind. split.
  - intros (i' & Hin & Hi). apply list_elem_of_fmap in Hin as (j' & [= -> ->] & Hj).
    apply elem_of_seq in Hi, Hj. lia.
  - intros [Hi Hj]. exists i. split.
    + apply list_elem_of_fmap. exists j. split; [done|]. apply elem_of_seq. lia.
    + apply elem_of_seq. lia.
Qed.

Lemma in_row_iff g r l :
  wf_grid g → r < 9 → l ∈ g !!! r ↔ ∃ c, c < 9 ∧ l = cellAt g r c.
Proof.
  intros Hwf Hr. rewrite row_formula by done. rewrite list_elem_of_fmap.
  split; intros (c & H1 & H2).
  - exists c. apply elem_of_seq in H2. split; [lia|done].
  - exists c. split; [done|]. apply elem_of_seq. lia.
Qed.

Lemma in_column_iff g c l :
  wf_grid g → c < 9 → l ∈ getColumns g !!! c ↔ ∃ r, r < 9 ∧ l = cellAt g r c.
Proof.
  intros Hwf Hc. rewrite column_formula by done. rewrite list_elem_of_fmap.
  split; intros (r & H1 & H2).
  - exists r. apply elem_of_seq in H2. split; [lia|done].
  - exists r. split; [done|]. apply elem_of_seq. lia.
Qed.

Lemma in_square_iff g r c l :
  wf_grid g → r < 9 → c < 9 →
  l ∈ squareOf g r c
  ↔ ∃ r' c', r' < 9 ∧ c' < 9 ∧ r' / 3 = r / 3 ∧ c' / 3 = c / 3 ∧ l = cellAt g r' c'.
Proof.
  intros Hwf Hr Hc. rewrite square_formula by done. rewrite list_elem_of_fmap.
  pose proof (Nat.div_mod_eq r 3) as Er. pose proof (Nat.div_mod_eq c 3) as Ec.
  pose proof (Nat.mod_upper_bound r 3) as Mr. pose proof (Nat.mod_upper_bound c 3) as Mc.
  split.
  - intros ([i j] & -> & [Hi Hj]%squareOffsets_elem). cbn [fst snd].
    exists (3 * (r / 3) + i), (3 * (c / 3) + j).
    split; [lia|]. split; [lia|]. split; [|split; [|done]].
    + symmetry. apply (Nat.div_unique _ 3 _ i); lia.
    + symmetry. apply (Nat.div_unique _ 3 _ j); lia.
  - intros (r' & c' & Hr' & Hc' & Er' & Ec' & ->).
    exists (r' mod 3, c' mod 3). cbn [fst snd].
    pose proof (Nat.div_mod_eq r' 3). pose proof (Nat.div_mod_eq c' 3).
    pose proof (Nat.mod_upper_bound r' 3). pose proof (Nat.mod_upper_bound c' 3).
    split; [|apply squareOffsets_elem; lia].
    f_equal; lia.
Qed.

Lemma two_elems {A} (xs : list A) x y : x ∈ xs → y ∈ xs → x ≠ y → 1 < length xs.
Proof.
  destruct xs as [|a [|b xs]]; intros Hx Hy Hne.
  - by apply elem_of_nil in Hx.
  - apply list_elem_of_singleton in Hx, Hy. congruence.
  - simpl. lia.
Qed.

Lemma other_elem (xs : list loc) x :
  NoDup xs → 1 < length xs → ∃ y, y ∈ xs ∧ y ≠ x.
Proof.
  destruct xs as [|a [|b xs]]; intros Hnd Hlen; [simpl in Hlen; lia..|].
  apply NoDup_cons in Hnd as [Hab _].
  destruct (decide (a = x)) as [->|Hne].
  - exists b. split; [by right; left|]. intros ->. apply Hab. by left.
  - exists a. split; [by left|done].
Qed.

(** A cell of a range is a duplicate iff another cell of the range holds
    the same value. *)
Lemma isDuplicated_iff h l range :
  NoDup range → l ∈ range →
  isDuplicated h l range = true
  ↔ ∃ l', l' ∈ range ∧ l' ≠ l
          ∧ Cell.getValue (deref h l') = Cell.getValue (deref h l).
Proof.
  intros Hnd Hl. unfold isDuplicated. rewrite bool_decide_eq_true.
  set (same := filter (λ c, Cell.getValue (deref h c) = Cell.getValue (deref h l)) range).
  assert (l ∈ same) as Hsame by (by apply list_elem_of_filter).
  split.
  - intros Hlen.
    destruct (other_elem same l (NoDup_filter _ _ Hnd) Hlen) as (l' & Hin & Hne).
    apply list_elem_of_filter in Hin as [Hv Hin]. by exists l'.
  - intros (l' & Hin & Hne & Hv).
    apply (two_elems same l' l); [by apply list_elem_of_filter|done|done].
Qed.

Lemma validate_deref s r c :
  wf_grid (cells s) → r < 9 → c < 9 →
  deref (heap (validate s)) (getCell s r c)
  = verdict (isDuplicated (heap s) (getCell s r c) (cells s !!! r))
            (isDuplicated (heap s) (getCell s r c) (getColumns (cells s) !!! c))
            (isDuplicated (heap s) (getCell s r c) (squareOf (cells s) r c))
            (deref (heap s) (getCell s r c)).
Proof.
  intros Hwf Hr Hc. unfold getCell. cbn [heap validate with_heap].
  apply (deref_fmap _ _ _ (verdict _ _ _)); [|reflexivity].
  by apply validateStore_lookup.
Qed.

(** The flag [validate()] leaves at a position, read on the board. *)
Lemma validate_flag_iff s p :
  wf_grid (cells s) → onBoard p →
  Cell.isValid (deref (heap (validate s)) (getCell s (fst p) (snd p))) = false
  ↔ Cell.hasValue (deref (heap s) (getCell s (fst p) (snd p))) = true
    ∧ ∃ q, onBoard q ∧ peers q p ∧ valueAt s q = valueAt s p.
Proof.
  intros Hwf [Hr Hc]. destruct p as [r c]. cbn [fst snd] in *.
  rewrite validate_deref by done. unfold verdict. cbn [Cell.isValid Cell.setIsValid Cell.valid].
  rewrite negb_false_iff, andb_true_iff, !orb_true_iff.
  destruct (cell_in_row _ r c Hwf Hr Hc) as [Rr Rc].
  destruct (cell_in_column _ r c Hwf Hr Hc) as [Cr Cc].
  destruct (cell_in_square _ r c Hwf Hr Hc) as [Sr Sc].
  rewrite (isDuplicated_iff _ _ _ (NoDup_join_elem _ _ (wf_grid_NoDup _ Hwf) Rr) Rc).
  rewrite (isDuplicated_iff _ _ _ (NoDup_join_elem _ _ (getColumns_NoDup _ Hwf) Cr) Cc).
  rewrite (isDuplicated_iff _ _ _ (NoDup_join_elem _ _ (getSquares_NoDup _ Hwf) Sr) Sc).
  unfold getCell, valueAt, peers, onBoard.
  split; intros [Hv Hdup]; (split; [done|]).
  - destruct Hdup as [[(l' & Hin & Hne & Hsame)|(l' & Hin & Hne & Hsame)]
                     |(l' & Hin & Hne & Hsame)].
    + apply in_row_iff in Hin as (c' & Hc' & ->); [|done..].
      exists (r, c'). cbn [fst snd]. split; [done|]. split; [|done].
      split; [congruence|by left].
    + apply in_column_iff in Hin as (r' & Hr' & ->); [|done..].
      exists (r', c). cbn [fst snd]. split; [done|]. split; [|done].
      split; [congruence|by right; left].
    + apply in_square_iff in Hin as (r' & c' & Hr' & Hc' & Er & Ec & ->); [|done..].
      exists (r', c'). cbn [fst snd]. split; [done|]. split; [|done].
      split; [congruence|by right; right].
  - destruct Hdup as ([r' c'] & [Hr' Hc'] & [Hne Hrel] & Hsame). cbn [fst snd] in *.
    assert (cellAt (cells s) r' c' ≠ cellAt (cells s) r c) as Hdiff.
    { intros Heq. apply Hne.
      destruct (cellAt_inj _ _ _ _ _ Hwf Hr' Hc' Hr Hc Heq). congruence. }
    destruct Hrel as [->|[->|[Er Ec]]].
    + left. left. exists (cellAt (cells s) r c'). split; [|done].
      apply in_row_iff; [done..|]. by exists c'.
    + left. right. exists (cellAt (cells s) r' c). split; [|done].
      apply in_column_iff; [done..|]. by exists r'.
    + right. exists (cellAt (cells s) r' c'). split; [|done].
      apply in_square_iff; [done..|]. by exists r', c'.
Qed.

Lemma isValid_positions s :
  wf_grid (cells s) →
  isValid s = true
  ↔ ∀ p, onBoard p → Cell.isValid (deref (heap s) (getCell s (fst p) (snd p))) = true.
Proof.
  intros Hwf. rewrite isValid_iff. split.
  - intros Hall p [Hr Hc]. apply Hall. by apply cell_in_grid.
  - intros Hall l Hl. destruct (grid_positions _ _ Hwf Hl) as (r & c & Hr & Hc & ->).
    by apply (Hall (r, c)).
Qed.

(** X5: validation is exact.  After [validate()] the cell at a position is
    flagged invalid iff it has a value and some other position of its row,
    its column or its square holds the same value; hence [isValid()] holds
    after [validate()] iff no two peers of the board share an assigned
    value (cells without a value never count). *)
Theorem validate_detects_exactly (s : ClassicSudoku) :
  wf_grid (cells s) →
  (∀ p, onBoard p →
     Cell.isValid (deref (heap (validate s)) (getCell s (fst p) (snd p))) = false
     ↔ Cell.hasValue (deref (heap s) (getCell s (fst p) (snd p))) = true
       ∧ ∃ q, onBoard q ∧ peers q p ∧ valueAt s q = valueAt s p)
  ∧ (isValid (validate s) = true
     ↔ ∀ p q, onBoard p → onBoard q → peers q p →
              Cell.hasValue (deref (heap s) (getCell s (fst p) (snd p))) = true →
              valueAt s q ≠ valueAt s p).
Proof.
  intros Hwf. split; [intros p Hp; by apply validate_flag_iff|].
  rewrite (isValid_positions (validate s)) by done.
  split.
  - intros Hall p q Hp Hq Hpeers Hv Hsame.
    specialize (Hall p Hp).
    assert (Cell.isValid (deref (heap (validate s)) (getCell s (fst p) (snd p))) = false)
      as Hflag by (apply validate_flag_iff; [done..|]; split; [done|by exists q]).
    unfold getCell in *. cbn [cells validate with_heap] in Hall. congruence.
  - intros Hnone p Hp.
    destruct (Cell.isValid (deref (heap (validate s)) (getCell (validate s) (fst p) (snd p))))
      eqn:Hflag; [done|].
    apply (validate_flag_iff s p Hwf Hp) in Hflag as (Hv & q & Hq & Hpeers & Hsame).
    by destruct (Hnone p q Hp Hq Hpeers Hv).
Qed.

Lemma validate_detects_exactly_witness :
  Cell.isValid (deref (heap (validate twoFives)) (getCell twoFives 0 0)) = false
  ∧ Cell.isValid (deref (heap (validate twoFives)) (getCell twoFives 0 1)) = false.
Proof.
  destruct (validate_detects_exactly twoFives) as [Hflag _].
  { apply wf_grid_decide. vm_compute. reflexivity. }
  split.
  - apply (Hflag (0, 0)); [split; simpl; lia|].
    split; [vm_compute; reflexivity|].
    exists (0, 1). split; [split; simpl; lia|]. split; [|vm_compute; reflexivity].
    split; [congruence|by left].
  - apply (Hflag (0, 1)); [split; simpl; lia|].
    split; [vm_compute; reflexivity|].
    exists (0, 0). split; [split; simpl; lia|]. split; [|vm_compute; reflexivity].
    split; [congruence|by left].
Defined.

(** C7: [validate()] first resets every flag to true; then, family by
    family (rows, columns, squares), a cell of a range is flagged invalid
    exactly when it has a value, is still marked valid and another cell of
    the range holds the same value, and is left alone otherwise; in the end
    a cell is flagged invalid iff it has a value that another cell of its
    row, of its column or of its square holds too; nothing but flags is
    written; [isValid()] holds iff no cell is flagged. *)
Theorem validate_flags_duplicates (s : ClassicSudoku) :
  wf_grid (cells s) →
  (∀ l, l ∈ allCells (cells s) →
        Cell.isValid (deref (resetValidity (cells s) (heap s)) l) = true)
  ∧ (∀ ranges h range l,
        ranges ∈ [cells s; getColumns (cells s); getSquares (cells s)] →
        range ∈ ranges → l ∈ range →
        Cell.content (deref (validateRanges ranges h) l) = Cell.content (deref h l)
        ∧ (Cell.isValid (deref (validateRanges ranges h) l) = false
           ↔ Cell.isValid (deref h l) = false
             ∨ (Cell.hasValue (deref h l) = true
                ∧ ∃ other, other ∈ range ∧ other ≠ l
                           ∧ Cell.getValue (deref h other)
                             = Cell.getValue (deref h l))))
  ∧ heap (validate s)
    = validateRanges (getSquares (cells s))
        (validateRanges (getColumns (cells s))
           (validateRanges (cells s) (resetValidity (cells s) (heap s))))
  ∧ (∀ r c, r < 9 → c < 9 →
        Cell.content (deref (heap (validate s)) (getCell s r c))
        = Cell.content (deref (heap s) (getCell s r c))
        ∧ (Cell.isValid (deref (heap (validate s)) (getCell s r c)) = false
           ↔ Cell.hasValue (deref (heap s) (getCell s r c)) = true
             ∧ ∃ other, (other ∈ cells s !!! r
                         ∨ other ∈ getColumns (cells s) !!! c
                         ∨ other ∈ squareOf (cells s) r c)
                        ∧ other ≠ getCell s r c
                        ∧ Cell.getValue (deref (heap s) other)
                          = Cell.getValue (deref (heap s) (getCell s r c))))
  ∧ (isValid (validate s) = true
     ↔ ∀ l, l ∈ allCells (cells s) → Cell.isValid (deref (heap (validate s)) l) = true).
Proof.
  intros Hwf. split; [|split; [|split; [done|split]]].
  - intros l Hl.
    rewrite (deref_fmap (heap s) _ l (Cell.setIsValid true)); [done| |done].
    rewrite resetValidity_lookup. unfold allCells in Hl. by rewrite decide_True.
  - intros ranges h range l Hfam Hr Hl.
    assert (NoDup (mjoin ranges)) as Hnd.
    { apply elem_of_cons in Hfam as [->|Hfam]; [by apply wf_grid_NoDup|].
      apply elem_of_cons in Hfam as [->|Hfam]; [by apply getColumns_NoDup|].
      apply list_elem_of_singleton in Hfam as ->. by apply getSquares_NoDup. }
    destruct (validateRanges_lookup ranges h Hnd) as [_ Hin].
    rewrite (deref_fmap h _ l (judge (isDuplicated h l range)));
      [|by apply Hin|reflexivity].
    split; [apply judge_content|].
    rewrite <- (isDuplicated_iff h l range (NoDup_join_elem _ _ Hnd Hr) Hl).
    rewrite judge_cases.
    destruct (deref h l) as [? ? [?|] ? [|]]; destruct (isDuplicated h l range);
      cbn; intuition congruence.
  - intros r c Hr Hc. rewrite validate_deref by done.
    destruct (cell_in_row _ r c Hwf Hr Hc) as [Rr Rc].
    destruct (cell_in_column _ r c Hwf Hr Hc) as [Cr Cc].
    destruct (cell_in_square _ r c Hwf Hr Hc) as [Sr Sc].
    pose proof (isDuplicated_iff (heap s) _ _
                  (NoDup_join_elem _ _ (wf_grid_NoDup _ Hwf) Rr) Rc) as Drow.
    pose proof (isDuplicated_iff (heap s) _ _
                  (NoDup_join_elem _ _ (getColumns_NoDup _ Hwf) Cr) Cc) as Dcol.
    pose proof (isDuplicated_iff (heap s) _ _
                  (NoDup_join_elem _ _ (getSquares_NoDup _ Hwf) Sr) Sc) as Dsq.
    fold (getCell s r c) in Drow, Dcol, Dsq.
    split; [by destruct (deref (heap s) (getCell s r c))|].
    unfold verdict. cbn [Cell.isValid Cell.setIsValid Cell.valid].
    rewrite negb_false_iff, andb_true_iff, !orb_true_iff, Drow, Dcol, Dsq.
    split.
    + intros [Hv [[(o & ? & ? & ?)|(o & ? & ? & ?)]|(o & ? & ? & ?)]];
        (split; [done|]); exists o; auto.
    + intros [Hv (o & [?|[?|?]] & ? & ?)]; (split; [done|]);
        [left; left|left; right|right]; by exists o.
  - exact (isValid_iff (validate s)).
Qed.

Lemma validate_flags_duplicates_witness :
  Cell.isValid (deref (heap (validate twoFives)) (getCell twoFives 0 0)) = false
  ∧ Cell.isValid (deref (heap (validate twoFives)) (getCell twoFives 4 4)) = true.
Proof.
  destruct (validate_flags_duplicates twoFives) as (_ & _ & _ & Hnet & _).
  { apply wf_grid_decide. vm_compute. reflexivity. }
  split.
  - apply (Hnet 0 0); [lia|lia|]. split; [vm_compute; reflexivity|].
    exists (getCell twoFives 0 1). split; [|split; [vm_compute; lia|vm_compute; reflexivity]].
    left. vm_compute. apply list_elem_of_further, list_elem_of_here.
  - vm_compute. reflexivity.
Defined.

(** ** Eliminations *)

Lemma narrows_refl c : narrows c c.
Proof. unfold narrows. repeat split; auto. Qed.

Lemma narrows_trans c1 c2 c3 : narrows c1 c2 → narrows c2 c3 → narrows c1 c3.
Proof.
  intros (R1 & C1 & V1 & P1 & H1) (R2 & C2 & V2 & P2 & H2).
  unfold narrows. split; [congruence|]. split; [congruence|]. split; [congruence|].
  split; [by etrans|].
  destruct H2 as [E2|(N2 & w & E2 & Hw)].
  - destruct H1 as [E1|(N1 & w & E1 & Hw)]; [left; congruence|].
    right. split; [done|]. exists w. split; [congruence|done].
  - destruct H1 as [E1|(N1 & w' & E1 & Hw')]; [|congruence].
    right. split; [congruence|]. exists w. split; [done|]. by apply P1.
Qed.

Lemma eliminate_narrows v c :
  Cell.hasValue c = false → narrows c (eliminate v c).
Proof.
  intros Hc. unfold eliminate. case_bool_decide as Hin; [|apply narrows_refl].
  assert (filter (λ w, w ≠ v) (Cell.getPossibleValues c) ⊆ Cell.getPossibleValues c)
    as Hsub by (intros w Hw%list_elem_of_filter; by destruct Hw).
  assert (Cell.getValue c = None) as Hnone.
  { unfold Cell.hasValue in Hc. unfold Cell.getValue. by destruct (Cell.value c). }
  destruct (filter _ _) as [|w [|w' ws]] eqn:Hf; unfold narrows.
  - split_and!; try done. by left.
  - split_and!; try done; [apply list_subseteq_nil|].
    right. split; [done|]. exists w. split; [done|]. apply Hsub. left.
  - split_and!; try done. by left.
Qed.

(** An elimination that removes something never leaves a naked single
    behind: the cell is filled, or its candidates are not exactly one. *)
Lemma eliminate_no_single v c :
  v ∈ Cell.getPossibleValues c →
  Cell.hasValue (eliminate v c) = true
  ∨ length (Cell.getPossibleValues (eliminate v c)) ≠ 1.
Proof.
  intros Hin. unfold eliminate. rewrite bool_decide_eq_true_2 by done.
  destruct (filter _ _) as [|w [|w' ws]]; simpl; [right; lia|by left|right; lia].
Qed.

(** X6: a call of [removeFromPossibleValues(value, range)] only narrows the
    board.  A cell outside the range, or with a value at the time of the
    call, is left as it is; a cell of the range without a value keeps its
    position and its flag, loses [value] from its candidates and gains none,
    and either stays without a value or receives one of its former
    candidates other than [value] (when a single candidate is left); it is
    never left unfilled with exactly one candidate after a removal. *)
Theorem removeFromPossibleValues_narrows (value : Z) (range : list loc) (h : Store) :
  length (removeFromPossibleValues value range h) = length h
  ∧ (∀ l, l ∉ range ∨ Cell.hasValue (deref h l) = true →
          deref (removeFromPossibleValues value range h) l = deref h l)
  ∧ (∀ l, l ∈ range → Cell.hasValue (deref h l) = false →
          narrows (deref h l) (deref (removeFromPossibleValues value range h) l)
          ∧ (value ∉ Cell.getPossibleValues
                        (deref (removeFromPossibleValues value range h) l))
          ∧ Cell.getValue (deref (removeFromPossibleValues value range h) l)
            ≠ Some value
          ∧ (value ∈ Cell.getPossibleValues (deref h l) →
             Cell.hasValue (deref (removeFromPossibleValues value range h) l) = true
             ∨ length (Cell.getPossibleValues
                         (deref (removeFromPossibleValues value range h) l)) ≠ 1)).
Proof.
  split; [apply removeFromPossibleValues_length|]. split.
  - intros l Hl. rewrite removeFromPossibleValues_cell.
    rewrite decide_False; [done|]. intros [? ?]. destruct Hl; [done|congruence].
  - intros l Hin Hun. rewrite removeFromPossibleValues_cell.
    rewrite decide_True by done.
    split; [by apply eliminate_narrows|]. split; [apply eliminate_absent|].
    split; [|by apply eliminate_no_single].
    destruct (eliminate_narrows value (deref h l) Hun)
      as (_ & _ & _ & _ & [Hsame|(_ & w & Hw & Hcand)]).
    + rewrite Hsame. unfold Cell.hasValue in Hun. unfold Cell.getValue.
      by destruct (Cell.value (deref h l)).
    + intros Hv. rewrite Hw in Hv. injection Hv as ->.
      unfold eliminate in Hw. case_bool_decide as Hmem.
      * destruct (filter _ _) as [|w [|w' ws]] eqn:Hf; simpl in Hw.
        -- unfold Cell.getValue in Hw. simpl in Hw. unfold Cell.hasValue in Hun.
           destruct (Cell.value (deref h l)); done.
        -- injection Hw as ->.
           assert (value ∈ filter (λ w, w ≠ value) (Cell.getPossibleValues (deref h l)))
             as Hbad by (rewrite Hf; left).
           apply list_elem_of_filter in Hbad as [Hbad _]. done.
        -- unfold Cell.getValue in Hw. simpl in Hw. unfold Cell.hasValue in Hun.
           destruct (Cell.value (deref h l)); done.
      * unfold Cell.hasValue in Hun. unfold Cell.getValue in Hw.
        destruct (Cell.value (deref h l)); done.
Qed.

(** ** The order of resumption *)

Lemma eliminations_same_cells v (xs ys : list loc) (h : Store) :
  (∀ l, l ∈ xs ↔ l ∈ ys) →
  forEach (update (eliminate v)) xs h = forEach (update (eliminate v)) ys h.
Proof.
  intros Hsame. apply store_ext; [by rewrite !eliminations_length|].
  intros l. rewrite !eliminations_deref.
  destruct (decide (l ∈ xs)) as [Hx|Hx].
  - by rewrite decide_True by (by apply Hsame).
  - rewrite decide_False; [done|]. intros Hy. by apply Hx, Hsame.
Qed.

Lemma eliminations_comm v (xs ys : list loc) (h : Store) :
  forEach (update (eliminate v)) xs (forEach (update (eliminate v)) ys h)
  = forEach (update (eliminate v)) ys (forEach (update (eliminate v)) xs h).
Proof.
  rewrite <- !forEach_app. apply eliminations_same_cells.
  intros l. rewrite !elem_of_app. tauto.
Qed.

Lemma resumeAt_rest v i calls h calls' h' :
  Forall (λ call, call_value call = v) calls →
  resumeAt i calls h = (calls', h') →
  Forall (λ call, call_value call = v) calls'
  ∧ forEach (update (eliminate v)) (calls' ≫= call_rest) h'
    = forEach (update (eliminate v)) (calls ≫= call_rest) h.
Proof.
  intros Hv. unfold resumeAt.
  destruct (calls !! i) as [call|] eqn:Hi; [|by intros [= <- <-]].
  assert (call_value call = v) as Hcall.
  { rewrite Forall_forall in Hv. apply Hv. by eapply list_elem_of_lookup_2. }
  destruct (resume call h) as [next h1] eqn:Hres.
  unfold resume in Hres. rewrite Hcall in Hres.
  pose proof (eliminateNext_rest _ _ _ _ _ Hres) as Hrest.
  assert (calls ≫= call_rest
          = (take i calls ≫= call_rest) ++ call_rest call
            ++ (drop (S i) calls ≫= call_rest)) as Hsplit.
  { rewrite <- (take_drop_middle calls i call Hi) at 1.
    by rewrite bind_app, bind_cons. }
  assert (Forall (λ call, call_value call = v) (take i calls)) as Htake
    by (by apply Forall_take).
  assert (Forall (λ call, call_value call = v) (drop (S i) calls)) as Hdrop
    by (by apply Forall_drop).
  pose proof (lookup_lt_Some _ _ _ Hi) as Hlt.
  rewrite Hsplit, !forEach_app.
  destruct next as [call'|]; intros [= <- <-].
  - assert (call_value call' = v) as Hcall'.
    { destruct (eliminateNext_spec _ _ _ _ _ Hres)
        as [(? & _)|(? & ? & ? & _ & _ & _ & [= ->] & _)]; done. }
    split.
    + rewrite insert_take_drop by done. apply Forall_app. split; [done|].
      by apply Forall_cons.
    + rewrite insert_take_drop by done.
      rewrite bind_app, bind_cons, !forEach_app. f_equal.
      rewrite eliminations_comm. cbn [from_option] in Hrest. rewrite Hrest.
      apply eliminations_comm.
  - split.
    + rewrite delete_take_drop. by apply Forall_app.
    + rewrite delete_take_drop, bind_app, forEach_app. f_equal.
      cbn [from_option] in Hrest. rewrite forEach_nil in Hrest. subst h1.
      apply eliminations_comm.
Qed.

(** X7: suspended calls for one value may go on in any order.  Whatever
    the order in which they are resumed, every call left is still a call
    for that value, and what the eliminations still to come amount to is
    what it was before; so once all the calls have returned, with nothing
    else written in between, the store is the same for every order: the one
    in which every cell left to a call has undergone the elimination. *)
Theorem suspended_calls_confluent (v : Z) (order : list nat)
    (calls calls' : list Call) (h h' : Store) :
  Forall (λ call, call_value call = v) calls →
  resumeAll order calls h = (calls', h') →
  Forall (λ call, call_value call = v) calls'
  ∧ forEach (update (eliminate v)) (calls' ≫= call_rest) h'
    = forEach (update (eliminate v)) (calls ≫= call_rest) h
  ∧ (calls' = [] → h' = forEach (update (eliminate v)) (calls ≫= call_rest) h).
Proof.
  unfold resumeAll. revert calls h.
  induction order as [|i order IH]; intros calls h Hv; cbn [foldl fst snd].
  - intros [= <- <-]. split; [done|]. split; [done|]. by intros ->.
  - destruct (resumeAt i calls h) as [calls1 h1] eqn:Hstep. cbn [fst snd].
    destruct (resumeAt_rest v i calls h calls1 h1 Hv Hstep) as [Hv1 Heq1].
    intros Hfold. destruct (IH calls1 h1 Hv1 Hfold) as (Hv' & Heq & Hend).
    split; [done|]. split; [by rewrite Heq|].
    intros Hnil. by rewrite (Hend Hnil).
Qed.

Lemma suspended_calls_confluent_witness :
  snd (resumeAll [0; 0; 0] [mkCall 4 [getCell twoPeers 0 4; getCell twoPeers 0 8]]
         twoPeersFilled)
  = forEach (update (eliminate 4))
      ([mkCall 4 [getCell twoPeers 0 4; getCell twoPeers 0 8]] ≫= call_rest)
      twoPeersFilled.
Proof.
  refine (proj2 (proj2 (suspended_calls_confluent 4 [0; 0; 0]
            [mkCall 4 [getCell twoPeers 0 4; getCell twoPeers 0 8]]
            (fst (resumeAll [0; 0; 0]
                    [mkCall 4 [getCell twoPeers 0 4; getCell twoPeers 0 8]]
                    twoPeersFilled))
            twoPeersFilled
            (snd (resumeAll [0; 0; 0]
                    [mkCall 4 [getCell twoPeers 0 4; getCell twoPeers 0 8]]
                    twoPeersFilled))
            _ _)) _).
  - apply Forall_singleton. reflexivity.
  - apply surjective_pairing.
  - vm_compute. reflexivity.
Defined.

(** Calls for different values do not commute: on a cell with the
    candidates 1 and 2, the call that goes on first decides the value the
    cell is filled with. *)
Example resumption_order_matters :
  let h := [Cell.mk 0 0 None [1; 2]%Z true] in
  let calls := [mkCall 1 [0]; mkCall 2 [0]] in
  Cell.getValue (deref (snd (resumeAll [0; 0] calls h)) 0) = Some 2%Z
  ∧ Cell.getValue (deref (snd (resumeAll [1; 0] calls h)) 0) = Some 1%Z.
Proof. vm_compute. split; reflexivity. Qed.

(** ** Edge cases of the guess *)

Lemma guess_reduces_nonempty s hasChanges :
  guess s hasChanges ≠ Stuck ReduceOfEmpty.
Proof.
  unfold guess. destruct hasChanges; [done|]. cbn [negb andb].
  destruct (solved s) eqn:Hs; [done|]. cbn [negb].
  destruct (unfilledCells s) as [|first rest] eqn:Hun;
    [by apply solved_false_unfilled in Hs|].
  rewrite (suggestionCandidate_unfold s first rest Hun).
  destruct (Cell.getPossibleValues _) as [|v vs]; [done|].
  by destruct (clone _).
Qed.

(** X8: the guess only happens on a stalled, unsolved board, and then there
    is a cell to guess on: the [reduce] of lines 151-154 never meets an
    empty array.  When some cell without a value has no candidate left, the
    cell chosen has none either, so the guessed value
    [getPossibleValues()[0]] is [undefined]. *)
Theorem guess_on_exhausted_cell (s : ClassicSudoku) (hasChanges : bool) :
  guess s hasChanges ≠ Stuck ReduceOfEmpty
  ∧ (solved s = false →
     (∃ l, l ∈ unfilledCells s ∧ Cell.getPossibleValues (deref (heap s) l) = []) →
     ∃ candidate,
       suggestionCandidate s = Some candidate
       ∧ candidate ∈ unfilledCells s
       ∧ Cell.getPossibleValues (deref (heap s) candidate) = []
       ∧ guess s false = Stuck UndefinedGuess).
Proof.
  split; [apply guess_reduces_nonempty|].
  intros Hs (l & Hl & Hempty).
  destruct (unfilledCells s) as [|first rest] eqn:Hun;
    [by apply elem_of_nil in Hl|].
  destruct (fewer_fold (heap s) first rest) as (before & after & Heq & Hb & Ha).
  pose proof (suggestionCandidate_unfold s first rest Hun) as Hcand.
  set (candidate := foldl (fewer (heap s)) first rest) in *.
  assert (candidateCount (heap s) l = 0) as Hzero
    by (unfold candidateCount; by rewrite Hempty).
  assert (Cell.getPossibleValues (deref (heap s) candidate) = []) as Hnone.
  { apply length_zero_iff_nil. fold (candidateCount (heap s) candidate).
    rewrite Heq in Hl. apply elem_of_app in Hl as [Hl|[->|Hl]%elem_of_cons].
    - specialize (Hb l Hl). lia.
    - done.
    - specialize (Ha l Hl). lia. }
  exists candidate. split; [done|]. split; [|split; [done|]].
  - rewrite Heq. apply elem_of_app. right. left.
  - unfold guess. rewrite Hs, Hcand. cbn [negb andb]. cbv beta iota. rewrite Hnone. reflexivity.
Qed.

Lemma guess_on_exhausted_cell_witness : guess exhausted false = Stuck UndefinedGuess.
Proof.
  destruct (guess_on_exhausted_cell exhausted false) as [_ H].
  destruct H as (candidate & _ & _ & _ & Hg).
  - vm_compute. reflexivity.
  - exists (getCell exhausted 0 1). split; vm_compute; [|reflexivity].
    apply list_elem_of_here.
  - exact Hg.
Defined.

(** ** A board that is already complete *)

Lemma solved_iff s :
  solved s = true
  ↔ ∀ l, l ∈ allCells (cells s) → Cell.hasValue (deref (heap s) l) = true.
Proof.
  unfold solved. rewrite bool_decide_eq_true.
  induction (allCells (cells s)) as [|x ls IH].
  - split; [|done]. intros _ l Hl. by apply elem_of_nil in Hl.
  - rewrite filter_cons. destruct (decide _) as [Hx|Hx].
    + split; [done|]. intros Hall. specialize (Hall x (list_elem_of_here _ _)). congruence.
    + rewrite IH. split.
      * intros Hall l [->|Hl]%elem_of_cons; [by destruct (Cell.hasValue _)|by apply Hall].
      * intros Hall l Hl. apply Hall. by right.
Qed.

Lemma solved_same_content s h' :
  same_content (heap s) h' → solved (with_heap h' s) = solved s.
Proof.
  intros [_ Hc]. apply bool_decide_ext. cbn [cells heap with_heap].
  rewrite (list_filter_iff _ (λ c, Cell.hasValue (deref (heap s) c) = false)); [done|].
  intros l. specialize (Hc l). unfold Cell.content in Hc. unfold Cell.hasValue.
  injection Hc as _ _ Hval _. by rewrite Hval.
Qed.



Lemma rowLoop_filled strategies columns i cols r hasChanges :
  paused (engine r) = false →
  (∀ c, c ∈ cols →
        Cell.hasValue (deref (heap (engine r)) (cellAt (cells (engine r)) i c)) = true) →
  rowLoop strategies columns i cols r hasChanges = Ok (r, hasChanges).
Proof.
  intros Hp. induction cols as [|c cols IH]; intros Hall; [done|].
  cbn [rowLoop]. rewrite Hp. cbn [andb].
  destruct (running (engine r)); cbn [negb]; [|done].
  rewrite (Hall c) by left. apply IH. intros c' Hc'. apply Hall. by right.
Qed.

Lemma gridLoop_filled strategies columns rows r hasChanges :
  paused (engine r) = false →
  (∀ i c, i ∈ rows → c < 9 →
          Cell.hasValue (deref (heap (engine r)) (cellAt (cells (engine r)) i c)) = true) →
  gridLoop strategies columns rows r hasChanges = Ok (r, hasChanges).
Proof.
  intros Hp. induction rows as [|i rows IH]; intros Hall; [done|].
  cbn [gridLoop]. rewrite rowLoop_filled; [|done|].
  - cbn [bindR fst snd]. apply IH. intros i' c Hi' Hc. apply Hall; [by right|done].
  - intros c Hc%elem_of_seq. apply Hall; [left|unfold spec_length in Hc; lia].
Qed.

Lemma rollback_valid s :
  isValid (validate s) = true →
  rollback s = if bool_decide (0 < length (suggestions s)) then validate s else s.
Proof. intros Hv. unfold rollback. by rewrite Hv. Qed.

Lemma rollbackBlock_valid r :
  isValid (validate (engine r)) = true →
  rollbackBlock r
  = setEngine (if bool_decide (0 < length (suggestions (engine r)))
               then validate (engine r) else engine r) r.
Proof.
  intros Hv. unfold rollbackBlock. rewrite Hv, andb_false_r.
  by rewrite rollback_valid.
Qed.

Lemma pass_solved strategies squareIntersection r :
  wf_grid (cells (engine r)) → paused (engine r) = false →
  solved (engine r) = true →
  pass strategies squareIntersection r = Ok (rollbackBlock r, false).
Proof.
  intros Hwf Hp Hs. unfold pass.
  rewrite gridLoop_filled; [|done|].
  - cbn [bindR fst snd]. unfold fallback. rewrite Hs. cbn [negb andb fst snd].
    unfold guessBlock. rewrite Hs. cbn [negb andb bindR fst snd]. reflexivity.
  - intros i c Hi%elem_of_seq Hc. unfold spec_length in Hi.
    apply (proj1 (solved_iff (engine r)) Hs). apply cell_in_grid; [done|lia|done].
Qed.

Lemma validate_validate s : wf_grid (cells s) → validate (validate s) = validate s.
Proof.
  intros Hwf. unfold validate, with_heap. cbn [heap cells]. by rewrite validateStore_idem.
Qed.

Lemma solved_validate s : solved (validate s) = solved s.
Proof. apply (solved_same_content s), validateStore_same_content. Qed.

(** X9: on a board that is already complete and valid, with the engine
    not paused and no call suspended, [solve] resolves within the first turn
    of the loop, whatever the strategies (none is consulted) and the
    schedule: it reports 'Sudoku solved!', leaves [running] false, and
    changes neither grid, stack nor the position, value or candidates of any
    cell; no call is started. *)
Theorem solve_complete_board (strategies : list SolveStrategy)
    (squareIntersection : SolveStrategy) (fuel : nat) (s : ClassicSudoku)
    (sched : list (list nat)) :
  wf_grid (cells s) → paused s = false →
  solved s = true → isValid (validate s) = true →
  ∃ s', solve strategies squareIntersection (S fuel) (mkRun s [] sched)
        = Ok (mkRun s' [] (tail (tail sched)), Resolved)
        ∧ isRunning s' = false
        ∧ notifications s' = (Info, MsgSolved) :: notifications s
        ∧ cells s' = cells s
        ∧ suggestions s' = suggestions s
        ∧ heap s' = heap (validate s)
        ∧ (∀ l, Cell.content (deref (heap s') l) = Cell.content (deref (heap s) l)).
Proof.
  intros Hwf Hp Hs Hv.
  set (s0 := validate (with_running true s)).
  assert (heap s0 = heap (validate s)) as Hheap by reflexivity.
  assert (solved s0 = true) as Hs0 by (unfold s0; by rewrite solved_validate).
  assert (isValid (validate s0) = true) as Hv0.
  { unfold s0. rewrite validate_validate by done. exact Hv. }
  assert (solveAsPossible strategies squareIntersection (S fuel) (mkRun s0 [] sched)
          = Ok (mkRun (rollback s0) [] sched)) as Hloop.
  { rewrite solveAsPossible_step, pass_solved by done. cbn [bindR fst snd].
    rewrite rollbackBlock_valid by done. cbn [engine setEngine suspended schedule].
    rewrite <- (rollback_valid s0) by done.
    unfold loopCondition.
    assert (solved (rollback s0) = true) as ->; [|by rewrite andb_false_r].
    rewrite rollback_valid by done. case_bool_decide; [|done].
    by rewrite solved_validate. }
  assert (validate (rollback s0) = s0) as Hfinal.
  { rewrite rollback_valid by done. unfold s0.
    case_bool_decide; by rewrite !validate_validate. }
  eexists. split.
  - assert (isValid s0 = true) as Hvalid by exact Hv.
    unfold solve. cbn [engine]. fold s0. rewrite Hvalid. cbn [negb].
    unfold setEngine at 1. cbn [suspended schedule].
    rewrite Hloop. cbn [bindR]. rewrite yield_idle.
    unfold setEngine. cbn [engine suspended schedule].
    rewrite Hfinal, yield_idle. cbn [engine suspended schedule].
    rewrite Hs0. reflexivity.
  - split; [done|]. split; [done|]. split; [done|]. split; [done|].
    split; [done|]. intros l. symmetry.
    apply (validateStore_same_content (cells s) (heap s)).
Qed.

Lemma solve_complete_board_witness :
  ∃ s', solve [] bySinglePossibleValue 1 (mkRun complete [] [])
        = Ok (mkRun s' [] [], Resolved)
        ∧ isRunning s' = false.
Proof.
  destruct (solve_complete_board [] bySinglePossibleValue 0 complete [])
    as (s' & H1 & H2 & _).
  - apply wf_grid_decide. vm_compute. reflexivity.
  - vm_compute. reflexivity.
  - vm_compute. reflexivity.
  - vm_compute. reflexivity.
  - exists s'. by split.
Defined.

(** ** The invariant *)

Lemma extends_refl h : extends h h.
Proof. split; [done|]. by intros. Qed.

Lemma extends_trans h1 h2 h3 : extends h1 h2 → extends h2 h3 → extends h1 h3.
Proof.
  intros [L1 H1] [L2 H2]. split; [lia|]. intros l Hl.
  destruct (H1 l Hl) as [<- <-]. apply H2. lia.
Qed.

Lemma extends_update f l h :
  (∀ c, Cell.getRowIndex (f c) = Cell.getRowIndex c
        ∧ Cell.getColumnIndex (f c) = Cell.getColumnIndex c) →
  extends h (update f l h).
Proof.
  intros Hf. split; [by rewrite update_length|]. intros l' Hl'.
  destruct (decide (l < length h)) as [Hlt|Hge].
  - rewrite deref_update by done. case_decide; [apply Hf|done].
  - by rewrite update_beyond by lia.
Qed.

Lemma extends_same_content h h' : same_content h h' → extends h h'.
Proof.
  intros [Hlen Hc]. split; [lia|]. intros l _. specialize (Hc l).
  unfold Cell.content in Hc. injection Hc as Hr Hk _ _.
  unfold Cell.getRowIndex, Cell.getColumnIndex. by rewrite Hr, Hk.
Qed.

Lemma extends_forEach {A} (tgt : A → loc) (f : A → Store → Cell.t → Cell.t) xs h :
  (∀ x h c, Cell.getRowIndex (f x h c) = Cell.getRowIndex c
            ∧ Cell.getColumnIndex (f x h c) = Cell.getColumnIndex c) →
  extends h (forEach (λ x h, update (f x h) (tgt x) h) xs h).
Proof.
  intros Hf. revert h. induction xs as [|x xs IH]; intros h; [apply extends_refl|].
  rewrite forEach_cons. eapply extends_trans; [|apply IH].
  apply extends_update. intros c. apply Hf.
Qed.

Lemma eliminate_position v c :
  Cell.getRowIndex (eliminate v c) = Cell.getRowIndex c
  ∧ Cell.getColumnIndex (eliminate v c) = Cell.getColumnIndex c.
Proof.
  unfold eliminate. case_bool_decide; [|done].
  by destruct (filter _ _) as [|w [|w' ws]].
Qed.

Lemma extends_autoFill cell h :
  extends h (snd (autoFill cell h)) ∧ length (snd (autoFill cell h)) = length h.
Proof.
  unfold autoFill.
  destruct (Cell.getPossibleValues _) as [|v [|w vs]]; cbn [snd];
    try (split; [apply extends_refl|done]).
  split; [by apply extends_update|apply update_length].
Qed.

Lemma extends_applyStrategies strategies cell row column square h :
  Forall keeps_objects strategies →
  extends h (snd (applyStrategies strategies cell row column square h))
  ∧ length (snd (applyStrategies strategies cell row column square h)) = length h.
Proof.
  induction strategies as [|strategy strategies IH] using rev_ind;
    [intros _; split; [apply extends_refl|done]|].
  intros [Hall Hlast]%Forall_app. rewrite Forall_singleton in Hlast.
  rewrite applyStrategies_snoc. cbn [snd].
  destruct (IH Hall) as [E L].
  destruct (Hlast cell row column square
              (snd (applyStrategies strategies cell row column square h))) as [L' E'].
  split; [by eapply extends_trans|congruence].
Qed.

Lemma extends_eliminateNext v cells h next h' :
  eliminateNext v cells h = (next, h') → extends h h' ∧ length h' = length h.
Proof.
  intros Hstep.
  destruct (eliminateNext_spec _ _ _ _ _ Hstep)
    as [(_ & -> & _)|(before & c & after & _ & _ & _ & _ & ->)].
  - split; [apply extends_refl|done].
  - split; [|apply update_length]. apply extends_update. intros x. apply eliminate_position.
Qed.

Lemma extends_propagate cell row column square h :
  extends h (snd (propagate cell row column square h))
  ∧ length (snd (propagate cell row column square h)) = length h.
Proof.
  unfold propagate. destruct (Cell.getValue _) as [v|]; [|split; [apply extends_refl|done]].
  destruct (startRemoval v row h) as [o1 h1] eqn:E1.
  destruct (startRemoval v column h1) as [o2 h2] eqn:E2.
  destruct (startRemoval v square h2) as [o3 h3] eqn:E3.
  cbn [snd].
  apply extends_eliminateNext in E1 as [X1 L1].
  apply extends_eliminateNext in E2 as [X2 L2].
  apply extends_eliminateNext in E3 as [X3 L3].
  split; [|congruence].
  eapply extends_trans; [exact X1|]. by eapply extends_trans.
Qed.

Lemma extends_resumeAt i calls h :
  extends h (snd (resumeAt i calls h)) ∧ length (snd (resumeAt i calls h)) = length h.
Proof.
  unfold resumeAt. destruct (calls !! i) as [call|]; [|split; [apply extends_refl|done]].
  destruct (resume call h) as [next h1] eqn:Hres. cbn [snd].
  by apply extends_eliminateNext in Hres.
Qed.

Lemma extends_resumeAll order calls h :
  extends h (snd (resumeAll order calls h))
  ∧ length (snd (resumeAll order calls h)) = length h.
Proof.
  unfold resumeAll. revert calls h.
  induction order as [|i order IH]; intros calls h; [split; [apply extends_refl|done]|].
  cbn [foldl fst snd].
  destruct (extends_resumeAt i calls h) as [X1 L1].
  destruct (resumeAt i calls h) as [calls1 h1]. cbn [snd] in X1, L1.
  destruct (IH calls1 h1) as [X2 L2].
  split; [by eapply extends_trans|congruence].
Qed.

Lemma rewrites_store_refl s : rewrites_store s s.
Proof. split; [by destruct s|]. split; [done|apply extends_refl]. Qed.

Lemma rewrites_store_trans s1 s2 s3 :
  rewrites_store s1 s2 → rewrites_store s2 s3 → rewrites_store s1 s3.
Proof.
  intros (E1 & L1 & X1) (E2 & L2 & X2). split; [|split].
  - rewrite E2. rewrite E1. reflexivity.
  - congruence.
  - by eapply extends_trans.
Qed.

Lemma rewrites_store_with_heap s h' :
  length h' = length (heap s) → extends (heap s) h' → rewrites_store s (with_heap h' s).
Proof. intros. split; [done|]. by split. Qed.

Lemma rewrites_store_validate s : rewrites_store s (validate s).
Proof.
  apply rewrites_store_with_heap.
  - symmetry. apply validateStore_same_content.
  - apply extends_same_content, validateStore_same_content.
Qed.

(** An [await] writes to cell objects only, whatever calls go on. *)
Lemma rewrites_store_yield r : rewrites_store (engine r) (engine (yield r)).
Proof.
  unfold yield. destruct (schedule r) as [|order later]; [apply rewrites_store_refl|].
  destruct (extends_resumeAll order (suspended r) (heap (engine r))) as [X L].
  destruct (resumeAll _ _ _) as [calls h]. cbn [engine snd] in *.
  by apply rewrites_store_with_heap.
Qed.

Lemma rewrites_store_visitCell strategies columns i c r hasChanges :
  Forall keeps_objects strategies →
  rewrites_store (engine r) (engine (fst (visitCell strategies columns i c r hasChanges))).
Proof.
  intros Hall. unfold visitCell.
  destruct (extends_autoFill (cellAt (cells (engine r)) i c) (heap (engine r))) as [E1 L1].
  destruct (autoFill _ _) as [filled h1]. cbn [snd] in E1, L1.
  set (r1 := if filled then yield _ else r).
  assert (rewrites_store (engine r) (engine r1)) as R1.
  { unfold r1. destruct filled; [|apply rewrites_store_refl].
    eapply rewrites_store_trans; [|apply rewrites_store_yield].
    unfold setEngine. cbn [engine]. by apply rewrites_store_with_heap. }
  destruct (extends_applyStrategies strategies (cellAt (cells (engine r)) i c)
              (cells (engine r1) !!! i) (columns !!! c)
              (squareOf (cells (engine r1)) i c) (heap (engine r1)) Hall) as [E2 L2].
  destruct (applyStrategies _ _ _ _ _ _) as [cellUpdated h2]. cbn [snd fst] in *.
  destruct (extends_propagate (cellAt (cells (engine r)) i c) (cells (engine r1) !!! i)
              (columns !!! c) (squareOf (cells (engine r1)) i c) h2) as [E3 L3].
  set (started := if Cell.hasValue _ then _ else _).
  assert (extends h2 (snd started) ∧ length (snd started) = length h2) as [E4 L4].
  { unfold started. destruct (Cell.hasValue _); [by split|].
    split; [apply extends_refl|done]. }
  destruct started as [calls h3]. cbn [fst snd] in *.
  assert (rewrites_store (engine r)
            (engine (mkRun (with_heap h3 (engine r1)) (suspended r1 ++ calls)
                       (schedule r1)))) as R2.
  { eapply rewrites_store_trans; [exact R1|]. cbn [engine].
    apply rewrites_store_with_heap; [congruence|]. by eapply extends_trans. }
  destruct cellUpdated; cbn [fst]; [|exact R2].
  eapply rewrites_store_trans; [exact R2|].
  eapply rewrites_store_trans; apply rewrites_store_yield.
Qed.

Lemma visitCell_pair strategies columns i c r hasChanges :
  visitCell strategies columns i c r hasChanges
  = (fst (visitCell strategies columns i c r hasChanges),
     snd (visitCell strategies columns i c r hasChanges)).
Proof. apply surjective_pairing. Qed.

Lemma rewrites_store_rowLoop strategies columns i cols r hasChanges r' hasChanges' :
  Forall keeps_objects strategies →
  rowLoop strategies columns i cols r hasChanges = Ok (r', hasChanges') →
  rewrites_store (engine r) (engine r').
Proof.
  intros Hall. revert r hasChanges.
  induction cols as [|c cols IH]; intros r hasChanges.
  - intros [= <- <-]. apply rewrites_store_refl.
  - cbn [rowLoop]. destruct (paused (engine r) && running (engine r)); [done|].
    destruct (negb (running (engine r))); [intros [= <- <-]; apply rewrites_store_refl|].
    destruct (Cell.hasValue _); [apply IH|].
    rewrite visitCell_pair. intros Hrest.
    eapply rewrites_store_trans; [by apply rewrites_store_visitCell|].
    eapply IH. exact Hrest.
Qed.

Lemma rewrites_store_gridLoop strategies columns rows r hasChanges r' hasChanges' :
  Forall keeps_objects strategies →
  gridLoop strategies columns rows r hasChanges = Ok (r', hasChanges') →
  rewrites_store (engine r) (engine r').
Proof.
  intros Hall. revert r hasChanges.
  induction rows as [|i rows IH]; intros r hasChanges.
  - intros [= <- <-]. apply rewrites_store_refl.
  - cbn [gridLoop].
    destruct (rowLoop strategies columns i (seq 0 spec_length) r hasChanges)
      as [[r1 hc1]|] eqn:Hrow; [|done].
    cbn [bindR fst snd]. intros Hrest.
    eapply rewrites_store_trans; [by eapply rewrites_store_rowLoop|].
    eapply IH. exact Hrest.
Qed.

Lemma rewrites_store_fallbackCell squareIntersection columns rc acc :
  keeps_objects squareIntersection →
  rewrites_store (engine (fst acc))
    (engine (fst (fallbackCell squareIntersection columns rc acc))).
Proof.
  intros Hsq. unfold fallbackCell.
  destruct (Cell.hasValue _); [apply rewrites_store_refl|].
  destruct (Hsq (cellAt (cells (engine (fst acc))) (fst rc) (snd rc))
              (cells (engine (fst acc)) !!! fst rc)
              (columns !!! snd rc) (squareOf (cells (engine (fst acc))) (fst rc) (snd rc))
              (heap (engine (fst acc)))) as [L E].
  destruct (squareIntersection _ _ _ _ _) as [cellUpdated h]. cbn [fst snd] in *.
  assert (rewrites_store (engine (fst acc))
            (engine (setEngine (with_heap h (engine (fst acc))) (fst acc)))) as R1
    by (by apply rewrites_store_with_heap).
  destruct cellUpdated; [|exact R1].
  eapply rewrites_store_trans; [exact R1|].
  eapply rewrites_store_trans; apply rewrites_store_yield.
Qed.

Lemma rewrites_store_fallback squareIntersection columns r hasChanges :
  keeps_objects squareIntersection →
  rewrites_store (engine r)
    (engine (fst (fallback squareIntersection columns r hasChanges))).
Proof.
  intros Hsq. unfold fallback.
  destruct (negb hasChanges && negb (solved (engine r))); [|apply rewrites_store_refl].
  generalize positions. intros ps.
  assert (∀ acc, rewrites_store (engine r) (engine (fst acc)) →
            rewrites_store (engine r)
              (engine (fst (foldl (λ acc rc, fallbackCell squareIntersection columns rc acc)
                             acc ps)))) as Hfold.
  { induction ps as [|p ps IH]; intros acc Hacc; [done|].
    cbn [foldl]. apply IH. eapply rewrites_store_trans; [exact Hacc|].
    by apply rewrites_store_fallbackCell. }
  apply Hfold. apply rewrites_store_refl.
Qed.

Lemma board_ok_extends h h' g : extends h h' → board_ok h g → board_ok h' g.
Proof.
  intros [Hlen Hpos] (Hwf & Ha & Hidx). split; [done|]. split.
  - unfold allocated in *. eapply Forall_impl; [exact Ha|]. intros l Hl. simpl in *. lia.
  - intros r c Hr Hc. destruct (Hidx r c Hr Hc) as [Er Ec].
    destruct (Hpos (cellAt g r c)) as [Er' Ec']; [|by rewrite Er', Ec'].
    unfold allocated in Ha. rewrite Forall_forall in Ha. apply Ha. by apply cell_in_grid.
Qed.

Lemma invariant_rewrites_store s s' :
  rewrites_store s s' → invariant s → invariant s'.
Proof.
  intros (Es & _ & Hext) (Hok & Hnd & Hpos). rewrite Es.
  split; [|split; [done|done]].
  cbn [heap with_heap]. eapply Forall_impl; [exact Hok|].
  intros g. by apply board_ok_extends.
Qed.

Lemma invariant_live s : invariant s → board_ok (heap s) (cells s).
Proof. intros (Hok & _). by apply Forall_cons in Hok as [? _]. Qed.

Lemma fill_position v c :
  Cell.getRowIndex (Cell.fill v c) = Cell.getRowIndex c
  ∧ Cell.getColumnIndex (Cell.fill v c) = Cell.getColumnIndex c.
Proof. done. Qed.

Lemma boards_allocated s l :
  invariant s → l ∈ boards s ≫= mjoin → l < length (heap s).
Proof.
  intros (Hok & _) Hl. apply list_elem_of_bind in Hl as (g & Hl & Hg).
  rewrite Forall_forall in Hok. destruct (Hok g Hg) as (_ & Ha & _).
  unfold allocated in Ha. rewrite Forall_forall in Ha. by apply Ha.
Qed.

(** The guess pushes a board of fresh cells. *)
Lemma invariant_guess s hasChanges s' hasChanges' :
  invariant s → guess s hasChanges = Ok (s', hasChanges') →
  invariant s'
  ∧ cells s' = cells s ∧ running s' = running s ∧ paused s' = paused s
  ∧ timeoutMs s' = timeoutMs s
  ∧ (suggestions s' = suggestions s ∨ ∃ g, suggestions s' = g :: suggestions s).
Proof.
  intros Hinv. unfold guess.
  destruct (negb hasChanges && negb (solved s)) eqn:Hcond;
    [|intros [= <- <-]; split; [done|]; repeat split; auto].
  apply andb_true_iff in Hcond as [_ Hs%negb_true_iff].
  destruct (unfilledCells s) as [|first rest] eqn:Hun;
    [by apply solved_false_unfilled in Hs|].
  destruct (fewer_fold (heap s) first rest) as (before & after & Heq & _).
  rewrite (suggestionCandidate_unfold s first rest Hun).
  set (candidate := foldl (fewer (heap s)) first rest) in *.
  destruct (invariant_live s Hinv) as (Hwf & Ha & Hidx).
  assert (candidate ∈ allCells (cells s)) as Hgrid.
  { assert (candidate ∈ unfilledCells s) as Hin
      by (rewrite Hun, Heq; apply elem_of_app; right; left).
    unfold unfilledCells in Hin. by apply list_elem_of_filter in Hin as [_ ?]. }
  destruct (grid_positions _ _ Hwf Hgrid) as (r & c & Hr & Hc & Hrc).
  destruct (Hidx r c Hr Hc) as [Hrow Hcol]. rewrite <- Hrc in Hrow, Hcol.
  destruct (Cell.getPossibleValues (deref (heap s) candidate)) as [|v vs]; [done|].
  rewrite clone_notify. destruct (clone s) as [copy h'] eqn:E.
  intros [= <- <-].
  destruct (clone_result s copy h' Hwf Ha E) as (Hcopy & Hlen & Hold & Hnew).
  unfold invariant, boards.
  cbn [cells running paused timeoutMs suggestions with_suggestions with_heap notify heap].
  split; [|repeat split; eauto].
  assert (extends (heap s) (update (Cell.fill v) candidate h')) as Hext.
  { eapply extends_trans; [|apply extends_update; intros; apply fill_position].
    split; [lia|]. intros l Hl. by rewrite (deref_lookup h' (heap s) l (Hold l Hl)). }
  assert (wf_grid (snap_cells copy)) as Hwfc by (subst copy; apply fieldAt_wf).
  assert (∀ l, l ∈ mjoin (snap_cells copy) →
               length (heap s) ≤ l < length (heap s) + 81) as Hfresh.
  { intros l Hl. subst copy. by apply fieldAt_fresh. }
  pose proof Hinv as Hinv0. destruct Hinv as (Hok & Hnd & Hpos).
  split; [|split].
  - apply Forall_cons. split.
    { apply (board_ok_extends (heap s)); [done|]. by apply Forall_cons in Hok as [? _]. }
    rewrite fmap_cons. cbn [snapshot]. apply Forall_cons. split.
    + split; [done|]. split.
      * unfold allocated. apply Forall_forall. intros l Hl%Hfresh.
        rewrite update_length. lia.
      * intros r' c' Hr' Hc'. rewrite deref_update_ne.
        -- by rewrite Hnew.
        -- assert (cellAt (snap_cells copy) r' c' ∈ mjoin (snap_cells copy)) as Hl
             by (by apply cell_in_grid).
           apply Hfresh in Hl.
           unfold allocated in Ha. rewrite Forall_forall in Ha.
           specialize (Ha candidate Hgrid). lia.
    + apply Forall_cons in Hok as [_ Hok]. eapply Forall_impl; [exact Hok|].
      intros g. by apply board_ok_extends.
  - unfold boards in Hnd. rewrite fmap_cons. cbn [snapshot]. rewrite !bind_cons in *.
    apply NoDup_app in Hnd as (N1 & N12 & N2).
    apply NoDup_app. split; [done|]. split.
    + intros l Hl [Hc'|Hc']%elem_of_app; [|by apply (N12 l)].
      apply Hfresh in Hc'.
      unfold allocated in Ha. rewrite Forall_forall in Ha. specialize (Ha l Hl). lia.
    + apply NoDup_app. split; [by destruct Hwfc as (_ & _ & ?)|]. split; [|done].
      intros l Hl%Hfresh Hold'.
      assert (l < length (heap s)); [|lia].
      apply (boards_allocated s); [exact Hinv0|].
      unfold boards. rewrite bind_cons. apply elem_of_app. by right.
  - apply Forall_cons. split; [|done]. cbn [row col]. by rewrite Hrow, Hcol.
Qed.

(** The rollback makes the most recent snapshot the live board and drops
    the board that was live. *)
Lemma invariant_rollback s :
  invariant s →
  invariant (rollback s)
  ∧ running (rollback s) = running s ∧ paused (rollback s) = paused s
  ∧ timeoutMs (rollback s) = timeoutMs s
  ∧ (suggestions (rollback s) = suggestions s
     ∨ ∃ g, suggestions s = g :: suggestions (rollback s)).
Proof.
  intros Hinv.
  assert (invariant (validate s)) as Hval
    by (eapply invariant_rewrites_store; [apply rewrites_store_validate|done]).
  unfold rollback. case_bool_decide as Hlen;
    [|split; [assumption|]; repeat (split; [reflexivity|]); left; reflexivity].
  destruct (isValid (validate s)) eqn:Hv; cbn [negb];
    [split; [assumption|]; repeat (split; [reflexivity|]); left; reflexivity|].
  assert (suggestions (validate s) = suggestions s) as -> by done.
  destruct (suggestions s) as [|g rest] eqn:Hstack; [simpl in Hlen; lia|].
  cbn [getCell cells heap suggestions running paused timeoutMs
       with_heap with_cells with_suggestions notify].
  split; [|split; [done|split; [done|split; [done|right; by exists g]]]].
  destruct Hval as (Hok & Hnd & Hpos).
  unfold boards in Hok, Hnd.
  assert (suggestions (validate s) = g :: rest) as Hs' by done.
  assert (cells (validate s) = cells s) as Hc' by done.
  rewrite Hs', Hc' in Hok, Hnd. rewrite Hs' in Hpos. clear Hs' Hc'.
  rewrite fmap_cons in Hok, Hnd.
  apply Forall_cons in Hok as [_ Hok]. apply Forall_cons in Hpos as [_ Hpos].
  rewrite bind_cons in Hnd. apply NoDup_app in Hnd as (_ & _ & Hnd).
  unfold invariant, boards.
  cbn [cells heap suggestions with_heap with_cells with_suggestions notify].
  split; [|split; [done|done]].
  eapply Forall_impl; [exact Hok|]. intros b.
  apply board_ok_extends, extends_update. by intros c.
Qed.

Lemma bySinglePossibleValue_keeps_objects : keeps_objects bySinglePossibleValue.
Proof.
  intros cell row column square h. unfold bySinglePossibleValue.
  destruct (Cell.hasValue _); [split; [done|apply extends_refl]|].
  destruct (Cell.getPossibleValues _) as [|v [|w vs]]; cbn [snd];
    try (split; [done|apply extends_refl]).
  split; [apply update_length|by apply extends_update].
Qed.

Lemma invariant_empty_stack s :
  wf_grid (cells s) → allocated (heap s) (cells s) → indexed (heap s) (cells s) →
  suggestions s = [] → invariant s.
Proof.
  intros Hwf Ha Hidx Hs. unfold invariant, boards. rewrite Hs.
  split; [|split; [|done]].
  - by apply Forall_singleton.
  - cbn. rewrite app_nil_r. by apply wf_grid_NoDup.
Qed.

(** X10: the guess and the rollback keep the boards apart.  From a state
    where the live board and every snapshot on the stack are 9x9 grids of
    allocated cells that know their position, no two boards share a cell
    object, and every hypothesis records a position of the board, a guess
    that finds a candidate (or is not taken) leads to such a state again,
    with the same live grid and at most one hypothesis more; so does the
    rollback check that follows it, with at most one hypothesis less;
    neither touches [running], [paused] or [timeoutMs].  (A guess on a cell
    without candidates is not covered: what [Cell.fill] does with
    [undefined] is not part of the sources.) *)
Theorem guess_and_rollback_keep_boards_apart (s s' : ClassicSudoku)
    (hasChanges hasChanges' : bool) :
  invariant s → guess s hasChanges = Ok (s', hasChanges') →
  invariant s'
  ∧ cells s' = cells s
  ∧ (suggestions s' = suggestions s ∨ ∃ g, suggestions s' = g :: suggestions s)
  ∧ invariant (rollback s')
  ∧ (suggestions (rollback s') = suggestions s'
     ∨ ∃ g, suggestions s' = g :: suggestions (rollback s'))
  ∧ running (rollback s') = running s ∧ paused (rollback s') = paused s
  ∧ timeoutMs (rollback s') = timeoutMs s.
Proof.
  intros Hinv Hg.
  destruct (invariant_guess s hasChanges s' hasChanges' Hinv Hg)
    as (Hinv' & Hc & Hr & Hp & Ht & Hstack).
  destruct (invariant_rollback s' Hinv') as (Hinv'' & Hr' & Hp' & Ht' & Hstack').
  split; [exact Hinv'|]. split; [exact Hc|]. split; [exact Hstack|].
  split; [exact Hinv''|]. split; [exact Hstack'|].
  split; [congruence|]. split; congruence.
Qed.

Lemma stale_invariant : invariant stale.
Proof.
  apply invariant_empty_stack.
  - apply wf_grid_decide. vm_compute. reflexivity.
  - apply allocated_decide. vm_compute. reflexivity.
  - apply indexed_decide. vm_compute. reflexivity.
  - reflexivity.
Defined.

Lemma guess_and_rollback_keep_boards_apart_witness :
  invariant wrongGuess ∧ invariant (rollback wrongGuess).
Proof.
  destruct (guess_and_rollback_keep_boards_apart stale wrongGuess false true)
    as (H1 & _ & _ & H2 & _).
  - exact stale_invariant.
  - vm_compute. reflexivity.
  - by split.
Defined.

(** X11: the cell loop and the fallback pass write to cell objects only.
    If the strategies create or drop no cell object and leave positions
    alone, then whatever calls are suspended and whatever the schedule,
    when the cell loop of a turn comes to its end, and again after the
    fallback pass, the grid, the stack, [running], [paused], [timeoutMs]
    and the messages are as at the start of the turn, no cell object was
    created and every cell object has kept its position; hence the boards
    are still well formed and apart. *)
Theorem cell_loop_writes_cells_only (strategies : list SolveStrategy)
    (squareIntersection : SolveStrategy) (r r' : Run) (hasChanges : bool) :
  Forall keeps_objects strategies → keeps_objects squareIntersection →
  gridLoop strategies (getColumns (cells (engine r))) (seq 0 spec_length) r false
  = Ok (r', hasChanges) →
  rewrites_store (engine r) (engine r')
  ∧ rewrites_store (engine r)
      (engine (fst (fallback squareIntersection (getColumns (cells (engine r)))
                      r' hasChanges)))
  ∧ (invariant (engine r) →
     invariant (engine r')
     ∧ invariant (engine (fst (fallback squareIntersection
                                 (getColumns (cells (engine r))) r' hasChanges)))).
Proof.
  intros Hall Hsq Hloop.
  pose proof (rewrites_store_gridLoop _ _ _ _ _ _ _ Hall Hloop) as R1.
  pose proof (rewrites_store_fallback squareIntersection
                (getColumns (cells (engine r))) r' hasChanges Hsq) as R2.
  split; [exact R1|]. split; [by eapply rewrites_store_trans|].
  intros Hinv. split; [by eapply invariant_rewrites_store|].
  eapply invariant_rewrites_store; [|exact Hinv]. by eapply rewrites_store_trans.
Qed.

Lemma cell_loop_writes_cells_only_witness :
  invariant (engine (fst twoPeersLoop))
  ∧ cells (engine (fst twoPeersLoop)) = cells twoPeers.
Proof.
  destruct (cell_loop_writes_cells_only [bySinglePossibleValue] bySinglePossibleValue
              (mkRun twoPeers [] [[0]; [0]; [0]]) (fst twoPeersLoop) (snd twoPeersLoop))
    as ((E & _) & _ & Hinv).
  - apply Forall_singleton, bySinglePossibleValue_keeps_objects.
  - apply bySinglePossibleValue_keeps_objects.
  - vm_compute. reflexivity.
  - split; [|by rewrite E].
    apply Hinv. apply invariant_empty_stack.
    + apply wf_grid_decide. vm_compute. reflexivity.
    + apply allocated_decide. vm_compute. reflexivity.
    + apply indexed_decide. vm_compute. reflexivity.
    + reflexivity.
Defined.

(** ** A stopped engine *)










(** A stopped engine still guesses: on [rectangle], stopped before the
    loop, the turn pushes a hypothesis and fills (1,8). *)
Example stopped_engine_still_guesses :
  match solveAsPossible [bySinglePossibleValue] bySinglePossibleValue 1
          (mkRun (stop rectangle) [] []) with
  | Ok r' => (length (suggestions (engine r')),
              Cell.getValue (deref (heap (engine r')) (getCell (engine r') 1 8)))
  | Stuck _ => (0, None)
  end = (1, Some 4%Z).
Proof. vm_compute. reflexivity. Qed.

(** X13: [solve] rejects every board on which two peers share an assigned
    value, not only a given one: it reports the error and answers at once,
    whatever the strategies and without consulting them; the values, the
    candidates and the grid are as before; the calls still suspended and
    the schedule are as before; the promise is left pending and [running]
    is still true. *)
Theorem solve_rejects_duplicates (strategies : list SolveStrategy)
    (squareIntersection : SolveStrategy) (fuel : nat) (s : ClassicSudoku)
    (calls : list Call) (sched : list (list nat)) (p q : nat * nat) :
  wf_grid (cells s) → onBoard p → onBoard q → peers q p →
  Cell.hasValue (deref (heap s) (getCell s (fst p) (snd p))) = true →
  valueAt s q = valueAt s p →
  ∃ s', solve strategies squareIntersection fuel (mkRun s calls sched)
        = Ok (mkRun s' calls sched, Pending)
        ∧ notifications s' = (Error, MsgInvalidField) :: notifications s
        ∧ (∀ l, Cell.content (deref (heap s') l) = Cell.content (deref (heap s) l))
        ∧ cells s' = cells s
        ∧ suggestions s' = suggestions s
        ∧ isRunning s' = true
        ∧ Cell.isValid (deref (heap s') (getCell s' (fst p) (snd p))) = false
        ∧ Cell.isValid (deref (heap s') (getCell s' (fst q) (snd q))) = false.
Proof.
  intros Hwf Hp Hq Hpeers Hv Hsame.
  assert (Cell.isValid (deref (heap (validate s)) (getCell s (fst p) (snd p))) = false)
    as Hflagp.
  { apply validate_flag_iff; [done..|]. split; [done|]. by exists q. }
  assert (Cell.isValid (deref (heap (validate s)) (getCell s (fst q) (snd q))) = false)
    as Hflagq.
  { apply validate_flag_iff; [done..|]. split.
    - unfold valueAt, Cell.getValue in Hsame. unfold Cell.hasValue in *.
      by rewrite Hsame.
    - exists p. split; [done|]. split; [|done].
      destruct Hpeers as [Hne Hrel]. split; [congruence|].
      destruct Hrel as [?|[?|[? ?]]]; auto. }
  assert (isValid (validate (with_running true s)) = false) as Hinvalid.
  { destruct (isValid (validate (with_running true s))) eqn:Hval; [|done].
    pose proof (proj1 (isValid_positions (validate (with_running true s)) Hwf) Hval p Hp)
      as Hval'.
    unfold getCell in *.
    cbn [heap cells validate with_heap with_running] in *. congruence. }
  eexists. split; [by apply solve_invalid|].
  split; [done|]. split; [|by repeat split].
  intros l. symmetry. apply (validateStore_same_content (cells s) (heap s)).
Qed.

Lemma solve_rejects_duplicates_witness :
  ∃ s', solve [] bySinglePossibleValue 5 (mkRun twoFives [] []) = Ok (mkRun s' [] [], Pending)
        ∧ isRunning s' = true.
Proof.
  destruct (solve_rejects_duplicates [] bySinglePossibleValue 5 twoFives [] []
              (0, 0) (0, 1))
    as (s' & H1 & _ & _ & _ & _ & H2 & _).
  - apply wf_grid_decide. vm_compute. reflexivity.
  - split; simpl; lia.
  - split; simpl; lia.
  - split; [congruence|by left].
  - vm_compute. reflexivity.
  - vm_compute. reflexivity.
  - exists s'. by split.
Defined.

(** ** Duplicates and stale flags *)

(** X15: [isDuplicated(cell, cells)] counts the cell itself: for a cell of
    a range of distinct cells it holds iff another cell of the range has the
    same value.  The absent value is compared like any other, so two cells
    without a value are duplicates of each other; only the guard of
    [validateRanges] keeps them from being flagged. *)
Theorem isDuplicated_counts_others (h : Store) (cell : loc) (range : list loc) :
  NoDup range → cell ∈ range →
  (isDuplicated h cell range = true
   ↔ ∃ other, other ∈ range ∧ other ≠ cell
              ∧ Cell.getValue (deref h other) = Cell.getValue (deref h cell))
  ∧ (Cell.hasValue (deref h cell) = false →
     (∃ other, other ∈ range ∧ other ≠ cell ∧ Cell.hasValue (deref h other) = false) →
     isDuplicated h cell range = true
     ∧ validateCell range cell h = h).
Proof.
  intros Hnd Hin. split; [by apply isDuplicated_iff|].
  intros Hun (other & Ho & Hne & Hun'). split.
  - apply isDuplicated_iff; [done..|]. exists other. split; [done|]. split; [done|].
    unfold Cell.hasValue, Cell.getValue in *.
    destruct (Cell.value (deref h other)), (Cell.value (deref h cell)); done.
  - unfold validateCell. rewrite bool_decide_eq_true_2; [done|].
    unfold Cell.hasValue, Cell.getValue, Cell.DEFAULT_CELL_VALUE in *.
    by destruct (Cell.value (deref h cell)).
Qed.

Lemma isDuplicated_counts_others_witness :
  isDuplicated (heap rectangle) (getCell rectangle 0 1) (cells rectangle !!! 0) = true.
Proof.
  destruct (isDuplicated_counts_others (heap rectangle) (getCell rectangle 0 1)
              (cells rectangle !!! 0)) as [_ H].
  - apply (bool_decide_unpack _). vm_compute. exact I.
  - vm_compute. apply list_elem_of_further, list_elem_of_here.
  - apply H; [vm_compute; reflexivity|].
    exists (getCell rectangle 0 8). split; [|split; vm_compute; [lia|reflexivity]].
    vm_compute. do 8 apply list_elem_of_further. apply list_elem_of_here.
Defined.

Lemma verdict_same_content a b c x y :
  Cell.content x = Cell.content y → verdict a b c x = verdict a b c y.
Proof.
  destruct x, y. unfold Cell.content, verdict, Cell.hasValue, Cell.setIsValid. simpl.
  by intros [= -> -> -> ->].
Qed.

(** X16: [validate()] starts from scratch: the flags it leaves depend on
    the values only, not on the flags found.  Two stores that differ at most
    in the flags of cells of the grid are validated to the same store. *)
Theorem validate_ignores_old_flags (g : list (list loc)) (h h' : Store) :
  wf_grid g → same_content h h' →
  (∀ l, l ∉ allCells g → h !! l = h' !! l) →
  validateStore g h = validateStore g h'.
Proof.
  intros Hwf Hsame Hout. apply list_eq. intros l.
  destruct (decide (l ∈ mjoin g)) as [Hin|Hnot].
  - destruct (grid_positions g l Hwf Hin) as (r & c & Hr & Hc & ->).
    rewrite !validateStore_lookup by done.
    rewrite <- !(isDuplicated_same_content h h') by done.
    destruct Hsame as [Hlen Hc'].
    specialize (Hc' (cellAt g r c)). unfold deref in Hc'.
    rewrite !list_lookup_total_alt in Hc'.
    destruct (h !! cellAt g r c) as [x|] eqn:Hx, (h' !! cellAt g r c) as [y|] eqn:Hy.
    + simpl in *. f_equal. by apply verdict_same_content.
    + apply lookup_lt_Some in Hx. apply lookup_ge_None in Hy. lia.
    + apply lookup_lt_Some in Hy. apply lookup_ge_None in Hx. lia.
    + done.
  - rewrite !validateStore_frame by done. by apply Hout.
Qed.

Lemma flags_same_content (b : bool) (h : Store) :
  same_content h (Cell.setIsValid b <$> h).
Proof.
  split; [by rewrite length_fmap|]. intros l.
  unfold deref. rewrite !list_lookup_total_alt, list_lookup_fmap.
  by destruct (h !! l) as [[]|].
Qed.

Lemma validate_ignores_old_flags_witness :
  validateStore (cells twoFives) (heap twoFives)
  = validateStore (cells twoFives) (Cell.setIsValid false <$> heap twoFives).
Proof.
  refine (validate_ignores_old_flags (cells twoFives) (heap twoFives)
            (Cell.setIsValid false <$> heap twoFives) _ (flags_same_content false _) _).
  - apply wf_grid_decide. vm_compute. reflexivity.
  - intros l Hl.
    assert (81 ≤ l) as Hge.
    { destruct (decide (81 ≤ l)) as [|Hlt]; [done|]. exfalso. apply Hl.
      assert (l < 81) as Hlt' by lia. clear Hl Hlt.
      assert (allCells (cells twoFives) = seq 0 81) as -> by (vm_compute; reflexivity).
      apply elem_of_seq. lia. }
    rewrite list_lookup_fmap.
    assert (length (heap twoFives) = 81) as Hlen by (vm_compute; reflexivity).
    by rewrite (lookup_ge_None_2 (heap twoFives) l) by lia.
Defined.
